(** * Enum upcast analysis (opt/optimize_enums/EnumUpcastAnalysis.cpp)

    A shallow embedding of the upcast detector, the instruction transfer
    function and the driver [reject_unsafe_enums], together with the part of
    [ReferencedState] that decides renameability.

    Sets of interned [DexType*] are [gset]s, the register environment is a
    [gmap], [always_assert] failures are [None] in the option monad, and the
    [TRACE] line of [reject] is kept as a log of (type, reason) pairs. *)

From Stdlib Require Import Ascii.
From stdpp Require Import gmap strings list fin_sets.

Set Warnings "-clear-no-such-hyp".
Set Default Proof Using "Type".

Open Scope string_scope.
Open Scope nat_scope.
Open Scope list_scope.

(** ** IR facade *)

(** A [DexType*] is an interned pointer: two pointers are equal exactly when
    the descriptors are, so a type is its descriptor. *)
Abbreviation DexType := string (only parsing).

(** Modelled from the spec: [is_primitive], [is_array], [get_array_type] and
    [get_array_component_type] belong to the IR layer, which is not among the
    sources; they follow the Dex descriptor syntax. A null result is [None]. *)
Definition is_primitive (t : DexType) : bool :=
  match t with
  | String c _ =>
      bool_decide (c ∈ ["Z"; "B"; "S"; "C"; "I"; "J"; "F"; "D"; "V"]%char)
  | EmptyString => false
  end.

Definition is_array (t : DexType) : bool :=
  match t with
  | String "[" _ => true
  | _ => false
  end.

Fixpoint strip_brackets (t : string) : string :=
  match t with
  | String "[" rest => strip_brackets rest
  | _ => t
  end.

(** innermost element type of an array type, null for a non-array *)
Definition get_array_type (t : DexType) : option DexType :=
  if is_array t then Some (strip_brackets t) else None.

(** one array level removed, null for a non-array *)
Definition get_array_component_type (t : DexType) : option DexType :=
  match t with
  | String "[" rest => Some rest
  | _ => None
  end.

Definition get_enum_type : DexType := "Ljava/lang/Enum;".
Definition get_string_type : DexType := "Ljava/lang/String;".
Definition get_class_type : DexType := "Ljava/lang/Class;".

Record DexProto := {
  get_rtype : DexType;
  get_args : list DexType;
}.

Record DexMethodSpec := {
  spec_cls : DexType;
  spec_name : string;
  spec_proto : DexProto;
}.

(** Every [DexMethodRef*] points to a method object that also carries the
    definition flag and the access flags read by
    [is_static_method_on_enum_class]; pointer equality of interned references
    is equality of their [DexMethodSpec]. *)
Record DexMethodRef := {
  m_spec : DexMethodSpec;
  is_def : bool;
  is_static : bool;
}.

Record DexFieldRef := {
  field_class : DexType;
  field_name : string;
  field_type : DexType;
}.

#[global] Instance DexProto_eq_dec : EqDecision DexProto.
Proof. solve_decision. Defined.
#[global] Instance DexMethodSpec_eq_dec : EqDecision DexMethodSpec.
Proof. solve_decision. Defined.

Definition make_method (c : DexType) (n : string) (args : list DexType)
    (r : DexType) : DexMethodSpec :=
  {| spec_cls := c; spec_name := n;
     spec_proto := {| get_rtype := r; get_args := args |} |}.

(** Modelled from the spec: [signatures_match] (IR layer) compares name and
    proto and ignores the declaring class. *)
Definition signatures_match (a : DexMethodRef) (b : DexMethodSpec) : bool :=
  bool_decide (spec_name (m_spec a) = spec_name b) &&
  bool_decide (spec_proto (m_spec a) = spec_proto b).

Definition is_init (m : DexMethodRef) : bool :=
  bool_decide (spec_name (m_spec m) = "<init>").
Definition is_clinit (m : DexMethodRef) : bool :=
  bool_decide (spec_name (m_spec m) = "<clinit>").

(** ** ReferencedState.h *)

Record ReferencedState := {
  m_by_string : bool;
  m_by_resources : bool;
  m_keep : bool;
  m_set_allowshrinking : bool;
  m_unset_allowshrinking : bool;
  m_set_allowobfuscation : bool;
  m_unset_allowobfuscation : bool;
  m_keep_name : bool;
}.

Definition allowshrinking (s : ReferencedState) : bool :=
  negb (m_unset_allowshrinking s) && m_set_allowshrinking s &&
  negb (m_by_resources s).

Definition allowobfuscation (s : ReferencedState) : bool :=
  negb (m_unset_allowobfuscation s) && m_set_allowobfuscation s &&
  negb (m_by_resources s).

Definition can_rename (s : ReferencedState) : bool :=
  negb (m_keep_name s) && negb (m_by_string s) &&
  (negb (m_keep s) || allowobfuscation s) && negb (allowshrinking s).

(** The mutators. The keep reasons they may record, and [m_by_type], which
    [ref_by_string] raises as well, are read by none of the queries above and
    are left out of the record. *)
Definition ref_by_string (s : ReferencedState) : ReferencedState :=
  {| m_by_string := true; m_by_resources := m_by_resources s;
     m_keep := m_keep s;
     m_set_allowshrinking := m_set_allowshrinking s;
     m_unset_allowshrinking := m_unset_allowshrinking s;
     m_set_allowobfuscation := m_set_allowobfuscation s;
     m_unset_allowobfuscation := m_unset_allowobfuscation s;
     m_keep_name := m_keep_name s |}.

Definition set_referenced_by_resource_xml (s : ReferencedState)
    : ReferencedState :=
  {| m_by_string := m_by_string s; m_by_resources := true;
     m_keep := m_keep s;
     m_set_allowshrinking := m_set_allowshrinking s;
     m_unset_allowshrinking := m_unset_allowshrinking s;
     m_set_allowobfuscation := m_set_allowobfuscation s;
     m_unset_allowobfuscation := m_unset_allowobfuscation s;
     m_keep_name := m_keep_name s |}.

Definition unset_referenced_by_resource_xml (s : ReferencedState)
    : ReferencedState :=
  {| m_by_string := m_by_string s; m_by_resources := false;
     m_keep := m_keep s;
     m_set_allowshrinking := m_set_allowshrinking s;
     m_unset_allowshrinking := m_unset_allowshrinking s;
     m_set_allowobfuscation := m_set_allowobfuscation s;
     m_unset_allowobfuscation := m_unset_allowobfuscation s;
     m_keep_name := m_keep_name s |}.

Definition set_has_keep (s : ReferencedState) : ReferencedState :=
  {| m_by_string := m_by_string s; m_by_resources := m_by_resources s;
     m_keep := true;
     m_set_allowshrinking := m_set_allowshrinking s;
     m_unset_allowshrinking := m_unset_allowshrinking s;
     m_set_allowobfuscation := m_set_allowobfuscation s;
     m_unset_allowobfuscation := m_unset_allowobfuscation s;
     m_keep_name := m_keep_name s |}.

Definition set_keep_name (s : ReferencedState) : ReferencedState :=
  {| m_by_string := m_by_string s; m_by_resources := m_by_resources s;
     m_keep := m_keep s;
     m_set_allowshrinking := m_set_allowshrinking s;
     m_unset_allowshrinking := m_unset_allowshrinking s;
     m_set_allowobfuscation := m_set_allowobfuscation s;
     m_unset_allowobfuscation := m_unset_allowobfuscation s;
     m_keep_name := true |}.

Definition set_allowshrinking (s : ReferencedState) : ReferencedState :=
  {| m_by_string := m_by_string s; m_by_resources := m_by_resources s;
     m_keep := m_keep s;
     m_set_allowshrinking := true;
     m_unset_allowshrinking := m_unset_allowshrinking s;
     m_set_allowobfuscation := m_set_allowobfuscation s;
     m_unset_allowobfuscation := m_unset_allowobfuscation s;
     m_keep_name := m_keep_name s |}.

Definition unset_allowshrinking (s : ReferencedState) : ReferencedState :=
  {| m_by_string := m_by_string s; m_by_resources := m_by_resources s;
     m_keep := m_keep s;
     m_set_allowshrinking := m_set_allowshrinking s;
     m_unset_allowshrinking := true;
     m_set_allowobfuscation := m_set_allowobfuscation s;
     m_unset_allowobfuscation := m_unset_allowobfuscation s;
     m_keep_name := m_keep_name s |}.

Definition force_unset_allowshrinking (s : ReferencedState)
    : ReferencedState :=
  {| m_by_string := m_by_string s; m_by_resources := m_by_resources s;
     m_keep := m_keep s;
     m_set_allowshrinking := true;
     m_unset_allowshrinking := false;
     m_set_allowobfuscation := m_set_allowobfuscation s;
     m_unset_allowobfuscation := m_unset_allowobfuscation s;
     m_keep_name := m_keep_name s |}.

Definition set_allowobfuscation (s : ReferencedState) : ReferencedState :=
  {| m_by_string := m_by_string s; m_by_resources := m_by_resources s;
     m_keep := m_keep s;
     m_set_allowshrinking := m_set_allowshrinking s;
     m_unset_allowshrinking := m_unset_allowshrinking s;
     m_set_allowobfuscation := true;
     m_unset_allowobfuscation := m_unset_allowobfuscation s;
     m_keep_name := m_keep_name s |}.

Definition unset_allowobfuscation (s : ReferencedState) : ReferencedState :=
  {| m_by_string := m_by_string s; m_by_resources := m_by_resources s;
     m_keep := m_keep s;
     m_set_allowshrinking := m_set_allowshrinking s;
     m_unset_allowshrinking := m_unset_allowshrinking s;
     m_set_allowobfuscation := m_set_allowobfuscation s;
     m_unset_allowobfuscation := true;
     m_keep_name := m_keep_name s |}.

(** [set_root]: keep, and withdraw both modifiers *)
Definition set_root (s : ReferencedState) : ReferencedState :=
  unset_allowobfuscation (unset_allowshrinking (set_has_keep s)).

(** A call of one of the mutators of the class; [OtherMutator] is any of those
    that write none of the fields of the record ([set_is_serde],
    [ref_by_type], [set_generated], ...). Assignment is not a mutator here. *)
Inductive Mutator :=
  | RefByString | SetReferencedByResourceXml | UnsetReferencedByResourceXml
  | SetRoot | SetHasKeep | SetKeepName
  | SetAllowshrinking | UnsetAllowshrinking | ForceUnsetAllowshrinking
  | SetAllowobfuscation | UnsetAllowobfuscation
  | OtherMutator.

#[global] Instance Mutator_eq_dec : EqDecision Mutator.
Proof. solve_decision. Defined.

Definition call (s : ReferencedState) (op : Mutator) : ReferencedState :=
  match op with
  | RefByString => ref_by_string s
  | SetReferencedByResourceXml => set_referenced_by_resource_xml s
  | UnsetReferencedByResourceXml => unset_referenced_by_resource_xml s
  | SetRoot => set_root s
  | SetHasKeep => set_has_keep s
  | SetKeepName => set_keep_name s
  | SetAllowshrinking => set_allowshrinking s
  | UnsetAllowshrinking => unset_allowshrinking s
  | ForceUnsetAllowshrinking => force_unset_allowshrinking s
  | SetAllowobfuscation => set_allowobfuscation s
  | UnsetAllowobfuscation => unset_allowobfuscation s
  | OtherMutator => s
  end.

(** the calls in the order of the list *)
Definition calls (s : ReferencedState) (ops : list Mutator) : ReferencedState :=
  foldl call s ops.

(** The nine setters that do nothing but raise flags of the record. The two
    that clear a flag are not among them, and neither is [OtherMutator]: some
    of the mutators it stands for overwrite a value ([set_api_level],
    [set_interdex_subgroup]). *)
Definition raises_flags (op : Mutator) : bool :=
  match op with
  | RefByString | SetReferencedByResourceXml | SetRoot | SetHasKeep
  | SetKeepName | SetAllowshrinking | UnsetAllowshrinking
  | SetAllowobfuscation | UnsetAllowobfuscation => true
  | ForceUnsetAllowshrinking | UnsetReferencedByResourceXml
  | OtherMutator => false
  end.

(** ** Instructions, code and classes *)

Abbreviation Register := N (only parsing).

(** Modelled from the spec: the reserved identifier [RESULT]; registers are
    32-bit, and [RESULT] is the largest one. *)
Definition RESULT_REGISTER : Register := (2 ^ 32 - 1)%N.
Definition next_register (r : Register) : Register := ((r + 1) mod 2 ^ 32)%N.

(** The opcodes the analysis names; every other opcode is [OPCODE_OTHER] and
    takes the [default] branches. *)
Inductive IROpcode :=
  | IOPCODE_LOAD_PARAM | IOPCODE_LOAD_PARAM_OBJECT | IOPCODE_LOAD_PARAM_WIDE
  | OPCODE_MOVE_OBJECT | OPCODE_MOVE_RESULT_OBJECT
  | IOPCODE_MOVE_RESULT_PSEUDO_OBJECT
  | OPCODE_RETURN_OBJECT | OPCODE_CONST_STRING | OPCODE_CONST_CLASS
  | OPCODE_CHECK_CAST | OPCODE_NEW_INSTANCE | OPCODE_NEW_ARRAY
  | OPCODE_FILLED_NEW_ARRAY
  | OPCODE_AGET_OBJECT | OPCODE_APUT_OBJECT
  | OPCODE_IGET_OBJECT | OPCODE_IPUT_OBJECT
  | OPCODE_SGET_OBJECT | OPCODE_SPUT_OBJECT
  | OPCODE_INVOKE_VIRTUAL | OPCODE_INVOKE_SUPER | OPCODE_INVOKE_DIRECT
  | OPCODE_INVOKE_STATIC | OPCODE_INVOKE_INTERFACE
  | OPCODE_OTHER.

#[global] Instance IROpcode_eq_dec : EqDecision IROpcode.
Proof. solve_decision. Defined.

Definition is_invoke (op : IROpcode) : bool :=
  match op with
  | OPCODE_INVOKE_VIRTUAL | OPCODE_INVOKE_SUPER | OPCODE_INVOKE_DIRECT
  | OPCODE_INVOKE_STATIC | OPCODE_INVOKE_INTERFACE => true
  | _ => false
  end.

(** The instruction queries of the IR facade. An absent operand is [None]
    ([has_type], [has_field], [has_method] are [is_Some]). *)
Record IRInstruction := {
  opcode : IROpcode;
  srcs : list Register;
  dests_size : nat;
  dest : Register;
  dest_is_wide : bool;
  has_move_result_pseudo : bool;
  get_type : option DexType;
  get_field : option DexFieldRef;
  get_method : option DexMethodRef;
}.

(** [insn->src(i)]; out of range is an IR assertion failure *)
Definition src (insn : IRInstruction) (i : nat) : option Register :=
  srcs insn !! i.

Record Block := {
  block_id : nat;
  block_insns : list IRInstruction;
  block_succs : list nat;
}.

Record ControlFlowGraph := {
  blocks : list Block;
  entry_block : nat;
}.

Record IRCode := {
  get_param_instructions : list IRInstruction;
  build_cfg : ControlFlowGraph;
}.

Record DexMethod := {
  m_ref : DexMethodRef;
  m_rstate : ReferencedState;
  get_code : option IRCode;
}.

Definition get_class (m : DexMethod) : DexType := spec_cls (m_spec (m_ref m)).
Definition get_proto (m : DexMethod) : DexProto :=
  spec_proto (m_spec (m_ref m)).

Record DexField := {
  f_ref : DexFieldRef;
  f_rstate : ReferencedState;
}.

Record DexClass := {
  get_type_of_class : DexType;
  is_enum : bool;
  get_ifields : list DexField;
  get_sfields : list DexField;
  get_dmethods : list DexMethod;
  get_vmethods : list DexMethod;
}.

(** Modelled from the spec: [gather_types] of a proto names the return type
    and the argument types; of an instruction, its type operand, the class and
    type of its field operand, and the class and proto of its method operand;
    of a method, proto and body ([gatherTypes (proto+body)]). *)
Definition DexProto_gather_types (p : DexProto) : list DexType :=
  get_rtype p :: get_args p.

Definition IRInstruction_gather_types (insn : IRInstruction) : list DexType :=
  match get_type insn with Some t => [t] | None => [] end ++
  match get_field insn with
  | Some f => [field_class f; field_type f]
  | None => []
  end ++
  match get_method insn with
  | Some m => spec_cls (m_spec m) :: DexProto_gather_types (spec_proto (m_spec m))
  | None => []
  end.

Definition IRCode_gather_types (c : IRCode) : list DexType :=
  concat (map (λ b, concat (map IRInstruction_gather_types (block_insns b)))
              (blocks (build_cfg c))).

Definition DexMethod_gather_types (m : DexMethod) : list DexType :=
  DexProto_gather_types (get_proto m) ++
  match get_code m with Some c => IRCode_gather_types c | None => [] end.

(** ** The abstract domain *)

(** Modelled from the spec: [EnumTypes] is bottom or a finite set of types
    (top is never materialised and is left out); [elements] is empty for
    bottom; the default-constructed value is the empty set. *)
Inductive EnumTypes :=
  | Bottom
  | Value (s : gset DexType).

Definition EnumTypes_default : EnumTypes := Value ∅.
Definition EnumTypes_of (t : DexType) : EnumTypes := Value {[ t ]}.

Definition EnumTypes_elements (v : EnumTypes) : list DexType :=
  match v with
  | Bottom => []
  | Value s => elements s
  end.

Definition EnumTypes_add (t : DexType) (v : EnumTypes) : EnumTypes :=
  match v with
  | Bottom => Value {[ t ]}
  | Value s => Value ({[ t ]} ∪ s)
  end.

Definition is_value (v : EnumTypes) : bool :=
  match v with Bottom => false | Value _ => true end.

Definition EnumTypes_join (a b : EnumTypes) : EnumTypes :=
  match a, b with
  | Bottom, _ => b
  | _, Bottom => a
  | Value s1, Value s2 => Value (s1 ∪ s2)
  end.

(** Modelled from the spec: the environment is a partial map from registers to
    [EnumTypes] in which a missing register is bottom, or the bottom
    environment of an unreachable block, which [set] leaves as it is. *)
Inductive EnumTypeEnvironment :=
  | EnvBottom
  | EnvValue (bindings : gmap Register EnumTypes).

Definition env_is_bottom (env : EnumTypeEnvironment) : bool :=
  match env with EnvBottom => true | EnvValue _ => false end.

Definition env_get (env : EnumTypeEnvironment) (r : Register) : EnumTypes :=
  match env with
  | EnvBottom => Bottom
  | EnvValue m => default Bottom (m !! r)
  end.

Definition env_set (r : Register) (v : EnumTypes) (env : EnumTypeEnvironment)
    : EnumTypeEnvironment :=
  match env with
  | EnvBottom => EnvBottom
  | EnvValue m => EnvValue (<[r := v]> m)
  end.

Definition env_join (a b : EnumTypeEnvironment) : EnumTypeEnvironment :=
  match a, b with
  | EnvBottom, _ => b
  | _, EnvBottom => a
  | EnvValue m1, EnvValue m2 =>
      EnvValue (union_with (λ x y, Some (EnumTypes_join x y)) m1 m2)
  end.

(** ** Rejection state *)

Inductive Reason :=
  | UNKNOWN
  | CAST_WHEN_RETURN
  | CAST_THIS_POINTER
  | CAST_PARAMETER
  | USED_AS_CLASS_OBJECT
  | CAST_CHECK_CAST
  | CAST_ISPUT_OBJECT
  | CAST_APUT_OBJECT
  | MULTI_ENUM_TYPES
  | UNSAFE_INVOCATION_ON_CANDIDATE_ENUM.

#[global] Instance Reason_eq_dec : EqDecision Reason.
Proof. solve_decision. Defined.

(** The shared rejected set, and the [TRACE] lines written by [reject]. *)
Record RejectState := {
  rejected_enums : gset DexType;
  reject_trace : list (DexType * Reason);
}.

Definition no_rejections : RejectState :=
  {| rejected_enums := ∅; reject_trace := [] |}.

Definition rejected_insert (t : DexType) (st : RejectState) : RejectState :=
  {| rejected_enums := {[ t ]} ∪ rejected_enums st;
     reject_trace := reject_trace st |}.

Definition count_unsafe (s : gset DexType) (t : DexType) : bool :=
  bool_decide (t ∈ s).

Definition discard_primitives (types : EnumTypes) : gset DexType :=
  foldl (λ res type, if is_primitive type then res else {[ type ]} ∪ res)
        ∅ (EnumTypes_elements types).

(** ** Enum-method predicates *)

Section Analysis.

(** The global class table of the IR layer ([type_class]). *)
Variable type_class : DexType → option DexClass.

Definition is_static_method_on_enum_class (ref : DexMethodRef) : bool :=
  if negb (is_def ref) || negb (is_static ref) then false
  else
    match type_class (spec_cls (m_spec ref)) with
    | Some container => is_enum container
    | None => false
    end.

Definition is_enum_valueof (method : DexMethodRef) : bool :=
  if negb (is_static_method_on_enum_class method) ||
     negb (bool_decide (spec_name (m_spec method) = "valueOf"))
  then false
  else
    let proto := spec_proto (m_spec method) in
    if negb (bool_decide (spec_cls (m_spec method) = get_rtype proto))
    then false
    else
      match get_args proto with
      | [front] => bool_decide (front = get_string_type)
      | _ => false
      end.

Definition is_enum_values (method : DexMethodRef) : bool :=
  if negb (is_static_method_on_enum_class method) ||
     negb (bool_decide (spec_name (m_spec method) = "values"))
  then false
  else
    let proto := spec_proto (m_spec method) in
    if negb (length (get_args proto) =? 0) then false
    else
      bool_decide (get_array_component_type (get_rtype proto)
                   = Some (spec_cls (m_spec method))).

(** ** EnumUpcastDetector *)

Section EnumUpcastDetector.

Variable m_method : DexMethod.
Variable m_candidate_enums : gset DexType.

Definition ENUM_EQUALS_METHOD : DexMethodSpec :=
  make_method "Ljava/lang/Enum;" "equals" ["Ljava/lang/Object;"] "Z".
Definition ENUM_COMPARETO_METHOD : DexMethodSpec :=
  make_method "Ljava/lang/Enum;" "compareTo" ["Ljava/lang/Enum;"] "I".
Definition ENUM_TOSTRING_METHOD : DexMethodSpec :=
  make_method "Ljava/lang/Enum;" "toString" [] "Ljava/lang/String;".
Definition ENUM_NAME_METHOD : DexMethodSpec :=
  make_method "Ljava/lang/Enum;" "name" [] "Ljava/lang/String;".
Definition ENUM_ORDINAL_METHOD : DexMethodSpec :=
  make_method "Ljava/lang/Enum;" "ordinal" [] "I".
Definition STRINGBUILDER_APPEND_METHOD : DexMethodSpec :=
  make_method "Ljava/lang/StringBuilder;" "append" ["Ljava/lang/Object;"]
              "Ljava/lang/StringBuilder;".
Definition ENUM_TYPE : DexType := get_enum_type.

(** [reject(DexType*, ...)] *)
Definition reject (type : DexType) (reason : Reason) (st : RejectState)
    : RejectState :=
  if count_unsafe m_candidate_enums type then
    {| rejected_enums := {[ type ]} ∪ rejected_enums st;
       reject_trace := reject_trace st ++ [(type, reason)] |}
  else st.

Definition reject_each (types : list DexType) (reason : Reason)
    (st : RejectState) : RejectState :=
  foldl (λ st type, reject type reason st) st types.

(** [reject(std::unordered_set<DexType*>, ...)] *)
Definition reject_set (types : gset DexType) (reason : Reason)
    (st : RejectState) : RejectState :=
  reject_each (elements types) reason st.

(** [reject(EnumTypes, ...)] *)
Definition reject_types (types : EnumTypes) (reason : Reason)
    (st : RejectState) : RejectState :=
  reject_each (EnumTypes_elements types) reason st.

(** One turn of the first loop of [reject_if_inconsistent]; the loop state is
    [need_delete] and the rejected set. *)
Definition reject_other (required_type : DexType) (reason : Reason)
    (acc : bool * RejectState) (possible_type : DexType)
    : bool * RejectState :=
  if negb (is_primitive possible_type) &&
     negb (bool_decide (possible_type = required_type))
  then (true, reject possible_type reason acc.2)
  else acc.

Definition reject_if_inconsistent (types : EnumTypes) (required_type : DexType)
    (reason : Reason) (st : RejectState) : RejectState :=
  if count_unsafe m_candidate_enums required_type then
    let '(need_delete, st') :=
      foldl (reject_other required_type reason) (false, st)
            (EnumTypes_elements types) in
    if need_delete then reject required_type reason st' else st'
  else
    foldl (λ st possible_type, reject possible_type reason st) st
          (EnumTypes_elements types).

Definition process_return_object (insn : IRInstruction)
    (env : EnumTypeEnvironment) (st : RejectState) : option RejectState :=
  let return_type := get_rtype (get_proto m_method) in
  r ← src insn 0;
  if negb (is_value (env_get env r)) then None
  else Some (reject_if_inconsistent (env_get env r) return_type
                                    CAST_WHEN_RETURN st).

Definition process_isput_object (insn : IRInstruction)
    (env : EnumTypeEnvironment) (st : RejectState) : option RejectState :=
  arg_reg ← src insn 0;
  field ← get_field insn;
  Some (reject_if_inconsistent (env_get env arg_reg) (field_type field)
                               CAST_ISPUT_OBJECT st).

(** the loop of [process_aput_object] that collects the acceptable types *)
Definition acceptable_elem_types (array_types : EnumTypes) : gset DexType :=
  foldl (λ acc type,
           match get_array_type type with
           | Some elem => if is_primitive elem then acc else {[ elem ]} ∪ acc
           | None => acc
           end)
        ∅ (EnumTypes_elements array_types).

Definition process_aput_object (insn : IRInstruction)
    (env : EnumTypeEnvironment) (st : RejectState) : option RejectState :=
  r1 ← src insn 1;
  let array_types := env_get env r1 in
  r0 ← src insn 0;
  let elem_types := env_get env r0 in
  let acceptable := acceptable_elem_types array_types in
  if 1 <? size acceptable then
    Some (reject_set acceptable CAST_APUT_OBJECT
            (reject_types elem_types CAST_APUT_OBJECT st))
  else if size acceptable =? 1 then
    acceptable_type ← head (elements acceptable);
    Some (reject_if_inconsistent elem_types acceptable_type
                                 CAST_APUT_OBJECT st)
  else Some st.

Definition process_general_invocation (insn : IRInstruction)
    (env : EnumTypeEnvironment) (st : RejectState) : option RejectState :=
  method ← get_method insn;
  let proto := spec_proto (m_spec method) in
  let container := spec_cls (m_spec method) in
  let st :=
    if negb (bool_decide (opcode insn = OPCODE_INVOKE_STATIC)) &&
       count_unsafe m_candidate_enums container
    then reject container UNSAFE_INVOCATION_ON_CANDIDATE_ENUM st
    else st in
  let args := get_args proto in
  let srcs_size := length (srcs insn) in
  if negb ((length args =? srcs_size) || (length args =? srcs_size - 1))
  then None
  else
    let has_this := srcs_size =? length args + 1 in
    st ← (if has_this
          then r ← src insn 0;
               Some (reject_if_inconsistent (env_get env r) container
                                            CAST_THIS_POINTER st)
          else Some st);
    let arg_id := if has_this then 1 else 0 in
    Some (foldl (λ st (ra : Register * DexType),
                   reject_if_inconsistent (env_get env ra.1) ra.2
                                          CAST_PARAMETER st)
                st (zip (drop arg_id (srcs insn)) args)).

Definition process_direct_invocation (insn : IRInstruction)
    (env : EnumTypeEnvironment) (st : RejectState) : option RejectState :=
  if negb (bool_decide (opcode insn = OPCODE_INVOKE_DIRECT)) then None
  else
    method ← get_method insn;
    let container := spec_cls (m_spec method) in
    if count_unsafe m_candidate_enums container then None
    else process_general_invocation insn env st.

Definition process_static_invocation (insn : IRInstruction)
    (env : EnumTypeEnvironment) (st : RejectState) : option RejectState :=
  if negb (bool_decide (opcode insn = OPCODE_INVOKE_STATIC)) then None
  else
    method ← get_method insn;
    let container := spec_cls (m_spec method) in
    if count_unsafe m_candidate_enums container &&
       (is_enum_values method || is_enum_valueof method)
    then Some st
    else process_general_invocation insn env st.

(** the test under "Reject multiple types in the registers" *)
Definition multiple_types (this_types that_types : gset DexType) : bool :=
  let this_type := head (elements this_types) in
  let that_type := head (elements that_types) in
  (1 <? size this_types) || (1 <? size that_types) ||
  match this_type, that_type with
  | Some a, Some b => negb (bool_decide (a = b))
  | _, _ => false
  end.

Definition process_virtual_invocation (insn : IRInstruction)
    (env : EnumTypeEnvironment) (st : RejectState) : option RejectState :=
  if negb (bool_decide (opcode insn = OPCODE_INVOKE_VIRTUAL)) then None
  else
    method ← get_method insn;
    let container := spec_cls (m_spec method) in
    if bool_decide (container = ENUM_TYPE) ||
       count_unsafe m_candidate_enums container
    then
      r0 ← src insn 0;
      let a_types := env_get env r0 in
      let this_types := discard_primitives a_types in
      if signatures_match method ENUM_EQUALS_METHOD ||
         signatures_match method ENUM_COMPARETO_METHOD
      then
        r1 ← src insn 1;
        let b_types := env_get env r1 in
        let that_types := discard_primitives b_types in
        if multiple_types this_types that_types
        then Some (reject_set that_types CAST_PARAMETER
                     (reject_set this_types CAST_THIS_POINTER st))
        else Some st
      else if signatures_match method ENUM_TOSTRING_METHOD ||
              signatures_match method ENUM_NAME_METHOD ||
              signatures_match method ENUM_ORDINAL_METHOD
      then
        if 1 <? size this_types
        then Some (reject_set this_types MULTI_ENUM_TYPES st)
        else Some st
      else process_general_invocation insn env st
    else if bool_decide (m_spec method = STRINGBUILDER_APPEND_METHOD) then
      r1 ← src insn 1;
      let b_types := env_get env r1 in
      let that_types := discard_primitives b_types in
      if 1 <? size that_types
      then Some (reject_set that_types MULTI_ENUM_TYPES st)
      else Some st
    else process_general_invocation insn env st.

Definition process_instruction (insn : IRInstruction)
    (env : EnumTypeEnvironment) (st : RejectState) : option RejectState :=
  match opcode insn with
  | OPCODE_CHECK_CAST =>
      r ← src insn 0;
      type ← get_type insn;
      Some (reject_if_inconsistent (env_get env r) type CAST_CHECK_CAST st)
  | OPCODE_CONST_CLASS =>
      type ← get_type insn;
      Some (reject type USED_AS_CLASS_OBJECT st)
  | OPCODE_INVOKE_INTERFACE | OPCODE_INVOKE_SUPER =>
      process_general_invocation insn env st
  | OPCODE_INVOKE_DIRECT => process_direct_invocation insn env st
  | OPCODE_INVOKE_STATIC => process_static_invocation insn env st
  | OPCODE_INVOKE_VIRTUAL => process_virtual_invocation insn env st
  | OPCODE_RETURN_OBJECT => process_return_object insn env st
  | OPCODE_APUT_OBJECT => process_aput_object insn env st
  | OPCODE_IGET_OBJECT =>
      field ← get_field insn;
      if count_unsafe m_candidate_enums (field_class field) then None
      else Some st
  | OPCODE_IPUT_OBJECT =>
      field ← get_field insn;
      if count_unsafe m_candidate_enums (field_class field) then None
      else process_isput_object insn env st
  | OPCODE_SPUT_OBJECT => process_isput_object insn env st
  | _ => Some st
  end.

End EnumUpcastDetector.

(** ** EnumFixpointIterator *)

(** sequencing of a loop body that may hit an assertion *)
Fixpoint for_each {A S : Type} (f : A → S → option S) (l : list A) (s : S)
    : option S :=
  match l with
  | [] => Some s
  | x :: l' => s' ← f x s; for_each f l' s'
  end.

Definition analyze_instruction (insn : IRInstruction)
    (env : EnumTypeEnvironment) : option EnumTypeEnvironment :=
  let use_result := is_invoke (opcode insn) || has_move_result_pseudo insn in
  if use_result || (0 <? dests_size insn) then
    let dst := if use_result then RESULT_REGISTER else dest insn in
    match opcode insn with
    | IOPCODE_LOAD_PARAM | IOPCODE_LOAD_PARAM_OBJECT
    | IOPCODE_LOAD_PARAM_WIDE => Some env
    | OPCODE_MOVE_OBJECT =>
        r ← src insn 0;
        Some (env_set dst (env_get env r) env)
    | OPCODE_INVOKE_STATIC | OPCODE_INVOKE_SUPER | OPCODE_INVOKE_DIRECT
    | OPCODE_INVOKE_INTERFACE | OPCODE_INVOKE_VIRTUAL =>
        method ← get_method insn;
        Some (env_set dst (EnumTypes_of (get_rtype (spec_proto (m_spec method))))
                      env)
    | OPCODE_CONST_CLASS =>
        Some (env_set dst (EnumTypes_of get_class_type) env)
    | OPCODE_CHECK_CAST =>
        type ← get_type insn;
        Some (env_set dst (EnumTypes_of type) env)
    | IOPCODE_MOVE_RESULT_PSEUDO_OBJECT | OPCODE_MOVE_RESULT_OBJECT =>
        Some (env_set dst (env_get env RESULT_REGISTER) env)
    | OPCODE_SGET_OBJECT | OPCODE_IGET_OBJECT =>
        field ← get_field insn;
        let type := field_type field in
        if negb (is_primitive type)
        then Some (env_set dst (EnumTypes_of type) env)
        else Some env
    | OPCODE_AGET_OBJECT =>
        r ← src insn 0;
        let array_types := env_get env r in
        let types :=
          foldl (λ types array_type,
                   match get_array_type array_type with
                   | Some type =>
                       if is_primitive type then types
                       else EnumTypes_add type types
                   | None => types
                   end)
                EnumTypes_default (EnumTypes_elements array_types) in
        Some (env_set dst types env)
    | _ =>
        let env :=
          match get_type insn with
          | Some type => env_set dst (EnumTypes_of type) env
          | None => env_set dst EnumTypes_default env
          end in
        if (0 <? dests_size insn) && dest_is_wide insn
        then Some (env_set (next_register dst) EnumTypes_default env)
        else Some env
    end
  else Some env.

Definition gen_env (method : DexMethod) : option EnumTypeEnvironment :=
  code ← get_code method;
  let params := get_param_instructions code in
  let args := get_args (get_proto method) in
  let has_this_pointer := negb (is_static (m_ref method)) in
  let load_param_inst_size := length params in
  if negb (load_param_inst_size
           =? length args + (if has_this_pointer then 1 else 0))
  then None
  else
    let env := EnvValue ∅ in
    let '(env, it) :=
      if has_this_pointer then
        match params with
        | insn :: rest =>
            (env_set (dest insn) (EnumTypes_of (get_class method)) env, rest)
        | [] => (env, [])
        end
      else (env, params) in
    Some (foldl (λ env (pt : IRInstruction * DexType),
                   env_set (dest pt.1) (EnumTypes_of pt.2) env)
                env (zip it args)).

(** [EnumUpcastDetector::run]; [get_entry_state_at] is the engine after its
    fixpoint run. *)
Definition run_block (method : DexMethod) (candidate_enums : gset DexType)
    (get_entry_state_at : Block → EnumTypeEnvironment) (block : Block)
    (st : RejectState) : option RejectState :=
  let env := get_entry_state_at block in
  if env_is_bottom env then Some st
  else
    snd <$>
      for_each (λ insn (acc : EnumTypeEnvironment * RejectState),
                  env ← analyze_instruction insn acc.1;
                  st ← process_instruction method candidate_enums insn env acc.2;
                  Some (env, st))
               (block_insns block) (env, st).

Definition run (method : DexMethod) (candidate_enums : gset DexType)
    (get_entry_state_at : Block → EnumTypeEnvironment)
    (cfg : ControlFlowGraph) (st : RejectState) : option RejectState :=
  for_each (run_block method candidate_enums get_entry_state_at)
           (blocks cfg) st.

(** ** The driver *)

(** The fixpoint engine of the analysis library: [engine.run(env)] on a CFG,
    read back through [get_entry_state_at]; [None] when it hits an assertion. *)
Variable engine_run :
  ControlFlowGraph → EnumTypeEnvironment →
  option (Block → EnumTypeEnvironment).

Definition count (s : gset DexType) (t : DexType) : bool := bool_decide (t ∈ s).

(** [if (is_array(t)) t = get_array_type(t);] *)
Definition element_type (t : DexType) : option DexType :=
  if is_array t then get_array_type t else Some t.

(** a candidate that has not been rejected yet *)
Definition live_candidate (candidate_enums rejected : gset DexType)
    (t : option DexType) : bool :=
  match t with
  | Some t => count_unsafe candidate_enums t && negb (count rejected t)
  | None => false
  end.

Definition need_analyze (method : DexMethod)
    (candidate_enums rejected : gset DexType) : bool :=
  match get_code method with
  | None => false
  | Some _ =>
      let types :=
        DexProto_gather_types (get_proto method) ++
        DexMethod_gather_types method in
      existsb (λ t, live_candidate candidate_enums rejected (element_type t))
              types
  end.

Definition is_generated_enum_method (candidate_enums rejected : gset DexType)
    (method : DexMethod) : bool :=
  count_unsafe candidate_enums (get_class method) &&
  negb (count rejected (get_class method)) &&
  (is_clinit (m_ref method) || is_init (m_ref method) ||
   is_enum_values (m_ref method) || is_enum_valueof (m_ref method)).

(** the body of the walk over fields *)
Definition field_prefilter (candidate_enums : gset DexType) (field : DexField)
    (st : RejectState) : RejectState :=
  if count_unsafe candidate_enums (field_class (f_ref field)) then st
  else
    match element_type (field_type (f_ref field)) with
    | Some type =>
        if count_unsafe candidate_enums type &&
           negb (count (rejected_enums st) type)
        then if negb (can_rename (f_rstate field))
             then rejected_insert type st else st
        else st
    | None => st
    end.

(** the block of the walk over methods that looks at the proto *)
Definition method_prefilter (candidate_enums : gset DexType)
    (method : DexMethod) (st : RejectState) : RejectState :=
  foldl (λ st type,
           match element_type type with
           | Some type =>
               if count_unsafe candidate_enums type &&
                  negb (count (rejected_enums st) type)
               then if negb (can_rename (m_rstate method))
                    then rejected_insert type st else st
               else st
           | None => st
           end)
        st (DexProto_gather_types (get_proto method)).

(** the body of the walk over methods *)
Definition analyze_method (candidate_enums : gset DexType)
    (method : DexMethod) (st : RejectState) : option RejectState :=
  if is_generated_enum_method candidate_enums (rejected_enums st) method
  then Some st
  else
    let st := method_prefilter candidate_enums method st in
    if negb (need_analyze method candidate_enums (rejected_enums st))
    then Some st
    else
      env ← gen_env method;
      code ← get_code method;
      let cfg := build_cfg code in
      engine ← engine_run cfg env;
      run method candidate_enums engine cfg st.

(** The two walks visit the members of the classes from several threads; the
    embedding takes the schedule that follows the list of classes, and inside
    a class the instance fields before the static ones and the direct methods
    before the virtual ones. *)
Definition walk_fields (classes : list DexClass) : list DexField :=
  flat_map (λ cls, get_ifields cls ++ get_sfields cls) classes.

Definition walk_methods (classes : list DexClass) : list DexMethod :=
  flat_map (λ cls, get_dmethods cls ++ get_vmethods cls) classes.

(** [reject_unsafe_enums] up to, and without, the final loop *)
Definition collect_rejections (classes : list DexClass)
    (candidate_enums : gset DexType) : option RejectState :=
  let st := foldl (λ st field, field_prefilter candidate_enums field st)
                  no_rejections (walk_fields classes) in
  for_each (analyze_method candidate_enums) (walk_methods classes) st.

(** the final loop: [candidate_enums->erase(type)] for each rejected type *)
Definition erase_rejected (rejected candidate_enums : gset DexType)
    : gset DexType :=
  foldl (λ candidates type, candidates ∖ {[ type ]}) candidate_enums
        (elements rejected).

(** The result is the candidate set after the call; [None] is an abort. *)
Definition reject_unsafe_enums (classes : list DexClass)
    (candidate_enums : gset DexType) : option (gset DexType) :=
  st ← collect_rejections classes candidate_enums;
  Some (erase_rejected (rejected_enums st) candidate_enums).

End Analysis.

(** ** The fixpoint engine *)

#[global] Instance EnumTypes_eq_dec : EqDecision EnumTypes.
Proof. solve_decision. Defined.
#[global] Instance EnumTypeEnvironment_eq_dec : EqDecision EnumTypeEnvironment.
Proof. solve_decision. Defined.

(** Modelled from the spec: the fixpoint engine (section 4.4) is part of the
    analysis library and not among the sources. The entry block is seeded with
    the initial environment and every other block with bottom; the exit
    environment of a block is its entry environment after the transfer of its
    instructions in order, and it is joined into the entry state of each
    successor; this is repeated until no entry state changes, [fuel] rounds at
    most. The driver does not depend on this definition: it takes the engine
    as a parameter. *)
Definition analyze_node (block : Block) (env : EnumTypeEnvironment)
    : option EnumTypeEnvironment :=
  for_each analyze_instruction (block_insns block) env.

Definition state_at (states : gmap nat EnumTypeEnvironment) (id : nat)
    : EnumTypeEnvironment :=
  default EnvBottom (states !! id).

Definition propagate (cfg : ControlFlowGraph) (env0 : EnumTypeEnvironment)
    (states : gmap nat EnumTypeEnvironment)
    : option (gmap nat EnumTypeEnvironment) :=
  for_each
    (λ block acc,
       exit_env ← analyze_node block (state_at states (block_id block));
       Some (foldl (λ acc succ,
                      <[succ := env_join (state_at acc succ) exit_env]> acc)
                   acc (block_succs block)))
    (blocks cfg) {[ entry_block cfg := env0 ]}.

Fixpoint iterate (fuel : nat) (cfg : ControlFlowGraph)
    (env0 : EnumTypeEnvironment) (states : gmap nat EnumTypeEnvironment)
    : option (gmap nat EnumTypeEnvironment) :=
  match fuel with
  | 0 => Some states
  | S fuel' =>
      states' ← propagate cfg env0 states;
      if decide (states' = states) then Some states
      else iterate fuel' cfg env0 states'
  end.

Definition fixpoint_engine (fuel : nat) (cfg : ControlFlowGraph)
    (env0 : EnumTypeEnvironment) : option (Block → EnumTypeEnvironment) :=
  states ← iterate fuel cfg env0 {[ entry_block cfg := env0 ]};
  Some (λ block, state_at states (block_id block)).

(** ** Sample programs *)

Module Samples.

Definition renameable : ReferencedState :=
  {| m_by_string := false; m_by_resources := false; m_keep := false;
     m_set_allowshrinking := false; m_unset_allowshrinking := false;
     m_set_allowobfuscation := false; m_unset_allowobfuscation := false;
     m_keep_name := false |}.

(** matched by a keep rule: [set_root] *)
Definition kept : ReferencedState :=
  {| m_by_string := false; m_by_resources := false; m_keep := true;
     m_set_allowshrinking := false; m_unset_allowshrinking := true;
     m_set_allowobfuscation := false; m_unset_allowobfuscation := true;
     m_keep_name := false |}.

Definition candidates : gset DexType := {[ "LE;"; "LF;" ]}.

Definition insn (op : IROpcode) (srcs : list Register) : IRInstruction :=
  {| opcode := op; srcs := srcs; dests_size := 0; dest := 0%N;
     dest_is_wide := false; has_move_result_pseudo := false;
     get_type := None; get_field := None; get_method := None |}.

Definition method_ref (c : DexType) (n : string) (args : list DexType)
    (r : DexType) (static : bool) : DexMethodRef :=
  {| m_spec := make_method c n args r; is_def := true; is_static := static |}.

(** [static void A.m(E)], kept, without code *)
Definition A_m : DexMethod :=
  {| m_ref := method_ref "LA;" "m" ["LE;"] "V" true;
     m_rstate := kept; get_code := None |}.

(** the constructor [E(String, int, F)] of the enum [E], kept *)
Definition E_init : DexMethod :=
  {| m_ref := method_ref "LE;" "<init>" ["Ljava/lang/String;"; "I"; "LF;"]
                         "V" false;
     m_rstate := kept; get_code := None |}.

Definition class_A : DexClass :=
  {| get_type_of_class := "LA;"; is_enum := false;
     get_ifields := []; get_sfields := [];
     get_dmethods := [A_m]; get_vmethods := [] |}.

Definition class_E : DexClass :=
  {| get_type_of_class := "LE;"; is_enum := true;
     get_ifields := []; get_sfields := [];
     get_dmethods := [E_init]; get_vmethods := [] |}.

(** a class with a kept field of type [F[]] *)
Definition class_B : DexClass :=
  {| get_type_of_class := "LB;"; is_enum := false;
     get_ifields :=
       [ {| f_ref := {| field_class := "LB;"; field_name := "fs";
                        field_type := "[LF;" |};
            f_rstate := kept |} ];
     get_sfields := []; get_dmethods := []; get_vmethods := [] |}.

Definition type_class (t : DexType) : option DexClass :=
  if bool_decide (t = "LA;") then Some class_A
  else if bool_decide (t = "LE;") then Some class_E
  else if bool_decide (t = "LB;") then Some class_B
  else None.

Definition engine := fixpoint_engine 8.

(** [static boolean A.isE(Object o) { return o instanceof E; }], kept *)
Definition load_param_object_v0 : IRInstruction :=
  {| opcode := IOPCODE_LOAD_PARAM_OBJECT; srcs := []; dests_size := 1;
     dest := 0%N; dest_is_wide := false; has_move_result_pseudo := false;
     get_type := None; get_field := None; get_method := None |}.

Definition instance_of_E : IRInstruction :=
  {| opcode := OPCODE_OTHER; srcs := [0%N]; dests_size := 0; dest := 0%N;
     dest_is_wide := false; has_move_result_pseudo := true;
     get_type := Some "LE;"; get_field := None; get_method := None |}.

Definition move_result_pseudo_v1 : IRInstruction :=
  {| opcode := OPCODE_OTHER; srcs := []; dests_size := 1; dest := 1%N;
     dest_is_wide := false; has_move_result_pseudo := false;
     get_type := None; get_field := None; get_method := None |}.

Definition return_v1 : IRInstruction := insn OPCODE_OTHER [1%N].

Definition A_isE_code : IRCode :=
  {| get_param_instructions := [load_param_object_v0];
     build_cfg :=
       {| blocks :=
            [ {| block_id := 0;
                 block_insns := [load_param_object_v0; instance_of_E;
                                 move_result_pseudo_v1; return_v1];
                 block_succs := [] |} ];
          entry_block := 0 |} |}.

Definition A_isE : DexMethod :=
  {| m_ref := method_ref "LA;" "isE" ["Ljava/lang/Object;"] "Z" true;
     m_rstate := kept; get_code := Some A_isE_code |}.

Definition class_A' : DexClass :=
  {| get_type_of_class := "LA;"; is_enum := false;
     get_ifields := []; get_sfields := [];
     get_dmethods := [A_isE]; get_vmethods := [] |}.

(** the same method with its load-param missing *)
Definition A_isE_broken : DexMethod :=
  {| m_ref := method_ref "LA;" "isE" ["Ljava/lang/Object;"] "Z" true;
     m_rstate := kept;
     get_code :=
       Some {| get_param_instructions := [];
               build_cfg := build_cfg A_isE_code |} |}.

Definition class_A_broken : DexClass :=
  {| get_type_of_class := "LA;"; is_enum := false;
     get_ifields := []; get_sfields := [];
     get_dmethods := [A_isE_broken]; get_vmethods := [] |}.

(** registers: [v0] holds an [E], [v1] an [F], [v2] an [E[]] or an [F[]] *)
Definition env_EF : EnumTypeEnvironment :=
  EnvValue {[ 0%N := EnumTypes_of "LE;"; 1%N := EnumTypes_of "LF;";
              2%N := Value {[ "[LE;"; "[LF;" ]} ]}.

(** [invoke-virtual {v0, v1}, LE;.equals:(Ljava/lang/Object;)Z] *)
Definition invoke_equals : IRInstruction :=
  {| opcode := OPCODE_INVOKE_VIRTUAL; srcs := [0%N; 1%N]; dests_size := 0;
     dest := 0%N; dest_is_wide := false; has_move_result_pseudo := false;
     get_type := None; get_field := None;
     get_method :=
       Some (method_ref "LE;" "equals" ["Ljava/lang/Object;"] "Z" false) |}.

(** [const-class LE;] *)
Definition const_class_E : IRInstruction :=
  {| opcode := OPCODE_CONST_CLASS; srcs := []; dests_size := 0; dest := 0%N;
     dest_is_wide := false; has_move_result_pseudo := true;
     get_type := Some "LE;"; get_field := None; get_method := None |}.

(** [aput-object v0, v2, v3] *)
Definition aput_object_v0_v2 : IRInstruction :=
  insn OPCODE_APUT_OBJECT [0%N; 2%N; 3%N].

Definition A_o : DexFieldRef :=
  {| field_class := "LA;"; field_name := "o";
     field_type := "Ljava/lang/Object;" |}.

(** [iput-object v0, v4, LA;.o:Ljava/lang/Object;] *)
Definition iput_object_A_o : IRInstruction :=
  {| opcode := OPCODE_IPUT_OBJECT; srcs := [0%N; 4%N]; dests_size := 0;
     dest := 0%N; dest_is_wide := false; has_move_result_pseudo := false;
     get_type := None; get_field := Some A_o; get_method := None |}.

(** [void F.foo() { Foo.bar(this); ... E.A ... }] in the enum [F]: the
    method names the candidate [E] and passes [this] as an [Object] *)
Definition load_param_this : IRInstruction := load_param_object_v0.

Definition sget_object_E_A : IRInstruction :=
  {| opcode := OPCODE_SGET_OBJECT; srcs := []; dests_size := 0; dest := 0%N;
     dest_is_wide := false; has_move_result_pseudo := true;
     get_type := None;
     get_field := Some {| field_class := "LE;"; field_name := "A";
                          field_type := "LE;" |};
     get_method := None |}.

Definition invoke_static_bar_v0 : IRInstruction :=
  {| opcode := OPCODE_INVOKE_STATIC; srcs := [0%N]; dests_size := 0;
     dest := 0%N; dest_is_wide := false; has_move_result_pseudo := false;
     get_type := None; get_field := None;
     get_method :=
       Some (method_ref "LFoo;" "bar" ["Ljava/lang/Object;"] "V" true) |}.

Definition F_foo : DexMethod :=
  {| m_ref := method_ref "LF;" "foo" [] "V" false;
     m_rstate := renameable;
     get_code :=
       Some {| get_param_instructions := [load_param_this];
               build_cfg :=
                 {| blocks :=
                      [ {| block_id := 0;
                           block_insns :=
                             [load_param_this; sget_object_E_A;
                              invoke_static_bar_v0; insn OPCODE_OTHER []];
                           block_succs := [] |} ];
                    entry_block := 0 |} |} |}.

Definition class_F : DexClass :=
  {| get_type_of_class := "LF;"; is_enum := true;
     get_ifields := []; get_sfields := [];
     get_dmethods := []; get_vmethods := [F_foo] |}.

(** [return-object v0] *)
Definition return_object_v0 : IRInstruction := insn OPCODE_RETURN_OBJECT [0%N].

(** [check-cast v0, Ljava/lang/Object;] *)
Definition check_cast_Object : IRInstruction :=
  {| opcode := OPCODE_CHECK_CAST; srcs := [0%N]; dests_size := 0; dest := 0%N;
     dest_is_wide := false; has_move_result_pseudo := true;
     get_type := Some "Ljava/lang/Object;"; get_field := None;
     get_method := None |}.

(** [move-result-pseudo-object v6] *)
Definition move_result_pseudo_object_v6 : IRInstruction :=
  {| opcode := IOPCODE_MOVE_RESULT_PSEUDO_OBJECT; srcs := []; dests_size := 1;
     dest := 6%N; dest_is_wide := false; has_move_result_pseudo := false;
     get_type := None; get_field := None; get_method := None |}.

(** [move-object v5, v0] *)
Definition move_object_v5_v0 : IRInstruction :=
  {| opcode := OPCODE_MOVE_OBJECT; srcs := [0%N]; dests_size := 1;
     dest := 5%N; dest_is_wide := false; has_move_result_pseudo := false;
     get_type := None; get_field := None; get_method := None |}.

(** [aget-object v2, v3] *)
Definition aget_object_v2 : IRInstruction :=
  {| opcode := OPCODE_AGET_OBJECT; srcs := [2%N; 3%N]; dests_size := 0;
     dest := 0%N; dest_is_wide := false; has_move_result_pseudo := true;
     get_type := None; get_field := None; get_method := None |}.

Definition I_f : DexMethodRef := method_ref "LI;" "f" ["LF;"] "V" false.

(** [invoke-interface {v0, v1}, LI;.f:(LF;)V] *)
Definition invoke_interface_f : IRInstruction :=
  {| opcode := OPCODE_INVOKE_INTERFACE; srcs := [0%N; 1%N]; dests_size := 0;
     dest := 0%N; dest_is_wide := false; has_move_result_pseudo := false;
     get_type := None; get_field := None; get_method := Some I_f |}.

Definition E_name : DexMethodRef :=
  method_ref "LE;" "name" [] "Ljava/lang/String;" false.

(** [invoke-virtual {v0}, LE;.name:()Ljava/lang/String;] *)
Definition invoke_name : IRInstruction :=
  {| opcode := OPCODE_INVOKE_VIRTUAL; srcs := [0%N]; dests_size := 0;
     dest := 0%N; dest_is_wide := false; has_move_result_pseudo := false;
     get_type := None; get_field := None; get_method := Some E_name |}.

Definition E_values : DexMethodRef := method_ref "LE;" "values" [] "[LE;" true.

(** [invoke-static {}, LE;.values:()[LE;] *)
Definition invoke_values : IRInstruction :=
  {| opcode := OPCODE_INVOKE_STATIC; srcs := []; dests_size := 0;
     dest := 0%N; dest_is_wide := false; has_move_result_pseudo := false;
     get_type := None; get_field := None; get_method := Some E_values |}.

(** [static void A.lit() { ... E.class ... }] *)
Definition A_lit_block : Block :=
  {| block_id := 0;
     block_insns := [const_class_E; move_result_pseudo_object_v6;
                     insn OPCODE_OTHER []];
     block_succs := [] |}.

Definition A_lit_code : IRCode :=
  {| get_param_instructions := [];
     build_cfg := {| blocks := [A_lit_block]; entry_block := 0 |} |}.

Definition A_lit : DexMethod :=
  {| m_ref := method_ref "LA;" "lit" [] "V" true;
     m_rstate := renameable; get_code := Some A_lit_code |}.

Definition class_A_lit : DexClass :=
  {| get_type_of_class := "LA;"; is_enum := false;
     get_ifields := []; get_sfields := [];
     get_dmethods := [A_lit]; get_vmethods := [] |}.

(** [static boolean H.isE(Object o) { return o instanceof E; }], kept *)
Definition H_isE : DexMethod :=
  {| m_ref := method_ref "LH;" "isE" ["Ljava/lang/Object;"] "Z" true;
     m_rstate := kept; get_code := Some A_isE_code |}.

Definition class_H : DexClass :=
  {| get_type_of_class := "LH;"; is_enum := false;
     get_ifields := []; get_sfields := [];
     get_dmethods := [H_isE]; get_vmethods := [] |}.

(** the constructor [E(String name, int ordinal, F f) { super(name, ordinal); }]
    of the enum [E], renameable *)
Definition load_param_to (op : IROpcode) (r : Register) : IRInstruction :=
  {| opcode := op; srcs := []; dests_size := 1; dest := r;
     dest_is_wide := false; has_move_result_pseudo := false;
     get_type := None; get_field := None; get_method := None |}.

Definition Enum_init : DexMethodRef :=
  method_ref "Ljava/lang/Enum;" "<init>" ["Ljava/lang/String;"; "I"] "V" false.

(** [invoke-direct {v0, v1, v2}, Ljava/lang/Enum;.<init>:(Ljava/lang/String;I)V] *)
Definition invoke_direct_Enum_init : IRInstruction :=
  {| opcode := OPCODE_INVOKE_DIRECT; srcs := [0%N; 1%N; 2%N];
     dests_size := 0; dest := 0%N; dest_is_wide := false;
     has_move_result_pseudo := false;
     get_type := None; get_field := None; get_method := Some Enum_init |}.

Definition E_init_params : list IRInstruction :=
  [load_param_to IOPCODE_LOAD_PARAM_OBJECT 0%N;
   load_param_to IOPCODE_LOAD_PARAM_OBJECT 1%N;
   load_param_to IOPCODE_LOAD_PARAM 2%N;
   load_param_to IOPCODE_LOAD_PARAM_OBJECT 3%N].

Definition E_init_code : IRCode :=
  {| get_param_instructions := E_init_params;
     build_cfg :=
       {| blocks :=
            [ {| block_id := 0;
                 block_insns :=
                   E_init_params ++
                   [invoke_direct_Enum_init; insn OPCODE_OTHER []];
                 block_succs := [] |} ];
          entry_block := 0 |} |}.

Definition E_init' : DexMethod :=
  {| m_ref := method_ref "LE;" "<init>" ["Ljava/lang/String;"; "I"; "LF;"]
                         "V" false;
     m_rstate := renameable; get_code := Some E_init_code |}.

Definition class_E' : DexClass :=
  {| get_type_of_class := "LE;"; is_enum := true;
     get_ifields := []; get_sfields := [];
     get_dmethods := [E_init']; get_vmethods := [] |}.

End Samples.

(** * Vocabulary of the statements *)

(** the types that make a register inconsistent with [required] *)
Definition is_other (required : DexType) (t : DexType) : Prop :=
  is_primitive t = false ∧ t ≠ required.

#[global] Instance is_other_dec required t : Decision (is_other required t).
Proof. unfold is_other. apply _. Defined.

(** what reject-if-inconsistent has to insert: [x] is an insertion for the
    register value [V] and the required type [R] *)
Definition inconsistent_insertion (C : gset DexType) (V : EnumTypes)
    (R x : DexType) : Prop :=
  x ∈ C ∧
  if decide (R ∈ C) then
    (x ∈ EnumTypes_elements V ∧ is_primitive x = false ∧ x ≠ R) ∨
    (x = R ∧ ∃ t, t ∈ EnumTypes_elements V ∧ is_primitive t = false ∧ t ≠ R)
  else x ∈ EnumTypes_elements V.

(** [this_types] and [that_types] do not name one common type *)
Definition types_disagree (this_types that_types : gset DexType) : Prop :=
  1 < size this_types ∨ 1 < size that_types ∨
  ∃ a b, this_types = {[ a ]} ∧ that_types = {[ b ]} ∧ a ≠ b.

(** [st'] is [st] after some insertions of candidates *)
Definition grows_within (C : gset DexType) (st st' : RejectState) : Prop :=
  rejected_enums st ⊆ rejected_enums st' ∧
  rejected_enums st' ⊆ rejected_enums st ∪ C.

(** [x] is rejected on behalf of the field [f] *)
Definition field_rejects (C : gset DexType) (f : DexField) (x : DexType)
    : Prop :=
  (field_class (f_ref f) ∉ C) ∧
  element_type (field_type (f_ref f)) = Some x ∧
  x ∈ C ∧ can_rename (f_rstate f) = false.

(** [x] is rejected on behalf of the proto of the method [m] *)
Definition proto_rejects (C : gset DexType) (m : DexMethod) (x : DexType)
    : Prop :=
  can_rename (m_rstate m) = false ∧ x ∈ C ∧
  ∃ t, t ∈ DexProto_gather_types (get_proto m) ∧ element_type t = Some x.

(** The method is not one that the driver treats differently once more types
    are rejected: it is no generated method of a candidate enum, and it names
    no candidate or has no code. *)
Definition order_insensitive (type_class : DexType → option DexClass)
    (C : gset DexType) (m : DexMethod) : Prop :=
  count_unsafe C (get_class m) &&
    (is_clinit (m_ref m) || is_init (m_ref m) ||
     is_enum_values type_class (m_ref m) ||
     is_enum_valueof type_class (m_ref m)) = false ∧
  need_analyze m C ∅ = false.

(** The engine and the detector on one method: the end of the body of the
    walk over the methods, behind the test of [need_analyze]. *)
Definition detect (type_class : DexType → option DexClass)
    (engine_run : ControlFlowGraph → EnumTypeEnvironment →
                  option (Block → EnumTypeEnvironment))
    (C : gset DexType) (m : DexMethod) (st : RejectState)
    : option RejectState :=
  env ← gen_env m;
  code ← get_code m;
  let cfg := build_cfg code in
  engine ← engine_run cfg env;
  run type_class m C engine cfg st.

(** [f] inserts a set of types that does not depend on the state it is run
    in *)
Definition adds (f : RejectState → RejectState) : Prop :=
  ∃ D : gset DexType, ∀ st, rejected_enums (f st) = rejected_enums st ∪ D.

(** [F] aborts in every state or in none, and what it inserts does not depend
    on the state it is run in *)
Definition oblivious (F : RejectState → option RejectState) : Prop :=
  (∀ st, F st = None) ∨ ∃ f, adds f ∧ ∀ st, F st = Some (f st).

(** the types that [need_analyze] looks for in a method *)
Definition named_types (m : DexMethod) : gset DexType :=
  list_to_set
    (omap element_type
          (DexProto_gather_types (get_proto m) ++ DexMethod_gather_types m)).

(** what the pre-filter rejects on behalf of the proto of [m] *)
Definition proto_rejections (C : gset DexType) (m : DexMethod)
    : gset DexType :=
  rejected_enums (method_prefilter C m no_rejections).

(** what the walk over the fields rejects *)
Definition field_rejections (C : gset DexType) (classes : list DexClass)
    : gset DexType :=
  rejected_enums
    (foldl (λ st field, field_prefilter C field st) no_rejections
           (walk_fields classes)).

(** The state in which a method is taken on its own: nothing is rejected;
    for a generated method of a candidate enum, which is passed over until
    its enum is rejected, the enum is. *)
Definition alone_state (type_class : DexType → option DexClass)
    (C : gset DexType) (m : DexMethod) : RejectState :=
  if is_generated_enum_method type_class C ∅ m
  then rejected_insert (get_class m) no_rejections
  else no_rejections.

(** the body of the walk over the methods, on [m] taken on its own *)
Definition alone (type_class : DexType → option DexClass)
    (engine_run : ControlFlowGraph → EnumTypeEnvironment →
                  option (Block → EnumTypeEnvironment))
    (C : gset DexType) (m : DexMethod) : option RejectState :=
  analyze_method type_class engine_run C m (alone_state type_class C m).

(** what [m] rejects on its own; when the detector aborts, the pre-filter
    has run *)
Definition rejections_alone (type_class : DexType → option DexClass)
    (engine_run : ControlFlowGraph → EnumTypeEnvironment →
                  option (Block → EnumTypeEnvironment))
    (C : gset DexType) (m : DexMethod) : gset DexType :=
  match alone type_class engine_run C m with
  | Some st => rejected_enums st
  | None => proto_rejections C m
  end.

(** On its own, [m] rejects only types that it names, in the sense of
    [need_analyze]; a generated method of a candidate enum rejects only its
    enum. *)
Definition rejects_only_named (type_class : DexType → option DexClass)
    (engine_run : ControlFlowGraph → EnumTypeEnvironment →
                  option (Block → EnumTypeEnvironment))
    (C : gset DexType) (m : DexMethod) : Prop :=
  rejections_alone type_class engine_run C m
  ⊆ (if is_generated_enum_method type_class C ∅ m
     then {[ get_class m ]} else named_types m).

#[global] Instance rejects_only_named_dec type_class engine_run C m :
  Decision (rejects_only_named type_class engine_run C m).
Proof. unfold rejects_only_named. apply _. Defined.

(** what [m] adds to the rejected set of a pass *)
Definition method_rejections (type_class : DexType → option DexClass)
    (engine_run : ControlFlowGraph → EnumTypeEnvironment →
                  option (Block → EnumTypeEnvironment))
    (C : gset DexType) (m : DexMethod) : gset DexType :=
  if is_generated_enum_method type_class C ∅ m then ∅
  else rejections_alone type_class engine_run C m.

(** every logged rejection is a rejection of a candidate *)
Definition trace_sound (C : gset DexType) (st : RejectState) : Prop :=
  ∀ t r, (t, r) ∈ reject_trace st → t ∈ rejected_enums st ∧ t ∈ C.

(** * Properties *)

(** ** The rejection primitives *)

Section RejectFacts.

Variable C : gset DexType.

Lemma reject_rejected t reason st :
  rejected_enums (reject C t reason st)
  = if decide (t ∈ C) then {[ t ]} ∪ rejected_enums st else rejected_enums st.
Proof.
  unfold reject, count_unsafe. case_bool_decide; case_decide; done.
Qed.

Lemma reject_trace_eq t reason st :
  reject_trace (reject C t reason st)
  = reject_trace st ++ (if decide (t ∈ C) then [(t, reason)] else []).
Proof.
  unfold reject, count_unsafe.
  case_bool_decide; case_decide; try done. by rewrite app_nil_r.
Qed.

Lemma reject_each_rejected ts reason st :
  rejected_enums (reject_each C ts reason st)
  = rejected_enums st ∪ (list_to_set ts ∩ C).
Proof.
  unfold reject_each. revert st.
  induction ts as [|t ts IH]; intros st; simpl.
  - set_solver.
  - rewrite IH, reject_rejected. case_decide; set_solver.
Qed.

Lemma reject_each_trace ts reason st :
  reject_trace (reject_each C ts reason st)
  = reject_trace st ++ ((λ t, (t, reason)) <$> filter (λ t, t ∈ C) ts).
Proof.
  unfold reject_each. revert st.
  induction ts as [|t ts IH]; intros st; simpl.
  - by rewrite app_nil_r.
  - rewrite IH, reject_trace_eq, filter_cons.
    case_decide; [|by rewrite app_nil_r].
    by rewrite fmap_cons, <- app_assoc.
Qed.

Lemma reject_each_new_trace (ts : list DexType) (reason : Reason) x r :
  (x, r) ∈ (λ t, (t, reason)) <$> filter (λ t, t ∈ C) ts
  ↔ r = reason ∧ x ∈ C ∧ x ∈ ts.
Proof.
  rewrite list_elem_of_fmap. setoid_rewrite list_elem_of_filter.
  split.
  - intros (t & [= -> ->] & ? & ?). done.
  - intros (-> & ? & ?). by exists x.
Qed.

Lemma reject_other_loop required reason ts b st :
  foldl (reject_other C required reason) (b, st) ts
  = (b || bool_decide (filter (is_other required) ts ≠ []),
     reject_each C (filter (is_other required) ts) reason st).
Proof.
  revert b st. induction ts as [|t ts IH]; intros b st; simpl.
  - by rewrite orb_false_r.
  - rewrite filter_cons. unfold reject_other at 2. simpl.
    destruct (decide (is_other required t)) as [[Hp Hne]|Hn].
    + rewrite Hp. simpl. rewrite bool_decide_eq_false_2 by done. simpl.
      rewrite IH. simpl. f_equal. by destruct b.
    + assert (negb (is_primitive t) && negb (bool_decide (t = required))
              = false) as ->.
      { unfold is_other in Hn. destruct (is_primitive t); [done|]. simpl.
        destruct (decide (t = required)) as [->|Hne];
          [by rewrite bool_decide_eq_true_2 | exfalso; by apply Hn]. }
      by rewrite IH.
Qed.

Lemma reject_if_inconsistent_eq V required reason st :
  reject_if_inconsistent C V required reason st
  = if decide (required ∈ C) then
      let others := filter (is_other required) (EnumTypes_elements V) in
      let st' := reject_each C others reason st in
      if decide (others = []) then st' else reject C required reason st'
    else reject_each C (EnumTypes_elements V) reason st.
Proof.
  unfold reject_if_inconsistent, count_unsafe.
  case_bool_decide; case_decide; try done.
  rewrite reject_other_loop. simpl.
  case_bool_decide; case_decide; done.
Qed.

Lemma reject_set_rejected (X : gset DexType) reason st :
  rejected_enums (reject_set C X reason st) = rejected_enums st ∪ (X ∩ C).
Proof.
  unfold reject_set. rewrite reject_each_rejected.
  by rewrite list_to_set_elements_L.
Qed.

Lemma reject_set_trace (X : gset DexType) reason st :
  ∃ new,
    reject_trace (reject_set C X reason st) = reject_trace st ++ new ∧
    ∀ x r, (x, r) ∈ new ↔ r = reason ∧ x ∈ X ∩ C.
Proof.
  unfold reject_set. eexists. rewrite reject_each_trace. split; [done|].
  intros x r. rewrite reject_each_new_trace, elem_of_intersection,
    elem_of_elements. naive_solver.
Qed.

Lemma reject_types_rejected V reason st :
  rejected_enums (reject_types C V reason st)
  = rejected_enums st ∪ (list_to_set (EnumTypes_elements V) ∩ C).
Proof. unfold reject_types. apply reject_each_rejected. Qed.

Lemma filter_is_other_nonempty R (ts : list DexType) :
  filter (is_other R) ts ≠ [] ↔ ∃ t, t ∈ ts ∧ is_primitive t = false ∧ t ≠ R.
Proof.
  split.
  - destruct (filter (is_other R) ts) as [|t l] eqn:E; [done|]. intros _.
    assert (t ∈ filter (is_other R) ts) as Ht by (rewrite E; left).
    apply list_elem_of_filter in Ht as [[? ?] ?]. by exists t.
  - intros (t & Ht & Hp & Hne) E.
    assert (t ∈ filter (is_other R) ts) as Hin
      by (by apply list_elem_of_filter).
    rewrite E in Hin. by apply elem_of_nil in Hin.
Qed.

Lemma reject_if_inconsistent_rejected V R reason st x :
  x ∈ rejected_enums (reject_if_inconsistent C V R reason st)
  ↔ x ∈ rejected_enums st ∨ inconsistent_insertion C V R x.
Proof.
  rewrite reject_if_inconsistent_eq. unfold inconsistent_insertion.
  destruct (decide (R ∈ C)) as [HR|HR]; simpl.
  - destruct (decide (filter (is_other R) (EnumTypes_elements V) = []))
      as [E|E].
    + rewrite E. simpl. split; [by left|]. intros [?|[_ [H|[_ H]]]]; [done|..].
      * assert (x ∈ filter (is_other R) (EnumTypes_elements V)) as Hin
          by (apply list_elem_of_filter; unfold is_other; naive_solver).
        rewrite E in Hin. by apply elem_of_nil in Hin.
      * apply filter_is_other_nonempty in H. done.
    + rewrite reject_rejected, reject_each_rejected, decide_True by done.
      pose proof (proj1 (filter_is_other_nonempty R _) E) as Hex.
      rewrite !elem_of_union, elem_of_singleton, elem_of_intersection,
        elem_of_list_to_set, list_elem_of_filter. unfold is_other.
      naive_solver.
  - rewrite reject_each_rejected, elem_of_union, elem_of_intersection,
      elem_of_list_to_set. naive_solver.
Qed.

Lemma reject_if_inconsistent_trace V R reason st :
  ∃ new,
    reject_trace (reject_if_inconsistent C V R reason st)
    = reject_trace st ++ new ∧
    ∀ x r, (x, r) ∈ new ↔ r = reason ∧ inconsistent_insertion C V R x.
Proof.
  rewrite reject_if_inconsistent_eq. unfold inconsistent_insertion.
  destruct (decide (R ∈ C)) as [HR|HR]; simpl.
  - destruct (decide (filter (is_other R) (EnumTypes_elements V) = []))
      as [E|E].
    + exists []. rewrite E. simpl. split; [by rewrite app_nil_r|].
      intros x r. rewrite elem_of_nil. split; [done|].
      intros (_ & _ & [H|[_ H]]).
      * assert (x ∈ filter (is_other R) (EnumTypes_elements V)) as Hin
          by (apply list_elem_of_filter; unfold is_other; naive_solver).
        rewrite E in Hin. by apply elem_of_nil in Hin.
      * by apply filter_is_other_nonempty in H.
    + eexists. rewrite reject_trace_eq, reject_each_trace, decide_True by done.
      rewrite <- app_assoc. split; [done|]. intros x r.
      pose proof (proj1 (filter_is_other_nonempty R _) E) as Hex.
      rewrite elem_of_app, reject_each_new_trace, list_elem_of_singleton,
        list_elem_of_filter.
      unfold is_other. split.
      * intros [(-> & ? & ? & ?)|[= -> ->]]; naive_solver.
      * intros (-> & ? & [?|[-> ?]]); naive_solver.
  - eexists. rewrite reject_each_trace. split; [done|]. intros x r.
    rewrite reject_each_new_trace. naive_solver.
Qed.

(** C1. A call of reject-if-inconsistent with the register value [V], the
    required type [R] and a reason inserts into the rejected set exactly the
    candidates it has to: when [R] is a candidate, every non-primitive
    element of [V] other than [R] (if a candidate), and [R] itself when such
    an element exists; when [R] is not a candidate, every element of [V] that
    is a candidate. Nothing else is inserted, and each insertion is logged
    with the reason of the call. *)
Theorem reject_if_inconsistent_inserts V R reason st :
  (∀ x, x ∈ rejected_enums (reject_if_inconsistent C V R reason st)
        ↔ x ∈ rejected_enums st ∨ inconsistent_insertion C V R x) ∧
  ∃ new,
    reject_trace (reject_if_inconsistent C V R reason st)
    = reject_trace st ++ new ∧
    ∀ x r, (x, r) ∈ new ↔ r = reason ∧ inconsistent_insertion C V R x.
Proof.
  split.
  - intros x. apply reject_if_inconsistent_rejected.
  - apply reject_if_inconsistent_trace.
Qed.

End RejectFacts.

(** ** Sets read off a register *)

Lemma elem_of_discard_primitives V t :
  t ∈ discard_primitives V ↔ t ∈ EnumTypes_elements V ∧ is_primitive t = false.
Proof.
  unfold discard_primitives.
  assert (∀ l (acc : gset DexType),
    t ∈ foldl (λ res type, if is_primitive type then res else {[ type ]} ∪ res)
              acc l
    ↔ t ∈ acc ∨ (t ∈ l ∧ is_primitive t = false)) as Hloop.
  { induction l as [|a l IH]; intros acc; simpl.
    - rewrite elem_of_nil. naive_solver.
    - rewrite IH, elem_of_cons. destruct (is_primitive a) eqn:Ha.
      + naive_solver congruence.
      + rewrite elem_of_union, elem_of_singleton. naive_solver. }
  rewrite Hloop. set_solver.
Qed.

Lemma elem_of_acceptable_elem_types V e :
  e ∈ acceptable_elem_types V
  ↔ ∃ t, t ∈ EnumTypes_elements V ∧ get_array_type t = Some e ∧
         is_primitive e = false.
Proof.
  unfold acceptable_elem_types.
  assert (∀ l (acc : gset DexType),
    e ∈ foldl (λ acc type,
                 match get_array_type type with
                 | Some elem =>
                     if is_primitive elem then acc else {[ elem ]} ∪ acc
                 | None => acc
                 end) acc l
    ↔ e ∈ acc ∨ ∃ t, t ∈ l ∧ get_array_type t = Some e ∧
                     is_primitive e = false) as Hloop.
  { induction l as [|a l IH]; intros acc; simpl.
    - setoid_rewrite elem_of_nil. naive_solver.
    - rewrite IH. setoid_rewrite elem_of_cons.
      destruct (get_array_type a) as [elem|] eqn:Ha;
        [destruct (is_primitive elem) eqn:Hp|].
      + naive_solver congruence.
      + rewrite elem_of_union, elem_of_singleton. naive_solver.
      + naive_solver congruence. }
  rewrite Hloop. set_solver.
Qed.

Lemma small_set (X : gset DexType) :
  size X ≤ 1 → X = ∅ ∨ ∃ x, X = {[ x ]}.
Proof.
  intros Hs. destruct (decide (size X = 0)) as [H0|H0].
  - left. apply leibniz_equiv. by apply size_empty_iff.
  - right. destruct (size_1_elem_of X) as [x Hx]; [lia|].
    exists x. by apply leibniz_equiv.
Qed.

Lemma multiple_types_spec this_types that_types :
  multiple_types this_types that_types = true
  ↔ types_disagree this_types that_types.
Proof.
  unfold multiple_types, types_disagree.
  destruct (decide (1 < size this_types)) as [H1|H1].
  { rewrite (proj2 (Nat.ltb_lt _ _) H1). naive_solver. }
  destruct (decide (1 < size that_types)) as [H2|H2].
  { rewrite (proj2 (Nat.ltb_lt _ _) H2), orb_true_r. naive_solver. }
  rewrite (proj2 (Nat.ltb_ge _ _)), (proj2 (Nat.ltb_ge _ _)) by lia.
  cbn [orb].
  destruct (small_set this_types) as [->|[a ->]]; [lia|..];
    destruct (small_set that_types) as [->|[b ->]]; try lia;
    rewrite ?elements_empty, ?elements_singleton; cbn [head];
    rewrite ?size_empty, ?size_singleton.
  - split; [done|]. intros [?|[?|(a & b & ? & ?)]]; [lia..|set_solver].
  - split; [done|]. intros [?|[?|(a & c & ? & ?)]]; [lia..|set_solver].
  - split; [done|]. intros [?|[?|(c & b & ? & ?)]]; [lia..|set_solver].
  - rewrite negb_true_iff, bool_decide_eq_false. split.
    + intros Hne. right. right. by exists a, b.
    + intros [?|[?|(a' & b' & Ha & Hb & Hne)]]; [lia..|].
      assert (a = a') as -> by set_solver.
      assert (b = b') as -> by set_solver. done.
Qed.

(** ** The environment *)

Lemma env_get_set_eq r v env :
  env_is_bottom env = false → env_get (env_set r v env) r = v.
Proof.
  destruct env as [|m]; [done|]. intros _. simpl.
  by rewrite lookup_insert_eq.
Qed.

Lemma env_get_set_ne r r' v env :
  r ≠ r' → env_get (env_set r v env) r' = env_get env r'.
Proof.
  intros Hne. destruct env as [|m]; [done|]. simpl.
  by rewrite lookup_insert_ne.
Qed.

Lemma EnumTypes_of_inj a b : EnumTypes_of a = EnumTypes_of b → a = b.
Proof.
  intros E. apply (f_equal EnumTypes_elements) in E.
  unfold EnumTypes_of in E. cbn [EnumTypes_elements] in E.
  rewrite !elements_singleton in E. congruence.
Qed.

(** ** The detector, instruction by instruction *)

Section DetectorFacts.

Variable type_class : DexType → option DexClass.
Variable m_method : DexMethod.
Variable C : gset DexType.

(** C2. An invoke-virtual of [Enum.equals(Object)] or
    [Enum.compareTo(Enum)] whose declaring class is [java.lang.Enum] or a
    candidate: with [this_types] and [that_types] the non-primitive elements
    of the two source registers, and exactly those, the detector rejects
    [this_types] (reason
    CAST_THIS_POINTER) and [that_types] (reason CAST_PARAMETER) when one of
    them has more than one element or both are singletons of different
    types, and otherwise leaves the rejected set and the log as they are.
    Rejecting a type inserts it when it is a candidate. *)
Theorem equals_compareTo_rejects_iff_types_disagree
    insn method r0 r1 env st :
  opcode insn = OPCODE_INVOKE_VIRTUAL →
  get_method insn = Some method →
  spec_cls (m_spec method) = ENUM_TYPE ∨ spec_cls (m_spec method) ∈ C →
  signatures_match method ENUM_EQUALS_METHOD = true ∨
    signatures_match method ENUM_COMPARETO_METHOD = true →
  src insn 0 = Some r0 →
  src insn 1 = Some r1 →
  let this_types := discard_primitives (env_get env r0) in
  let that_types := discard_primitives (env_get env r1) in
  (∀ t, t ∈ this_types
        ↔ t ∈ EnumTypes_elements (env_get env r0) ∧ is_primitive t = false) ∧
  (∀ t, t ∈ that_types
        ↔ t ∈ EnumTypes_elements (env_get env r1) ∧ is_primitive t = false) ∧
  ∃ st',
    process_instruction type_class m_method C insn env st = Some st' ∧
    (types_disagree this_types that_types →
       rejected_enums st'
       = rejected_enums st ∪ (this_types ∩ C) ∪ (that_types ∩ C) ∧
       ∃ new,
         reject_trace st' = reject_trace st ++ new ∧
         ∀ x r, (x, r) ∈ new
                ↔ (r = CAST_THIS_POINTER ∧ x ∈ this_types ∩ C) ∨
                  (r = CAST_PARAMETER ∧ x ∈ that_types ∩ C)) ∧
    (¬ types_disagree this_types that_types → st' = st).
Proof.
  intros Hop Hm Hcls Hsig H0 H1 this_types that_types.
  split; [intros t; apply elem_of_discard_primitives|].
  split; [intros t; apply elem_of_discard_primitives|].
  unfold process_instruction. rewrite Hop.
  unfold process_virtual_invocation. rewrite Hop, Hm. simpl.
  assert (bool_decide (spec_cls (m_spec method) = ENUM_TYPE) ||
          count_unsafe C (spec_cls (m_spec method)) = true) as ->.
  { unfold count_unsafe. destruct Hcls as [Hc|Hc].
    - by rewrite (bool_decide_eq_true_2 _ Hc).
    - by rewrite (bool_decide_eq_true_2 _ Hc), orb_true_r. }
  rewrite H0. simpl.
  assert (signatures_match method ENUM_EQUALS_METHOD ||
          signatures_match method ENUM_COMPARETO_METHOD = true) as ->.
  { destruct Hsig as [-> | ->]; [done|by rewrite orb_true_r]. }
  rewrite H1. simpl. fold this_types that_types.
  destruct (multiple_types this_types that_types) eqn:E.
  - apply multiple_types_spec in E. eexists. split; [done|].
    split; [intros _|done]. split.
    + by rewrite !reject_set_rejected.
    + destruct (reject_set_trace C this_types CAST_THIS_POINTER st)
        as (n1 & E1 & Hn1).
      destruct (reject_set_trace C that_types CAST_PARAMETER
                  (reject_set C this_types CAST_THIS_POINTER st))
        as (n2 & E2 & Hn2).
      exists (n1 ++ n2). rewrite E2, E1, <- app_assoc. split; [done|].
      intros x r. rewrite elem_of_app, Hn1, Hn2. done.
  - exists st. split; [done|]. split; [|done].
    intros Hd. apply multiple_types_spec in Hd. congruence.
Qed.

(** C5. A const-class instruction with type operand [t], whose result is
    delivered through a move-result-pseudo: the transfer function binds
    [RESULT] to the singleton of [java.lang.Class] (which differs from the
    singleton of [t] unless [t] is [java.lang.Class]) and leaves the other
    registers alone; the detector inserts [t] into the rejected set, logged
    with USED_AS_CLASS_OBJECT, when [t] is a candidate, and changes nothing
    otherwise. *)
Theorem const_class_binds_Class_and_rejects_operand insn t env st :
  opcode insn = OPCODE_CONST_CLASS →
  get_type insn = Some t →
  has_move_result_pseudo insn = true →
  env_is_bottom env = false →
  ∃ env',
    analyze_instruction insn env = Some env' ∧
    env_get env' RESULT_REGISTER = EnumTypes_of get_class_type ∧
    (t ≠ get_class_type → env_get env' RESULT_REGISTER ≠ EnumTypes_of t) ∧
    (∀ r, r ≠ RESULT_REGISTER → env_get env' r = env_get env r) ∧
    process_instruction type_class m_method C insn env' st
    = Some (if decide (t ∈ C)
            then {| rejected_enums := {[ t ]} ∪ rejected_enums st;
                    reject_trace :=
                      reject_trace st ++ [(t, USED_AS_CLASS_OBJECT)] |}
            else st).
Proof.
  intros Hop Ht Hp Hb.
  exists (env_set RESULT_REGISTER (EnumTypes_of get_class_type) env).
  split; [|split; [|split; [|split]]].
  - unfold analyze_instruction. rewrite Hop, Hp. done.
  - by apply env_get_set_eq.
  - intros Hne. rewrite env_get_set_eq by done.
    intros E. apply Hne. symmetry. by apply EnumTypes_of_inj.
  - intros r Hr. by apply env_get_set_ne.
  - unfold process_instruction. rewrite Hop, Ht. simpl.
    unfold reject, count_unsafe. by case_bool_decide; case_decide.
Qed.

(** C6. An aput-object instruction, with [AT] the non-primitive element
    types of the array types in the array register and [V] the value of the
    stored register: when [AT] has more than one element every candidate of
    [V] and of [AT] is rejected with CAST_APUT_OBJECT; when [AT] is a
    singleton the detector applies reject-if-inconsistent to [V] and its
    element; when [AT] is empty, as it is when the array register holds no
    array type, nothing is rejected. *)
Theorem aput_object_rejections insn v a env st :
  opcode insn = OPCODE_APUT_OBJECT →
  src insn 0 = Some v →
  src insn 1 = Some a →
  let AT := acceptable_elem_types (env_get env a) in
  let V := env_get env v in
  (∀ e, e ∈ AT ↔ ∃ t, t ∈ EnumTypes_elements (env_get env a) ∧
                      get_array_type t = Some e ∧ is_primitive e = false) ∧
  ∃ st',
    process_instruction type_class m_method C insn env st = Some st' ∧
    (1 < size AT →
       rejected_enums st'
       = rejected_enums st ∪
         (list_to_set (EnumTypes_elements V) ∩ C) ∪ (AT ∩ C) ∧
       ∃ new,
         reject_trace st' = reject_trace st ++ new ∧
         ∀ x r, (x, r) ∈ new
                ↔ r = CAST_APUT_OBJECT ∧ x ∈ C ∧
                  (x ∈ EnumTypes_elements V ∨ x ∈ AT)) ∧
    (∀ e, AT = {[ e ]} →
       st' = reject_if_inconsistent C V e CAST_APUT_OBJECT st) ∧
    (AT = ∅ → st' = st) ∧
    ((∀ t, t ∈ EnumTypes_elements (env_get env a) → is_array t = false) →
       st' = st).
Proof.
  intros Hop Hv Ha AT V. split; [apply elem_of_acceptable_elem_types|].
  unfold process_instruction. rewrite Hop.
  unfold process_aput_object. rewrite Ha, Hv. simpl. fold AT V.
  assert ((∀ t, t ∈ EnumTypes_elements (env_get env a) → is_array t = false)
          → AT = ∅) as Hno.
  { intros Hno. apply leibniz_equiv. apply elem_of_equiv_empty. intros e He.
    apply elem_of_acceptable_elem_types in He as (t & Ht & Hg & _).
    unfold get_array_type in Hg. by rewrite (Hno t Ht) in Hg. }
  destruct (decide (1 < size AT)) as [H1|H1].
  - rewrite (proj2 (Nat.ltb_lt _ _) H1). eexists. split; [done|].
    split; [intros _|split; [|split]].
    + split; [by rewrite reject_set_rejected, reject_types_rejected|].
      destruct (reject_set_trace C AT CAST_APUT_OBJECT
                  (reject_types C V CAST_APUT_OBJECT st)) as (n2 & E2 & Hn2).
      eexists. rewrite E2. unfold reject_types.
      rewrite reject_each_trace, <- app_assoc. split; [done|].
      intros x r. rewrite elem_of_app, Hn2, reject_each_new_trace.
      rewrite elem_of_intersection. naive_solver.
    + intros e He. rewrite He, size_singleton in H1. lia.
    + intros He. rewrite He, size_empty in H1. lia.
    + intros Hn. rewrite (Hno Hn), size_empty in H1. lia.
  - rewrite (proj2 (Nat.ltb_ge _ _)) by lia.
    destruct (small_set AT) as [E|[e E]]; [lia|..]; rewrite E.
    + rewrite size_empty. simpl. exists st. split; [done|].
      split; [lia|]. split; [|done].
      intros e He. exfalso. assert (e ∈ (∅ : gset DexType)) as Hin
        by (rewrite He; by apply elem_of_singleton).
      by apply not_elem_of_empty in Hin.
    + rewrite size_singleton, elements_singleton. simpl.
      eexists. split; [done|].
      split; [lia|]. split; [|split].
      * intros e' He'. assert (e = e') as -> by set_solver. done.
      * intros He. exfalso. assert (e ∈ (∅ : gset DexType)) as Hin
          by (rewrite <- He; by apply elem_of_singleton).
        by apply not_elem_of_empty in Hin.
      * intros Hn. specialize (Hno Hn). exfalso.
        assert (e ∈ (∅ : gset DexType)) as Hin
          by (rewrite <- Hno, E; by apply elem_of_singleton).
        by apply not_elem_of_empty in Hin.
Qed.

(** C9. An iput-object instruction: the detector first asserts that the
    declaring class of the accessed field is not a candidate and aborts
    otherwise; only then does it apply reject-if-inconsistent to the stored
    register against the type of the field. The asserted condition is the
    one that guards iget-object, which aborts on exactly the same fields. *)
Theorem iput_object_asserts_then_checks insn field env st :
  opcode insn = OPCODE_IPUT_OBJECT →
  get_field insn = Some field →
  process_instruction type_class m_method C insn env st
  = (if decide (field_class field ∈ C) then None
     else r ← src insn 0;
          Some (reject_if_inconsistent C (env_get env r) (field_type field)
                                       CAST_ISPUT_OBJECT st)) ∧
  ∀ iget env' st',
    opcode iget = OPCODE_IGET_OBJECT →
    get_field iget = Some field →
    (process_instruction type_class m_method C iget env' st' = None
     ↔ field_class field ∈ C).
Proof.
  intros Hop Hf.
  assert (process_instruction type_class m_method C insn env st
          = (if decide (field_class field ∈ C) then None
             else r ← src insn 0;
                  Some (reject_if_inconsistent C (env_get env r)
                          (field_type field) CAST_ISPUT_OBJECT st))) as Hput.
  { unfold process_instruction. rewrite Hop, Hf. simpl.
    unfold count_unsafe. case_bool_decide; case_decide; try done.
    unfold process_isput_object. rewrite Hf.
    by destruct (src insn 0). }
  split; [done|]. intros iget env' st' Hop' Hf'.
  unfold process_instruction. rewrite Hop', Hf'. simpl.
  unfold count_unsafe. case_bool_decide; naive_solver.
Qed.

End DetectorFacts.

(** ** Only candidates are ever rejected *)

Create HintDb grows discriminated.

(** one step through a computation in the option monad that succeeded *)
Ltac option_step H :=
  match type of H with
  | (if ?b then _ else _) = Some _ => destruct b eqn:?
  | (?m ≫= _) = Some _ => destruct m eqn:?; simpl in H
  | None = Some _ => discriminate H
  | Some _ = Some _ => injection H as <-
  end.

Section Growth.

Variable C : gset DexType.

Lemma grows_refl st : grows_within C st st.
Proof. unfold grows_within. set_solver. Qed.

Lemma grows_trans st1 st2 st3 :
  grows_within C st1 st2 → grows_within C st2 st3 → grows_within C st1 st3.
Proof. unfold grows_within. set_solver. Qed.

Lemma for_each_grows {A} (f : A → RejectState → option RejectState) l :
  (∀ x st st', f x st = Some st' → grows_within C st st') →
  ∀ st st', for_each f l st = Some st' → grows_within C st st'.
Proof.
  intros Hf. induction l as [|x l IH]; intros st st' H; simpl in H.
  - injection H as <-. apply grows_refl.
  - destruct (f x st) as [st1|] eqn:E; [|done]. simpl in H.
    eapply grows_trans; [by eapply Hf|by apply IH].
Qed.

Lemma foldl_grows {A} (f : RejectState → A → RejectState) l :
  (∀ x st, grows_within C st (f st x)) →
  ∀ st, grows_within C st (foldl f st l).
Proof.
  intros Hf. induction l as [|x l IH]; intros st; simpl.
  - apply grows_refl.
  - eapply grows_trans; [apply Hf|apply IH].
Qed.

Lemma reject_grows t reason st : grows_within C st (reject C t reason st).
Proof.
  unfold grows_within. rewrite reject_rejected. case_decide; set_solver.
Qed.

Lemma reject_each_grows ts reason st :
  grows_within C st (reject_each C ts reason st).
Proof. unfold grows_within. rewrite reject_each_rejected. set_solver. Qed.

Lemma reject_set_grows X reason st :
  grows_within C st (reject_set C X reason st).
Proof. apply reject_each_grows. Qed.

Lemma reject_types_grows V reason st :
  grows_within C st (reject_types C V reason st).
Proof. apply reject_each_grows. Qed.

Lemma reject_if_inconsistent_grows V R reason st :
  grows_within C st (reject_if_inconsistent C V R reason st).
Proof.
  rewrite reject_if_inconsistent_eq. cbv zeta.
  destruct (decide (R ∈ C)); [|apply reject_each_grows].
  destruct (decide (_ = [])); [apply reject_each_grows|].
  eapply grows_trans; [apply reject_each_grows|apply reject_grows].
Qed.

Lemma rejected_insert_grows t st :
  t ∈ C → grows_within C st (rejected_insert t st).
Proof. unfold grows_within, rejected_insert. simpl. set_solver. Qed.

Hint Resolve grows_refl reject_grows reject_each_grows reject_set_grows
  reject_types_grows reject_if_inconsistent_grows : grows.

Lemma process_general_invocation_grows insn env st st' :
  process_general_invocation C insn env st = Some st' →
  grows_within C st st'.
Proof.
  unfold process_general_invocation. intros H.
  destruct (get_method insn) as [method|]; [|done]. simpl in H.
  match type of H with
  | context [if ?b then reject _ ?t ?r st else st] =>
      assert (grows_within C st (if b then reject C t r st else st)) as H0
        by (destruct b; auto with grows);
      generalize dependent (if b then reject C t r st else st)
  end.
  intros st0 H H0.
  destruct (negb _); [done|].
  match type of H with
  | (?m ≫= _) = _ => destruct m as [st1|] eqn:E1; [|done]
  end.
  simpl in H. injection H as <-.
  assert (grows_within C st0 st1) as H1.
  { destruct (_ =? _) in E1.
    - destruct (src insn 0); [|done]. simpl in E1. injection E1 as <-.
      auto with grows.
    - injection E1 as <-. auto with grows. }
  eapply grows_trans; [exact H0|]. eapply grows_trans; [exact H1|].
  apply foldl_grows. intros [r t] s. auto with grows.
Qed.

Hint Resolve process_general_invocation_grows : grows.

Lemma process_virtual_invocation_grows insn env st st' :
  process_virtual_invocation C insn env st = Some st' →
  grows_within C st st'.
Proof.
  unfold process_virtual_invocation. intros H.
  repeat option_step H; eauto with grows.
  eapply grows_trans; apply reject_set_grows.
Qed.

Lemma process_aput_object_grows insn env st st' :
  process_aput_object C insn env st = Some st' → grows_within C st st'.
Proof.
  unfold process_aput_object. intros H.
  repeat option_step H; eauto with grows.
  eapply grows_trans; [apply reject_types_grows|apply reject_set_grows].
Qed.

Lemma field_prefilter_grows field st :
  grows_within C st (field_prefilter C field st).
Proof.
  unfold field_prefilter.
  destruct (count_unsafe C (field_class _)); [apply grows_refl|].
  destruct (element_type _) as [t|]; [|apply grows_refl].
  destruct (count_unsafe C t) eqn:E; [|apply grows_refl]. cbn [andb].
  repeat (destruct (negb _); try apply grows_refl).
  apply rejected_insert_grows. by apply bool_decide_eq_true in E.
Qed.

Lemma method_prefilter_grows method st :
  grows_within C st (method_prefilter C method st).
Proof.
  unfold method_prefilter. apply foldl_grows. intros ty s.
  destruct (element_type _) as [t|]; [|apply grows_refl].
  destruct (count_unsafe C t) eqn:E; [|apply grows_refl]. cbn [andb].
  repeat (destruct (negb _); try apply grows_refl).
  apply rejected_insert_grows. by apply bool_decide_eq_true in E.
Qed.

End Growth.

#[local] Hint Resolve grows_refl reject_grows reject_each_grows
  reject_set_grows reject_types_grows reject_if_inconsistent_grows
  process_general_invocation_grows : grows.

Section GrowthOfTheDetector.

Variable type_class : DexType → option DexClass.
Variable C : gset DexType.

Lemma process_instruction_grows m_method insn env st st' :
  process_instruction type_class m_method C insn env st = Some st' →
  grows_within C st st'.
Proof.
  unfold process_instruction. intros H.
  destruct (opcode insn);
    try (injection H as <-; apply grows_refl);
    try (by apply process_general_invocation_grows in H);
    try (by apply process_virtual_invocation_grows in H);
    try (by apply process_aput_object_grows in H);
    unfold process_direct_invocation, process_static_invocation,
      process_return_object, process_isput_object in H;
    repeat option_step H; eauto with grows.
Qed.

Lemma run_grows m_method get_entry_state_at cfg st st' :
  run type_class m_method C get_entry_state_at cfg st = Some st' →
  grows_within C st st'.
Proof.
  unfold run. apply for_each_grows. clear st st'.
  intros block st st'. unfold run_block.
  destruct (env_is_bottom _); [intros [= <-]; apply grows_refl|].
  generalize (get_entry_state_at block) as env. intros env.
  generalize (block_insns block) as insns. intros insns.
  revert env st. induction insns as [|insn insns IH]; intros env st H.
  - simpl in H. injection H as <-. apply grows_refl.
  - simpl in H.
    destruct (analyze_instruction insn env) as [env1|]; [|done]. simpl in H.
    destruct (process_instruction _ _ _ insn env1 st) as [st1|] eqn:E;
      [|done].
    simpl in H. apply process_instruction_grows in E.
    eapply grows_trans; [exact E|]. by eapply IH.
Qed.

End GrowthOfTheDetector.

(** ** The pre-filters *)

Section Prefilters.

Variable C : gset DexType.

Lemma foldl_rejected {A} (step : RejectState → A → RejectState)
    (P : A → DexType → Prop) x :
  (∀ a st, x ∈ rejected_enums (step st a) ↔ x ∈ rejected_enums st ∨ P a x) →
  ∀ l st, x ∈ rejected_enums (foldl step st l)
          ↔ x ∈ rejected_enums st ∨ ∃ a, a ∈ l ∧ P a x.
Proof.
  intros Hstep. induction l as [|a l IH]; intros st; simpl.
  - setoid_rewrite elem_of_nil. naive_solver.
  - rewrite IH, Hstep. setoid_rewrite elem_of_cons. naive_solver.
Qed.

(** the guarded insertion shared by the two pre-filters *)
Lemma guarded_insert_rejected (renameable : bool) ty st x :
  x ∈ rejected_enums
        (if count_unsafe C ty && negb (count (rejected_enums st) ty)
         then if negb renameable then rejected_insert ty st else st
         else st)
  ↔ x ∈ rejected_enums st ∨ (x = ty ∧ ty ∈ C ∧ renameable = false).
Proof.
  unfold count_unsafe, count, rejected_insert.
  destruct (decide (ty ∈ C)) as [Hc|Hc];
    [rewrite (bool_decide_eq_true_2 _ Hc)
    |rewrite (bool_decide_eq_false_2 _ Hc)]; cbn [andb]; [|naive_solver].
  destruct (decide (ty ∈ rejected_enums st)) as [Hr|Hr];
    [rewrite (bool_decide_eq_true_2 _ Hr)
    |rewrite (bool_decide_eq_false_2 _ Hr)]; cbn [negb]; [naive_solver|].
  destruct renameable; cbn [negb rejected_enums]; [naive_solver|].
  rewrite elem_of_union, elem_of_singleton. naive_solver.
Qed.

Lemma field_prefilter_rejected f st x :
  x ∈ rejected_enums (field_prefilter C f st)
  ↔ x ∈ rejected_enums st ∨ field_rejects C f x.
Proof.
  unfold field_prefilter, field_rejects, count_unsafe.
  destruct (decide (field_class (f_ref f) ∈ C)) as [Hc|Hc];
    [rewrite (bool_decide_eq_true_2 _ Hc)
    |rewrite (bool_decide_eq_false_2 _ Hc)]; [naive_solver|].
  destruct (element_type _) as [ty|]; [|naive_solver].
  fold (count_unsafe C ty). rewrite guarded_insert_rejected. naive_solver.
Qed.

Lemma method_prefilter_rejected m st x :
  x ∈ rejected_enums (method_prefilter C m st)
  ↔ x ∈ rejected_enums st ∨ proto_rejects C m x.
Proof.
  unfold method_prefilter, proto_rejects.
  rewrite (foldl_rejected _
             (λ t x, element_type t = Some x ∧ x ∈ C ∧
                     can_rename (m_rstate m) = false)).
  - naive_solver.
  - intros t s. destruct (element_type t) as [ty|]; [|naive_solver].
    rewrite guarded_insert_rejected. naive_solver.
Qed.

Lemma method_prefilter_trace m st :
  reject_trace (method_prefilter C m st) = reject_trace st.
Proof.
  unfold method_prefilter.
  generalize (DexProto_gather_types (get_proto m)) as l. intros l. revert st.
  induction l as [|t l IH]; intros st; [done|]. simpl. rewrite IH.
  by repeat case_match.
Qed.

(** C4. The pre-filter of a method that is not skipped looks at the types
    named by the proto of the method, that is its return type and its
    argument types, each reduced to its element type when it is an array:
    every such type that is a candidate is in the rejected set afterwards
    when the method is not renameable. Nothing else is inserted, and nothing
    is logged. *)
Theorem method_prefilter_rejects_proto_candidates m st :
  (∀ x, x ∈ rejected_enums (method_prefilter C m st)
        ↔ x ∈ rejected_enums st ∨
          (can_rename (m_rstate m) = false ∧ x ∈ C ∧
           ∃ t, t ∈ get_rtype (get_proto m) :: get_args (get_proto m) ∧
                element_type t = Some x)) ∧
  reject_trace (method_prefilter C m st) = reject_trace st.
Proof.
  split.
  - intros x. apply method_prefilter_rejected.
  - apply method_prefilter_trace.
Qed.

End Prefilters.

(** ** The driver *)

Lemma erase_rejected_eq (C R : gset DexType) :
  erase_rejected R C = C ∖ R.
Proof.
  unfold erase_rejected.
  assert (∀ l (X : gset DexType),
    foldl (λ candidates type, candidates ∖ {[ type ]}) X l
    = X ∖ list_to_set l) as Hloop.
  { induction l as [|t l IH]; intros X; simpl; [set_solver|].
    rewrite IH. set_solver. }
  by rewrite Hloop, list_to_set_elements_L.
Qed.

Lemma need_analyze_no_code m (C R : gset DexType) :
  get_code m = None → need_analyze m C R = false.
Proof. unfold need_analyze. by intros ->. Qed.

Lemma for_each_app {A S} (f : A → S → option S) l1 l2 s :
  for_each f (l1 ++ l2) s = s1 ← for_each f l1 s; for_each f l2 s1.
Proof.
  revert s. induction l1 as [|x l1 IH]; intros s; simpl; [done|].
  destruct (f x s); simpl; [apply IH|done].
Qed.

Lemma elem_of_flat_map {A B} (f : A → list B) (l : list A) (y : B) :
  y ∈ flat_map f l ↔ ∃ x, x ∈ l ∧ y ∈ f x.
Proof.
  rewrite list_elem_of_In, in_flat_map.
  setoid_rewrite list_elem_of_In. done.
Qed.

Lemma need_analyze_rejected_more m (C R : gset DexType) :
  need_analyze m C ∅ = false → need_analyze m C R = false.
Proof.
  unfold need_analyze. destruct (get_code m); [|done].
  generalize (DexProto_gather_types (get_proto m) ++ DexMethod_gather_types m)
    as types.
  induction types as [|t types IH]; [done|]. simpl.
  intros H. apply orb_false_iff in H as [Ht Hts].
  rewrite (IH Hts), orb_false_r.
  destruct (element_type t) as [e|]; [|done]. simpl in *.
  apply andb_false_iff in Ht as [Ht|Ht]; [by rewrite Ht|].
  unfold count in Ht. rewrite bool_decide_eq_false_2 in Ht by set_solver.
  done.
Qed.

Section Driver.

Variable type_class : DexType → option DexClass.
Variable engine_run :
  ControlFlowGraph → EnumTypeEnvironment →
  option (Block → EnumTypeEnvironment).
Variable C : gset DexType.

Lemma analyze_method_grows m st st' :
  analyze_method type_class engine_run C m st = Some st' →
  grows_within C st st'.
Proof.
  unfold analyze_method. intros H.
  pose proof (method_prefilter_grows C m st) as Hp.
  repeat option_step H; try apply grows_refl; try done.
  eapply grows_trans; [exact Hp|]. by eapply run_grows.
Qed.

Lemma collect_rejections_within classes st :
  collect_rejections type_class engine_run classes C = Some st →
  rejected_enums st ⊆ C.
Proof.
  unfold collect_rejections. intros H.
  apply (for_each_grows C) in H; [|apply analyze_method_grows].
  pose proof (foldl_grows C (λ st field, field_prefilter C field st)
                (walk_fields classes) (field_prefilter_grows C)
                no_rejections) as H0.
  destruct (grows_trans C _ _ _ H0 H) as [_ Hsub].
  unfold no_rejections in Hsub. simpl in Hsub. set_solver.
Qed.

(** C7. The analysis reads the candidate set and never changes it: every
    step, over the fields and over the methods, only adds candidates to the
    rejected set, so that the rejected set is within the candidate set when
    the walks are done; the result of the pass is then the candidate set
    minus the rejected set, computed by the one loop that ends it. *)
Theorem rejections_are_candidates_and_pruned_once classes st :
  collect_rejections type_class engine_run classes C = Some st →
  rejected_enums st ⊆ C ∧
  (∀ f st0, grows_within C st0 (field_prefilter C f st0)) ∧
  (∀ m st0 st1,
     analyze_method type_class engine_run C m st0 = Some st1 →
     rejected_enums st0 ⊆ rejected_enums st1 ∧
     rejected_enums st1 ∖ rejected_enums st0 ⊆ C) ∧
  reject_unsafe_enums type_class engine_run classes C
  = Some (C ∖ rejected_enums st).
Proof.
  intros H. split; [by eapply collect_rejections_within|].
  split; [intros; apply field_prefilter_grows|]. split.
  - intros m st0 st1 Hm. apply analyze_method_grows in Hm as [? ?].
    set_solver.
  - unfold reject_unsafe_enums. rewrite H. simpl. by rewrite erase_rejected_eq.
Qed.

(** C10. A method without code is never analysed: [need_analyze] is false
    for it, so that its step does not depend on the fixpoint engine, logs no
    rejection of the detector, and is the proto-based pre-filter, or nothing
    at all when the method is skipped as a generated method. *)
Theorem method_without_code_is_only_prefiltered m st :
  get_code m = None →
  (∀ R, need_analyze m C R = false) ∧
  analyze_method type_class engine_run C m st
  = Some (if is_generated_enum_method type_class C (rejected_enums st) m
          then st else method_prefilter C m st) ∧
  (∀ engine', analyze_method type_class engine' C m st
              = analyze_method type_class engine_run C m st) ∧
  (∀ st', analyze_method type_class engine_run C m st = Some st' →
          reject_trace st' = reject_trace st ∧
          ∀ x, x ∈ rejected_enums st' →
               x ∈ rejected_enums st ∨ proto_rejects C m x).
Proof.
  intros Hcode.
  assert (∀ engine, analyze_method type_class engine C m st
          = Some (if is_generated_enum_method type_class C
                       (rejected_enums st) m
                  then st else method_prefilter C m st)) as Heq.
  { intros engine. unfold analyze_method.
    destruct (is_generated_enum_method _ _ _ _); [done|].
    by rewrite need_analyze_no_code. }
  split; [intros R; by apply need_analyze_no_code|].
  split; [apply Heq|]. split; [intros; by rewrite !Heq|].
  intros st'. rewrite Heq. intros [= <-].
  destruct (is_generated_enum_method _ _ _ _); [by auto|].
  split; [apply method_prefilter_trace|].
  intros x. by rewrite method_prefilter_rejected.
Qed.

Lemma gen_env_is_Some m code :
  get_code m = Some code →
  length (get_param_instructions code)
  = length (get_args (get_proto m)) + (if is_static (m_ref m) then 0 else 1) →
  is_Some (gen_env m).
Proof.
  intros Hc Hlen. unfold gen_env. rewrite Hc. simpl.
  destruct (is_static (m_ref m)); simpl; rewrite Hlen, Nat.eqb_refl; simpl.
  - done.
  - by destruct (get_param_instructions code).
Qed.

(** C8. [gen_env] counts the load-param instructions of the method it is
    handed and asserts that there are as many as declared argument types,
    plus one when the method is not static. On a mismatch [gen_env] aborts,
    and with it the whole pass: no candidate set is returned. Otherwise it
    returns an environment. *)
Theorem gen_env_asserts_load_param_count m code :
  get_code m = Some code →
  let expected :=
    length (get_args (get_proto m)) +
    (if is_static (m_ref m) then 0 else 1) in
  (gen_env m = None ↔ length (get_param_instructions code) ≠ expected) ∧
  (length (get_param_instructions code) ≠ expected →
   ∀ classes before after st1,
     walk_methods classes = before ++ m :: after →
     for_each (analyze_method type_class engine_run C) before
       (foldl (λ st field, field_prefilter C field st) no_rejections
              (walk_fields classes))
     = Some st1 →
     is_generated_enum_method type_class C (rejected_enums st1) m = false →
     need_analyze m C (rejected_enums (method_prefilter C m st1)) = true →
     reject_unsafe_enums type_class engine_run classes C = None).
Proof.
  intros Hc expected.
  assert (gen_env m = None ↔ length (get_param_instructions code) ≠ expected)
    as Hgen.
  { split.
    - intros Hn Hlen. destruct (gen_env_is_Some m code Hc Hlen) as [e He].
      congruence.
    - intros Hne. unfold gen_env. rewrite Hc. simpl. unfold expected in Hne.
      destruct (is_static (m_ref m)); simpl in *;
        apply Nat.eqb_neq in Hne; by rewrite Hne. }
  split; [exact Hgen|].
  intros Hne classes before after st1 Hw Hbefore Hgm Hna.
  unfold reject_unsafe_enums, collect_rejections.
  rewrite Hw, for_each_app, Hbefore. simpl.
  assert (analyze_method type_class engine_run C m st1 = None) as ->; [|done].
  unfold analyze_method. rewrite Hgm, Hna. simpl.
  by rewrite (proj2 Hgen Hne).
Qed.

Lemma analyze_method_insensitive m st :
  order_insensitive type_class C m →
  analyze_method type_class engine_run C m st
  = Some (method_prefilter C m st).
Proof.
  intros [Hg Hn]. unfold analyze_method.
  assert (is_generated_enum_method type_class C (rejected_enums st) m
          = false) as ->.
  { unfold is_generated_enum_method.
    destruct (count_unsafe C (get_class m)); [|done]. simpl in *.
    by rewrite Hg, andb_false_r. }
  by rewrite need_analyze_rejected_more.
Qed.

Lemma walk_methods_insensitive ms st :
  (∀ m, m ∈ ms → order_insensitive type_class C m) →
  for_each (analyze_method type_class engine_run C) ms st
  = Some (foldl (λ st m, method_prefilter C m st) st ms).
Proof.
  revert st. induction ms as [|m ms IH]; intros st Hall; simpl; [done|].
  rewrite analyze_method_insensitive by (apply Hall; left). simpl.
  apply IH. intros m' Hm'. apply Hall. by right.
Qed.

Lemma collect_rejections_insensitive classes :
  (∀ m, m ∈ walk_methods classes → order_insensitive type_class C m) →
  ∃ st,
    collect_rejections type_class engine_run classes C = Some st ∧
    ∀ x, x ∈ rejected_enums st
         ↔ (∃ f, f ∈ walk_fields classes ∧ field_rejects C f x) ∨
           (∃ m, m ∈ walk_methods classes ∧ proto_rejects C m x).
Proof.
  intros Hall. unfold collect_rejections.
  rewrite walk_methods_insensitive by done. eexists. split; [done|].
  intros x.
  rewrite (foldl_rejected (λ st m, method_prefilter C m st) (proto_rejects C))
    by (intros; apply method_prefilter_rejected).
  rewrite (foldl_rejected (λ st f, field_prefilter C f st) (field_rejects C))
    by (intros; apply field_prefilter_rejected).
  unfold no_rejections. simpl. set_solver.
Qed.

End Driver.

Lemma order_insensitive_walk type_class C (classes classes' : list DexClass) :
  classes ≡ₚ classes' →
  (∀ m, m ∈ walk_methods classes → order_insensitive type_class C m) →
  ∀ m, m ∈ walk_methods classes' → order_insensitive type_class C m.
Proof.
  intros Hp Hall m Hm. apply Hall. unfold walk_methods in *.
  apply elem_of_flat_map in Hm as (cls & Hcls & Hm).
  apply elem_of_flat_map. exists cls. by rewrite Hp.
Qed.

(** ** ReferencedState *)

(** the member is a root, is named by a string, or has its name kept *)
Lemma pinned_not_renameable s :
  m_keep_name s = true ∨ m_by_string s = true ∨
  (m_keep s = true ∧ m_unset_allowobfuscation s = true) →
  can_rename s = false.
Proof.
  unfold can_rename, allowobfuscation.
  intros [H|[H|[H1 H2]]]; rewrite ?H, ?H1, ?H2; simpl;
    [done|by rewrite andb_false_r|by rewrite !andb_false_r].
Qed.

Lemma pinned_calls s ops :
  m_keep_name s = true ∨ m_by_string s = true ∨
  (m_keep s = true ∧ m_unset_allowobfuscation s = true) →
  can_rename (calls s ops) = false.
Proof.
  unfold calls. revert s.
  induction ops as [|op ops IH]; intros s H; simpl.
  - by apply pinned_not_renameable.
  - apply IH. destruct op; simpl; naive_solver.
Qed.

(** X1. A member stays unrenameable for good once [set_root],
    [ref_by_string] or [set_keep_name] has been called on it: whatever
    mutators are called afterwards, in whatever order, [can_rename] is
    false. *)
Theorem pinned_members_stay_unrenameable s ops :
  can_rename (calls (set_root s) ops) = false ∧
  can_rename (calls (ref_by_string s) ops) = false ∧
  can_rename (calls (set_keep_name s) ops) = false.
Proof.
  split; [|split]; apply pinned_calls; simpl; auto.
Qed.

Lemma raising_calls_commute s a b :
  raises_flags a = true → raises_flags b = true →
  call (call s a) b = call (call s b) a.
Proof. destruct s, a, b; done. Qed.

(** X2. The nine setters that only raise flags ([ref_by_string],
    [set_referenced_by_resource_xml], [set_root], [set_has_keep],
    [set_keep_name], [set_allowshrinking], [unset_allowshrinking],
    [set_allowobfuscation], [unset_allowobfuscation]) can be called in any
    order: two sequences of such calls that are permutations of each other
    leave the same flags. *)
Theorem raising_calls_in_any_order s ops ops' :
  ops ≡ₚ ops' →
  Forall (λ op, raises_flags op = true) ops →
  calls s ops = calls s ops'.
Proof.
  unfold calls. intros Hp. revert s.
  induction Hp as [|x l l' Hp IH|x y l|l l' l'' Hp1 IH1 Hp2 IH2];
    intros s Hall; simpl.
  - done.
  - apply IH. by apply Forall_cons in Hall as [_ ?].
  - apply Forall_cons in Hall as [Hy Hall].
    apply Forall_cons in Hall as [Hx _].
    by rewrite (raising_calls_commute s y x).
  - rewrite IH1 by done. apply IH2. by rewrite <- Hp1.
Qed.

Lemma unset_allowobfuscation_sticks s ops :
  m_unset_allowobfuscation s = true →
  m_unset_allowobfuscation (calls s ops) = true.
Proof.
  unfold calls. revert s. induction ops as [|op ops IH]; intros s H; [done|].
  simpl. apply IH. by destruct op.
Qed.

Lemma unset_allowshrinking_sticks s ops :
  Forall (λ op, op ≠ ForceUnsetAllowshrinking) ops →
  m_unset_allowshrinking s = true →
  m_unset_allowshrinking (calls s ops) = true.
Proof.
  unfold calls. revert s.
  induction ops as [|op ops IH]; intros s Hall H; [done|].
  apply Forall_cons in Hall as [Hop Hall]. simpl. apply IH; [done|].
  by destruct op.
Qed.

(** X3. An unset wins over a set. After a call of
    [unset_allowobfuscation], or of [set_root], [allowobfuscation] is false
    whatever is called before and after; after a call of
    [unset_allowshrinking], or of [set_root], [allowshrinking] is false as
    long as [force_unset_allowshrinking] is not called later. *)
Theorem unset_has_priority s before after op :
  op = UnsetAllowobfuscation ∨ op = UnsetAllowshrinking ∨ op = SetRoot →
  let s' := calls s (before ++ op :: after) in
  (op ≠ UnsetAllowshrinking → allowobfuscation s' = false) ∧
  (op ≠ UnsetAllowobfuscation →
   Forall (λ op', op' ≠ ForceUnsetAllowshrinking) after →
   allowshrinking s' = false).
Proof.
  intros Hop s'. unfold s', calls. rewrite foldl_app. simpl.
  fold (calls s before). fold (calls (call (calls s before) op) after).
  split.
  - intros Hne. unfold allowobfuscation.
    rewrite unset_allowobfuscation_sticks; [done|].
    by destruct Hop as [->|[->| ->]].
  - intros Hne Hafter. unfold allowshrinking.
    rewrite unset_allowshrinking_sticks; [done|done|].
    by destruct Hop as [->|[->| ->]].
Qed.

(** ** More on the detector *)

Lemma need_analyze_true_iff m (C R : gset DexType) :
  need_analyze m C R = true
  ↔ is_Some (get_code m) ∧
    ∃ t e,
      t ∈ DexProto_gather_types (get_proto m) ++ DexMethod_gather_types m ∧
      element_type t = Some e ∧ e ∈ C ∧ e ∉ R.
Proof.
  unfold need_analyze. destruct (get_code m) as [c|].
  - rewrite existsb_exists. setoid_rewrite <- list_elem_of_In. split.
    + intros (t & Ht & Hl). split; [by eexists|].
      unfold live_candidate in Hl.
      destruct (element_type t) as [e|] eqn:He; [|done].
      apply andb_prop in Hl as [Hc Hr]. exists t, e.
      apply bool_decide_eq_true in Hc. apply negb_true_iff in Hr.
      unfold count in Hr. apply bool_decide_eq_false in Hr. done.
    + intros (_ & t & e & Ht & He & Hc & Hr). exists t. split; [done|].
      rewrite He. simpl. unfold count_unsafe, count.
      by rewrite (bool_decide_eq_true_2 _ Hc), (bool_decide_eq_false_2 _ Hr).
  - split; [done|]. by intros [[? ?] _].
Qed.

(** X4. [need_analyze] is true exactly for a method that has code and names,
    in its proto or in its body, a type whose element type is a candidate
    not rejected so far. *)
Theorem need_analyze_iff_names_live_candidate m (C R : gset DexType) :
  need_analyze m C R = true
  ↔ is_Some (get_code m) ∧
    ∃ t e,
      t ∈ DexProto_gather_types (get_proto m) ++ DexMethod_gather_types m ∧
      element_type t = Some e ∧ e ∈ C ∧ e ∉ R.
Proof. apply need_analyze_true_iff. Qed.

(** X5. [discard_primitives] returns the non-primitive elements of its
    argument, all of them and nothing else; it cannot have more elements
    than the register has. *)
Theorem discard_primitives_keeps_the_non_primitives V :
  (∀ t, t ∈ discard_primitives V
        ↔ t ∈ EnumTypes_elements V ∧ is_primitive t = false) ∧
  size (discard_primitives V) ≤ length (EnumTypes_elements V).
Proof.
  split; [intros t; apply elem_of_discard_primitives|].
  destruct V as [|X].
  - unfold discard_primitives. cbn [EnumTypes_elements foldl length].
    by rewrite size_empty.
  - cbn [EnumTypes_elements]. change (length (elements X)) with (size X).
    apply subseteq_size. intros t Ht.
    apply elem_of_discard_primitives in Ht as [Ht _].
    cbn [EnumTypes_elements] in Ht. by apply elem_of_elements in Ht.
Qed.

Lemma RejectState_eq (st st' : RejectState) :
  rejected_enums st = rejected_enums st' →
  reject_trace st = reject_trace st' → st = st'.
Proof. destruct st, st'. simpl. by intros -> ->. Qed.

(** X6. A call of reject-if-inconsistent leaves the rejected set and the log
    as they are exactly when it has nothing to insert. In particular a
    register that holds nothing but the required type is accepted. *)
Theorem reject_if_inconsistent_noop_iff (C : gset DexType) V R reason st :
  (reject_if_inconsistent C V R reason st = st
   ↔ ∀ x, ¬ inconsistent_insertion C V R x) ∧
  reject_if_inconsistent C (EnumTypes_of R) R reason st = st.
Proof.
  assert (reject_if_inconsistent C V R reason st = st
          ↔ ∀ x, ¬ inconsistent_insertion C V R x) as Hiff.
  { intros. destruct (reject_if_inconsistent_trace C V R reason st)
      as (new & Etr & Hnew).
    split.
    - intros E x Hx. rewrite E in Etr.
      assert (new = []) as ->.
      { apply (app_inv_head (reject_trace st)). by rewrite app_nil_r. }
      assert ((x, reason) ∈ ([] : list (DexType * Reason))) as Hin
        by (by apply Hnew).
      by apply elem_of_nil in Hin.
    - intros Hno. apply RejectState_eq.
      + apply leibniz_equiv. intros x.
        rewrite reject_if_inconsistent_rejected. naive_solver.
      + rewrite Etr. destruct new as [|[x r] new]; [by rewrite app_nil_r|].
        exfalso. apply (Hno x). apply (Hnew x r). left. }
  split; [exact Hiff|].
  rewrite reject_if_inconsistent_eq. cbv zeta.
  unfold EnumTypes_of. cbn [EnumTypes_elements]. rewrite elements_singleton.
  destruct (decide (R ∈ C)) as [HR|HR].
  - rewrite filter_cons, filter_nil.
    destruct (decide (is_other R R)) as [[_ Hne]|_]; [done|].
    by rewrite decide_True.
  - unfold reject_each. simpl. unfold reject, count_unsafe.
    by rewrite (bool_decide_eq_false_2 _ HR).
Qed.

(** X7. A return-object aborts exactly when the returned register is
    bottom; otherwise the rejected set afterwards is the old one and what
    reject-if-inconsistent has to insert for the value of the register
    against the return type of the analysed method. *)
Theorem return_object_checks_the_return_type
    type_class m_method (C : gset DexType) insn r env st :
  opcode insn = OPCODE_RETURN_OBJECT →
  src insn 0 = Some r →
  (process_instruction type_class m_method C insn env st = None
   ↔ env_get env r = Bottom) ∧
  ∀ st',
    process_instruction type_class m_method C insn env st = Some st' →
    ∀ x, x ∈ rejected_enums st'
         ↔ x ∈ rejected_enums st ∨
           inconsistent_insertion C (env_get env r)
             (get_rtype (get_proto m_method)) x.
Proof.
  intros Hop Hr. unfold process_instruction. rewrite Hop.
  unfold process_return_object. rewrite Hr. simpl.
  destruct (env_get env r) as [|X] eqn:E; simpl.
  - split; [done|]. by intros st' [=].
  - split; [by split|]. intros st' [= <-] x.
    apply reject_if_inconsistent_rejected.
Qed.

(** X8. A check-cast and an sput-object never abort when their operands are
    there: sput-object carries no assertion on the declaring class of the
    field. Both insert what reject-if-inconsistent has to insert for the
    source register, against the type of the cast and against the type of
    the field. *)
Theorem check_cast_and_sput_object_check_one_type
    type_class m_method (C : gset DexType) insn r required env st :
  (opcode insn = OPCODE_CHECK_CAST ∧ get_type insn = Some required) ∨
  (opcode insn = OPCODE_SPUT_OBJECT ∧
   ∃ f, get_field insn = Some f ∧ field_type f = required) →
  src insn 0 = Some r →
  ∃ st',
    process_instruction type_class m_method C insn env st = Some st' ∧
    ∀ x, x ∈ rejected_enums st'
         ↔ x ∈ rejected_enums st ∨
           inconsistent_insertion C (env_get env r) required x.
Proof.
  intros [[Hop Ht]|[Hop (f & Hf & Hty)]] Hr; unfold process_instruction;
    rewrite Hop.
  - rewrite Hr, Ht. simpl. eexists. split; [done|]. intros x.
    apply reject_if_inconsistent_rejected.
  - unfold process_isput_object. rewrite Hr, Hf. simpl. rewrite Hty.
    eexists. split; [done|]. intros x.
    apply reject_if_inconsistent_rejected.
Qed.

(** ** Invocations *)

Lemma arity_test (n k : nat) :
  negb ((n =? k) || (n =? k - 1)) = true ↔ k ≠ n ∧ k ≠ n + 1.
Proof.
  rewrite negb_true_iff, orb_false_iff, !Nat.eqb_neq. lia.
Qed.

Lemma process_general_invocation_None (C : gset DexType) insn method env st :
  get_method insn = Some method →
  process_general_invocation C insn env st = None
  ↔ length (srcs insn) ≠ length (get_args (spec_proto (m_spec method))) ∧
    length (srcs insn) ≠ length (get_args (spec_proto (m_spec method))) + 1.
Proof.
  intros Hm. unfold process_general_invocation. rewrite Hm. simpl.
  rewrite <- arity_test.
  destruct (negb _) eqn:Ear; [done|]. split; [|done].
  destruct (length (srcs insn)
            =? length (get_args (spec_proto (m_spec method))) + 1) eqn:Ethis;
    [|done].
  apply Nat.eqb_eq in Ethis. unfold src.
  destruct (lookup_lt_is_Some_2 (srcs insn) 0) as [r ->]; [lia|done].
Qed.

(** X9. An invoke-interface, invoke-super or invoke-direct aborts exactly
    when it is an invoke-direct on a candidate class, or when the number of
    its source registers is neither the number of declared arguments nor one
    more. When an invoke-interface or invoke-super on a candidate class does
    not abort, the class is rejected. *)
Theorem invocation_aborts_iff
    type_class m_method (C : gset DexType) insn method env st :
  opcode insn = OPCODE_INVOKE_INTERFACE ∨
  opcode insn = OPCODE_INVOKE_SUPER ∨
  opcode insn = OPCODE_INVOKE_DIRECT →
  get_method insn = Some method →
  let args := get_args (spec_proto (m_spec method)) in
  (process_instruction type_class m_method C insn env st = None
   ↔ (opcode insn = OPCODE_INVOKE_DIRECT ∧ spec_cls (m_spec method) ∈ C) ∨
     (length (srcs insn) ≠ length args ∧
      length (srcs insn) ≠ length args + 1)) ∧
  ∀ st',
    process_instruction type_class m_method C insn env st = Some st' →
    spec_cls (m_spec method) ∈ C →
    spec_cls (m_spec method) ∈ rejected_enums st'.
Proof.
  intros Hop Hm args.
  pose proof (process_general_invocation_None C insn method env st Hm)
    as Hgen.
  assert (∀ st',
    process_general_invocation C insn env st = Some st' →
    opcode insn ≠ OPCODE_INVOKE_STATIC →
    spec_cls (m_spec method) ∈ C →
    spec_cls (m_spec method) ∈ rejected_enums st') as Hrej.
  { intros st' H Hns Hc. unfold process_general_invocation in H.
    rewrite Hm in H. simpl in H.
    rewrite (bool_decide_eq_false_2 _ Hns) in H. unfold count_unsafe in H.
    rewrite (bool_decide_eq_true_2 _ Hc) in H. simpl in H.
    destruct (negb _); [done|].
    match type of H with
    | (?m ≫= _) = _ => destruct m as [st1|] eqn:E1; [|done]
    end.
    simpl in H. injection H as <-.
    assert (spec_cls (m_spec method) ∈ rejected_enums st1) as H1.
    { assert (grows_within C
                (reject C (spec_cls (m_spec method))
                   UNSAFE_INVOCATION_ON_CANDIDATE_ENUM st) st1) as [Hsub _].
      { destruct (_ =? _) in E1.
        - destruct (src insn 0); [|done]. injection E1 as <-.
          apply reject_if_inconsistent_grows.
        - injection E1 as <-. apply grows_refl. }
      apply Hsub. rewrite reject_rejected, decide_True by done. set_solver. }
    eapply (foldl_grows C); [|exact H1].
    intros [r t] s. apply reject_if_inconsistent_grows. }
  unfold process_instruction.
  destruct Hop as [Hop|[Hop|Hop]]; rewrite Hop.
  - rewrite Hgen. split; [naive_solver congruence|].
    intros st' H. apply Hrej; [done|congruence].
  - rewrite Hgen. split; [naive_solver congruence|].
    intros st' H. apply Hrej; [done|congruence].
  - unfold process_direct_invocation. rewrite Hop, Hm. simpl.
    unfold count_unsafe.
    destruct (decide (spec_cls (m_spec method) ∈ C)) as [Hc|Hc];
      [rewrite (bool_decide_eq_true_2 _ Hc)
      |rewrite (bool_decide_eq_false_2 _ Hc)].
    + split; [naive_solver|done].
    + rewrite Hgen. split; [naive_solver|]. by intros.
Qed.

Lemma foldl_reject_if_inconsistent_rejected (C : gset DexType) env reason
    (l : list (Register * DexType)) st x :
  x ∈ rejected_enums
        (foldl (λ st (ra : Register * DexType),
                  reject_if_inconsistent C (env_get env ra.1) ra.2 reason st)
               st l)
  ↔ x ∈ rejected_enums st ∨
    ∃ ra, ra ∈ l ∧ inconsistent_insertion C (env_get env ra.1) ra.2 x.
Proof.
  apply (foldl_rejected
           (λ st (ra : Register * DexType),
              reject_if_inconsistent C (env_get env ra.1) ra.2 reason st)
           (λ ra x, inconsistent_insertion C (env_get env ra.1) ra.2 x)).
  intros ra s. apply reject_if_inconsistent_rejected.
Qed.

(** X10. The general rule for an invocation, when it does not abort: a type
    is in the rejected set afterwards exactly when it was there before, or
    it is the declaring class, a candidate, of an invocation that is not
    static, or reject-if-inconsistent has to insert it for the receiver
    against the declaring class, or for an argument register against the
    declared type of that argument. *)
Theorem general_invocation_rejections
    (C : gset DexType) insn method env st st' :
  get_method insn = Some method →
  process_general_invocation C insn env st = Some st' →
  let cls := spec_cls (m_spec method) in
  let args := get_args (spec_proto (m_spec method)) in
  let first := length (srcs insn) - length args in
  ∀ x, x ∈ rejected_enums st'
       ↔ x ∈ rejected_enums st ∨
         (opcode insn ≠ OPCODE_INVOKE_STATIC ∧ x = cls ∧ cls ∈ C) ∨
         (first = 1 ∧ ∃ r, src insn 0 = Some r ∧
                           inconsistent_insertion C (env_get env r) cls x) ∨
         (∃ i r t, src insn (first + i) = Some r ∧ args !! i = Some t ∧
                   inconsistent_insertion C (env_get env r) t x).
Proof.
  intros Hm H cls args first x.
  assert (length (srcs insn) = length args ∨
          length (srcs insn) = length args + 1) as Har.
  { destruct (decide (length (srcs insn) = length args)); [by left|].
    destruct (decide (length (srcs insn) = length args + 1)); [by right|].
    assert (process_general_invocation C insn env st = None) as Hn
      by (by apply (process_general_invocation_None C insn method)).
    congruence. }
  unfold process_general_invocation in H. rewrite Hm in H. simpl in H.
  fold cls args in H.
  destruct (negb ((_ =? _) || _)); [done|].
  match type of H with
  | (?m ≫= _) = _ => destruct m as [st1|] eqn:E1; [|done]
  end.
  simpl in H. injection H as <-.
  rewrite foldl_reject_if_inconsistent_rejected.
  assert (∀ k, (∃ ra : Register * DexType,
                  ra ∈ zip (drop k (srcs insn)) args ∧
                  inconsistent_insertion C (env_get env ra.1) ra.2 x)
               ↔ ∃ i r t, src insn (k + i) = Some r ∧ args !! i = Some t ∧
                          inconsistent_insertion C (env_get env r) t x)
    as Hzip.
  { intros k. unfold src. split.
    - intros ([r t] & Hin & Hx). apply list_elem_of_lookup in Hin as [i Hi].
      unfold zip in Hi. apply lookup_zip_with_Some in Hi
        as (r' & t' & [= -> ->] & Hr & Ht).
      rewrite lookup_drop in Hr. by exists i, r', t'.
    - intros (i & r & t & Hr & Ht & Hx). exists (r, t). split; [|done].
      apply list_elem_of_lookup. exists i. unfold zip.
      apply lookup_zip_with_Some. exists r, t.
      by rewrite lookup_drop. }
  set (st0 := if negb (bool_decide (opcode insn = OPCODE_INVOKE_STATIC)) &&
                 count_unsafe C cls
              then reject C cls UNSAFE_INVOCATION_ON_CANDIDATE_ENUM st
              else st) in *.
  assert (x ∈ rejected_enums st0
          ↔ x ∈ rejected_enums st ∨
            (opcode insn ≠ OPCODE_INVOKE_STATIC ∧ x = cls ∧ cls ∈ C)) as H0.
  { unfold st0, count_unsafe.
    destruct (decide (opcode insn = OPCODE_INVOKE_STATIC)) as [Hs|Hs];
      [rewrite (bool_decide_eq_true_2 _ Hs)
      |rewrite (bool_decide_eq_false_2 _ Hs)]; simpl; [naive_solver|].
    destruct (decide (cls ∈ C)) as [Hc|Hc];
      [rewrite (bool_decide_eq_true_2 _ Hc)
      |rewrite (bool_decide_eq_false_2 _ Hc)]; [|naive_solver].
    rewrite reject_rejected, decide_True by done.
    rewrite elem_of_union, elem_of_singleton. naive_solver. }
  destruct (length (srcs insn) =? length args + 1) eqn:Ethis.
  - apply Nat.eqb_eq in Ethis.
    assert (first = 1) as Hf by (unfold first; lia).
    destruct (src insn 0) as [r|] eqn:Er; [|done]. injection E1 as <-.
    rewrite reject_if_inconsistent_rejected, H0, Hzip, Hf.
    clear. naive_solver.
  - apply Nat.eqb_neq in Ethis.
    assert (first = 0) as Hf by (unfold first; lia).
    injection E1 as <-. rewrite H0, Hzip, Hf.
    clear. naive_solver.
Qed.

Lemma signatures_match_other_name method a b :
  signatures_match method a = true →
  spec_name a ≠ spec_name b →
  signatures_match method b = false.
Proof.
  unfold signatures_match. intros H Hne.
  apply andb_prop in H as [H _]. apply bool_decide_eq_true in H.
  rewrite bool_decide_eq_false_2; [done|congruence].
Qed.

(** X11. The safe virtual calls that look at one register: [toString()],
    [name()] and [ordinal()] on [java.lang.Enum] or on a candidate look at
    the receiver; [StringBuilder.append(Object)] looks at the argument,
    provided that [StringBuilder] is not itself a candidate (the test on the
    declaring class comes first). With [types] the non-primitive elements
    of that register, and exactly those, the candidates of [types] are
    rejected, with reason MULTI_ENUM_TYPES, when [types] has more than one
    element; otherwise nothing changes. The call never aborts. *)
Theorem safe_virtual_calls_reject_only_mixed_registers
    type_class m_method (C : gset DexType) insn method r env st :
  opcode insn = OPCODE_INVOKE_VIRTUAL →
  get_method insn = Some method →
  ((spec_cls (m_spec method) = ENUM_TYPE ∨ spec_cls (m_spec method) ∈ C) ∧
   (signatures_match method ENUM_TOSTRING_METHOD = true ∨
    signatures_match method ENUM_NAME_METHOD = true ∨
    signatures_match method ENUM_ORDINAL_METHOD = true) ∧
   src insn 0 = Some r) ∨
  (m_spec method = STRINGBUILDER_APPEND_METHOD ∧
   ("Ljava/lang/StringBuilder;" ∉ C) ∧
   src insn 1 = Some r) →
  let types := discard_primitives (env_get env r) in
  (∀ t, t ∈ types
        ↔ t ∈ EnumTypes_elements (env_get env r) ∧ is_primitive t = false) ∧
  process_instruction type_class m_method C insn env st
  = Some (if decide (1 < size types)
          then reject_set C types MULTI_ENUM_TYPES st else st) ∧
  (1 < size types →
     rejected_enums (reject_set C types MULTI_ENUM_TYPES st)
     = rejected_enums st ∪ (types ∩ C) ∧
     ∃ new,
       reject_trace (reject_set C types MULTI_ENUM_TYPES st)
       = reject_trace st ++ new ∧
       ∀ x reason, (x, reason) ∈ new
                   ↔ reason = MULTI_ENUM_TYPES ∧ x ∈ types ∩ C).
Proof.
  intros Hop Hm Hcase types.
  split; [intros t; apply elem_of_discard_primitives|].
  split; [|intros _; split;
            [apply reject_set_rejected|apply reject_set_trace]].
  unfold process_instruction. rewrite Hop.
  unfold process_virtual_invocation. rewrite Hop, Hm. simpl.
  destruct Hcase as [(Hcls & Hsig & Hr)|(Hspec & Hsb & Hr)].
  - assert (bool_decide (spec_cls (m_spec method) = ENUM_TYPE) ||
            count_unsafe C (spec_cls (m_spec method)) = true) as ->.
    { unfold count_unsafe. destruct Hcls as [Hc|Hc].
      - by rewrite (bool_decide_eq_true_2 _ Hc).
      - by rewrite (bool_decide_eq_true_2 _ Hc), orb_true_r. }
    rewrite Hr. simpl. fold types.
    assert (signatures_match method ENUM_EQUALS_METHOD = false ∧
            signatures_match method ENUM_COMPARETO_METHOD = false)
      as [-> ->].
    { destruct Hsig as [H|[H|H]]; split;
        by apply (signatures_match_other_name _ _ _ H). }
    assert (signatures_match method ENUM_TOSTRING_METHOD ||
            signatures_match method ENUM_NAME_METHOD ||
            signatures_match method ENUM_ORDINAL_METHOD = true) as ->.
    { destruct Hsig as [-> |[-> | ->]];
        rewrite ?orb_true_r; done. }
    simpl. case_decide as Hs.
    + by rewrite (proj2 (Nat.ltb_lt _ _) Hs).
    + by rewrite (proj2 (Nat.ltb_ge _ _)) by lia.
  - assert (bool_decide (spec_cls (m_spec method) = ENUM_TYPE) ||
            count_unsafe C (spec_cls (m_spec method)) = false) as ->.
    { rewrite Hspec. unfold count_unsafe.
      change (spec_cls STRINGBUILDER_APPEND_METHOD)
        with "Ljava/lang/StringBuilder;".
      by rewrite (bool_decide_eq_false_2 _ Hsb). }
    rewrite (bool_decide_eq_true_2 _ Hspec), Hr. simpl. fold types.
    case_decide as Hs.
    + by rewrite (proj2 (Nat.ltb_lt _ _) Hs).
    + by rewrite (proj2 (Nat.ltb_ge _ _)) by lia.
Qed.

Lemma is_static_method_on_enum_class_true type_class method :
  is_static_method_on_enum_class type_class method = true
  ↔ is_def method = true ∧ is_static method = true ∧
    ∃ container,
      type_class (spec_cls (m_spec method)) = Some container ∧
      is_enum container = true.
Proof.
  unfold is_static_method_on_enum_class.
  destruct (is_def method), (is_static method); simpl; try naive_solver.
  destruct (type_class (spec_cls (m_spec method))) as [c|]; naive_solver.
Qed.

(** X12. The two predicates on generated static methods. [is_enum_values]
    holds exactly for a method that is defined, is static, has a declaring
    class that the class table knows as an enum, is named [values], takes
    no argument and returns an array of its class; [is_enum_valueof]
    exactly for one that is defined, static, of an enum class, named
    [valueOf], takes one [String] and returns its class. No method
    satisfies both. *)
Theorem enum_method_predicates type_class method :
  let cls := spec_cls (m_spec method) in
  let proto := spec_proto (m_spec method) in
  let static_on_enum :=
    is_def method = true ∧ is_static method = true ∧
    ∃ container, type_class cls = Some container ∧
                 is_enum container = true in
  (is_enum_values type_class method = true
   ↔ static_on_enum ∧
     spec_name (m_spec method) = "values" ∧
     get_args proto = [] ∧ get_rtype proto = String "[" cls) ∧
  (is_enum_valueof type_class method = true
   ↔ static_on_enum ∧
     spec_name (m_spec method) = "valueOf" ∧
     get_args proto = [get_string_type] ∧ get_rtype proto = cls) ∧
  is_enum_values type_class method && is_enum_valueof type_class method
  = false.
Proof.
  intros cls proto static_on_enum.
  assert (is_static_method_on_enum_class type_class method = true
          ↔ static_on_enum) as Hs
    by apply is_static_method_on_enum_class_true.
  assert (is_enum_values type_class method = true
          ↔ static_on_enum ∧
            spec_name (m_spec method) = "values" ∧
            get_args proto = [] ∧ get_rtype proto = String "[" cls) as Hv.
  { rewrite <- Hs. clear Hs. unfold is_enum_values. fold cls proto.
    destruct (is_static_method_on_enum_class type_class method); simpl;
      [|naive_solver].
    destruct (decide (spec_name (m_spec method) = "values")) as [Hn|Hn];
      [rewrite (bool_decide_eq_true_2 _ Hn)
      |rewrite (bool_decide_eq_false_2 _ Hn)]; simpl; [|naive_solver].
    destruct (get_args proto) as [|a l]; simpl; [|naive_solver].
    rewrite bool_decide_eq_true. unfold get_array_component_type.
    destruct (get_rtype proto) as [|c rest]; [naive_solver|].
    destruct (decide (c = "["%char)) as [->|Hc]; [naive_solver|].
    split; [|naive_solver].
    destruct c as [[] [] [] [] [] [] [] []]; try done. }
  assert (is_enum_valueof type_class method = true
          ↔ static_on_enum ∧
            spec_name (m_spec method) = "valueOf" ∧
            get_args proto = [get_string_type] ∧ get_rtype proto = cls)
    as Hvo.
  { rewrite <- Hs. clear Hs. unfold is_enum_valueof. fold cls proto.
    destruct (is_static_method_on_enum_class type_class method); simpl;
      [|naive_solver].
    destruct (decide (spec_name (m_spec method) = "valueOf")) as [Hn|Hn];
      [rewrite (bool_decide_eq_true_2 _ Hn)
      |rewrite (bool_decide_eq_false_2 _ Hn)]; simpl; [|naive_solver].
    destruct (decide (cls = get_rtype proto)) as [Hr|Hr];
      [rewrite (bool_decide_eq_true_2 _ Hr)
      |rewrite (bool_decide_eq_false_2 _ Hr)]; simpl; [|naive_solver].
    destruct (get_args proto) as [|a [|b l]]; [naive_solver| |naive_solver].
    rewrite bool_decide_eq_true. naive_solver. }
  split; [exact Hv|]. split; [exact Hvo|].
  apply andb_false_iff.
  destruct (decide (spec_name (m_spec method) = "values")) as [Hn|Hn].
  - right. apply not_true_is_false. intros E.
    apply Hvo in E as (_ & Hn2 & _). rewrite Hn in Hn2. done.
  - left. apply not_true_is_false. intros E.
    apply Hv in E as (_ & Hn1 & _). done.
Qed.

(** X13. An invoke-static of [values()] or [valueOf(String)] of a candidate
    enum is passed over: it rejects nothing, logs nothing and does not
    abort, whatever its source registers are. *)
Theorem values_and_valueOf_are_passed_over
    type_class m_method (C : gset DexType) insn method env st :
  opcode insn = OPCODE_INVOKE_STATIC →
  get_method insn = Some method →
  spec_cls (m_spec method) ∈ C →
  is_enum_values type_class method = true ∨
    is_enum_valueof type_class method = true →
  process_instruction type_class m_method C insn env st = Some st.
Proof.
  intros Hop Hm Hc Hgen. unfold process_instruction. rewrite Hop.
  unfold process_static_invocation. rewrite Hop, Hm. simpl.
  unfold count_unsafe. rewrite (bool_decide_eq_true_2 _ Hc). simpl.
  by destruct Hgen as [-> | ->]; rewrite ?orb_true_r.
Qed.

(** ** The transfer function *)

Lemma env_set_is_bottom r v env :
  env_is_bottom (env_set r v env) = env_is_bottom env.
Proof. by destruct env. Qed.

(** X14. The transfer of an instruction writes at most two registers: its
    destination, which is [RESULT] for an invocation and for an instruction
    with a move-result-pseudo, and the register after it. Every other
    register keeps its value, a load-param changes nothing at all, and the
    environment is bottom afterwards exactly when it was before. *)
Theorem analyze_instruction_frame insn env env' :
  analyze_instruction insn env = Some env' →
  let dst :=
    if is_invoke (opcode insn) || has_move_result_pseudo insn
    then RESULT_REGISTER else dest insn in
  (∀ r, r ≠ dst → r ≠ next_register dst → env_get env' r = env_get env r) ∧
  env_is_bottom env' = env_is_bottom env ∧
  (opcode insn = IOPCODE_LOAD_PARAM ∨
   opcode insn = IOPCODE_LOAD_PARAM_OBJECT ∨
   opcode insn = IOPCODE_LOAD_PARAM_WIDE → env' = env).
Proof.
  intros H dst. unfold analyze_instruction in H. fold dst in H.
  destruct (is_invoke (opcode insn) || has_move_result_pseudo insn
            || (0 <? dests_size insn));
    [|injection H as <-; by repeat split].
  destruct (opcode insn) eqn:Hop; repeat option_step H;
    try destruct (get_type insn);
    (split; [intros r Hr Hr';
             rewrite ?env_get_set_ne by done; reflexivity|]);
    (split; [rewrite ?env_set_is_bottom; reflexivity|]);
    intros [?|[?|?]]; done.
Qed.

(** X15. A move-object gives the destination the value of the source
    register, so that both registers hold equal sets afterwards. *)
Theorem move_object_copies insn r env :
  opcode insn = OPCODE_MOVE_OBJECT →
  has_move_result_pseudo insn = false →
  0 < dests_size insn →
  src insn 0 = Some r →
  env_is_bottom env = false →
  ∃ env',
    analyze_instruction insn env = Some env' ∧
    env_get env' (dest insn) = env_get env r ∧
    env_get env' (dest insn) = env_get env' r.
Proof.
  intros Hop Hp Hd Hr Hb. unfold analyze_instruction.
  rewrite Hop, Hp, Hr. simpl. rewrite (proj2 (Nat.ltb_lt _ _) Hd).
  eexists. split; [done|].
  rewrite env_get_set_eq by done. split; [done|].
  destruct (decide (dest insn = r)) as [->|Hne].
  - by rewrite env_get_set_eq.
  - by rewrite env_get_set_ne.
Qed.

(** X16. A result travels through [RESULT]: after an invocation followed by
    a move-result-object, the destination of the move holds the singleton of
    the return type of the callee; after a check-cast followed by its
    move-result-pseudo-object, the singleton of the type of the cast. *)
Theorem result_reaches_the_move_result insn mv t env :
  (is_invoke (opcode insn) = true ∧
   ∃ method, get_method insn = Some method ∧
             get_rtype (spec_proto (m_spec method)) = t) ∨
  (opcode insn = OPCODE_CHECK_CAST ∧ has_move_result_pseudo insn = true ∧
   get_type insn = Some t) →
  opcode mv = OPCODE_MOVE_RESULT_OBJECT ∨
    opcode mv = IOPCODE_MOVE_RESULT_PSEUDO_OBJECT →
  has_move_result_pseudo mv = false →
  0 < dests_size mv →
  env_is_bottom env = false →
  ∃ env1 env2,
    analyze_instruction insn env = Some env1 ∧
    env_get env1 RESULT_REGISTER = EnumTypes_of t ∧
    analyze_instruction mv env1 = Some env2 ∧
    env_get env2 (dest mv) = EnumTypes_of t.
Proof.
  intros Hprod Hmv Hp Hd Hb.
  exists (env_set RESULT_REGISTER (EnumTypes_of t) env).
  exists (env_set (dest mv) (EnumTypes_of t)
            (env_set RESULT_REGISTER (EnumTypes_of t) env)).
  assert (analyze_instruction insn env
          = Some (env_set RESULT_REGISTER (EnumTypes_of t) env)) as H1.
  { unfold analyze_instruction.
    destruct Hprod as [[Hi (method & Hm & Ht)]|(Hop & Hps & Ht)].
    - rewrite Hi, Hm. simpl. rewrite Ht.
      by destruct (opcode insn).
    - by rewrite Hop, Hps, Ht. }
  split; [exact H1|]. split; [by apply env_get_set_eq|].
  split.
  - unfold analyze_instruction. rewrite Hp, (proj2 (Nat.ltb_lt _ _) Hd).
    rewrite env_get_set_eq by done.
    by destruct Hmv as [-> | ->].
  - apply env_get_set_eq. by rewrite env_set_is_bottom.
Qed.

Lemma aget_loop (l : list DexType) (acc : gset DexType) :
  foldl (λ types array_type,
           match get_array_type array_type with
           | Some type =>
               if is_primitive type then types else EnumTypes_add type types
           | None => types
           end) (Value acc) l
  = Value (foldl (λ acc type,
                    match get_array_type type with
                    | Some elem =>
                        if is_primitive elem then acc else {[ elem ]} ∪ acc
                    | None => acc
                    end) acc l).
Proof.
  revert acc. induction l as [|a l IH]; intros acc; [done|]. simpl.
  destruct (get_array_type a) as [e|]; [|apply IH].
  destruct (is_primitive e); apply IH.
Qed.

(** X17. An aget-object reads what an aput-object accepts: its result is the
    set of the non-primitive element types of the array types in the array
    register, the set [process_aput_object] computes for the same
    register. *)
Theorem aget_object_reads_the_acceptable_types insn r env :
  opcode insn = OPCODE_AGET_OBJECT →
  has_move_result_pseudo insn = true →
  src insn 0 = Some r →
  env_is_bottom env = false →
  ∃ env',
    analyze_instruction insn env = Some env' ∧
    env_get env' RESULT_REGISTER
    = Value (acceptable_elem_types (env_get env r)) ∧
    ∀ e, e ∈ EnumTypes_elements (env_get env' RESULT_REGISTER)
         ↔ ∃ t, t ∈ EnumTypes_elements (env_get env r) ∧
                get_array_type t = Some e ∧ is_primitive e = false.
Proof.
  intros Hop Hp Hr Hb. unfold analyze_instruction.
  rewrite Hop, Hp, Hr. simpl. eexists. split; [done|].
  rewrite env_get_set_eq by done.
  unfold EnumTypes_default. rewrite aget_loop.
  fold (acceptable_elem_types (env_get env r)). split; [done|].
  intros e. cbn [EnumTypes_elements].
  rewrite elem_of_elements. apply elem_of_acceptable_elem_types.
Qed.

(** ** The initial environment *)

Lemma gen_env_eq m code :
  get_code m = Some code →
  length (get_param_instructions code)
  = length (get_args (get_proto m)) + (if is_static (m_ref m) then 0 else 1) →
  gen_env m
  = Some (foldl (λ env (pt : IRInstruction * DexType),
                   env_set (dest pt.1) (EnumTypes_of pt.2) env)
                (EnvValue ∅)
                (zip (get_param_instructions code)
                     ((if is_static (m_ref m) then [] else [get_class m]) ++
                      get_args (get_proto m)))).
Proof.
  intros Hc Hlen. unfold gen_env. rewrite Hc. simpl.
  destruct (is_static (m_ref m)); simpl in *; rewrite Hlen, Nat.eqb_refl;
    simpl; [done|].
  destruct (get_param_instructions code); [simpl in Hlen; lia|done].
Qed.

Lemma bind_parameters_other (l : list (IRInstruction * DexType)) env r :
  r ∉ (dest <$> l.*1) →
  env_get (foldl (λ env (pt : IRInstruction * DexType),
                    env_set (dest pt.1) (EnumTypes_of pt.2) env) env l) r
  = env_get env r.
Proof.
  revert env. induction l as [|[a t] l IH]; intros env Hr; [done|].
  simpl in *. apply not_elem_of_cons in Hr as [Hne Hr].
  rewrite IH by done. by apply env_get_set_ne.
Qed.

Lemma bind_parameters_lookup (l : list (IRInstruction * DexType)) env i a t :
  env_is_bottom env = false →
  NoDup (dest <$> l.*1) →
  l !! i = Some (a, t) →
  env_get (foldl (λ env (pt : IRInstruction * DexType),
                    env_set (dest pt.1) (EnumTypes_of pt.2) env) env l)
          (dest a)
  = EnumTypes_of t.
Proof.
  revert env i. induction l as [|[b tb] l IH]; intros env i Hb Hnd Hi;
    [done|].
  simpl in Hnd. apply NoDup_cons in Hnd as [Hnotin Hnd]. simpl.
  destruct i as [|i]; simpl in Hi.
  - injection Hi as -> ->. rewrite bind_parameters_other by done.
    by apply env_get_set_eq.
  - eapply IH; [by rewrite env_set_is_bottom|done|exact Hi].
Qed.

(** X18. The environment [gen_env] returns binds the destination of the
    i-th load-param to the singleton of the i-th parameter type, where the
    parameter types are the declaring class, for a method that is not
    static, and then the declared argument types; every other register is
    unbound. The load-params are taken to write distinct registers. *)
Theorem gen_env_binds_the_parameters m code env :
  get_code m = Some code →
  gen_env m = Some env →
  NoDup (dest <$> get_param_instructions code) →
  let types :=
    (if is_static (m_ref m) then [] else [get_class m]) ++
    get_args (get_proto m) in
  length (get_param_instructions code) = length types ∧
  env_is_bottom env = false ∧
  (∀ i insn t,
     get_param_instructions code !! i = Some insn →
     types !! i = Some t →
     env_get env (dest insn) = EnumTypes_of t) ∧
  (∀ r, r ∉ (dest <$> get_param_instructions code) →
        env_get env r = Bottom).
Proof.
  intros Hc Hg Hnd types.
  assert (length (get_param_instructions code)
          = length (get_args (get_proto m)) +
            (if is_static (m_ref m) then 0 else 1)) as Hlen.
  { destruct (decide (length (get_param_instructions code)
                      = length (get_args (get_proto m)) +
                        (if is_static (m_ref m) then 0 else 1)))
      as [?|Hne]; [done|].
    unfold gen_env in Hg. rewrite Hc in Hg. simpl in Hg.
    apply Nat.eqb_neq in Hne.
    destruct (is_static (m_ref m)); simpl in *; by rewrite Hne in Hg. }
  assert (length (get_param_instructions code) = length types) as Hlen'.
  { unfold types. rewrite length_app, Hlen.
    destruct (is_static (m_ref m)); simpl; lia. }
  rewrite (gen_env_eq m code Hc Hlen) in Hg. injection Hg as <-.
  fold types.
  assert ((zip (get_param_instructions code) types).*1
          = get_param_instructions code) as Hfst
    by (apply fst_zip; lia).
  split; [done|]. split; [|split].
  - generalize (zip (get_param_instructions code) types).
    assert (∀ l env0, env_is_bottom env0 = false →
      env_is_bottom
        (foldl (λ env (pt : IRInstruction * DexType),
                  env_set (dest pt.1) (EnumTypes_of pt.2) env) env0 l)
      = false) as Hnb.
    { induction l as [|x l IH]; intros env0 H0; [done|]. simpl.
      apply IH. by rewrite env_set_is_bottom. }
    intros l. by apply Hnb.
  - intros i insn t Hi Ht.
    apply (bind_parameters_lookup _ _ i); [done|by rewrite Hfst|].
    unfold zip. apply lookup_zip_with_Some. by exists insn, t.
  - intros r Hr. rewrite bind_parameters_other by (by rewrite Hfst).
    done.
Qed.

(** ** More on the driver *)

(** X19. The walk over the fields: a type is rejected by it exactly when it
    is a candidate and the type, or for an array the element type, of a
    field that cannot be renamed and that is not declared in a candidate
    class. The walk logs nothing. *)
Theorem field_walk_rejections (C : gset DexType) (fields : list DexField) st :
  (∀ x, x ∈ rejected_enums
              (foldl (λ st field, field_prefilter C field st) st fields)
        ↔ x ∈ rejected_enums st ∨
          ∃ f, f ∈ fields ∧
               (field_class (f_ref f) ∉ C) ∧
               element_type (field_type (f_ref f)) = Some x ∧
               x ∈ C ∧ can_rename (f_rstate f) = false) ∧
  reject_trace (foldl (λ st field, field_prefilter C field st) st fields)
  = reject_trace st.
Proof.
  split.
  - intros x.
    apply (foldl_rejected (λ st f, field_prefilter C f st) (field_rejects C)).
    intros. apply field_prefilter_rejected.
  - revert st. induction fields as [|f fields IH]; intros st; [done|].
    simpl. rewrite IH. unfold field_prefilter.
    by repeat case_match.
Qed.

Lemma for_each_elem {A S} (f : A → S → option S) (R : S → S → Prop) l x :
  (∀ s, R s s) →
  (∀ s1 s2 s3, R s1 s2 → R s2 s3 → R s1 s3) →
  (∀ y s s', f y s = Some s' → R s s') →
  x ∈ l →
  ∀ s s', for_each f l s = Some s' →
          ∃ s1 s2, f x s1 = Some s2 ∧ R s s1 ∧ R s2 s'.
Proof.
  intros Hrefl Htrans Hstep. induction l as [|y l IH]; intros Hx s s' H.
  - by apply elem_of_nil in Hx.
  - simpl in H. destruct (f y s) as [sy|] eqn:Ey; [|done]. simpl in H.
    apply elem_of_cons in Hx as [->|Hx].
    + exists s, sy. split; [done|]. split; [done|].
      clear IH Ey. revert sy H.
      induction l as [|z l IHl]; intros sy H; simpl in H.
      * injection H as <-. done.
      * destruct (f z sy) as [sz|] eqn:Ez; [|done]. simpl in H.
        eapply Htrans; [by eapply Hstep|by apply IHl].
    + destruct (IH Hx sy s' H) as (s1 & s2 & H1 & H2 & H3).
      exists s1, s2. split; [done|]. split; [|done].
      eapply Htrans; [by eapply Hstep|done].
Qed.

Lemma not_generated_whatever_is_rejected type_class (C R : gset DexType) m :
  is_generated_enum_method type_class C ∅ m = false →
  is_generated_enum_method type_class C R m = false.
Proof.
  unfold is_generated_enum_method, count.
  rewrite (bool_decide_eq_false_2 (get_class m ∈ (∅ : gset DexType)))
    by set_solver.
  destruct (count_unsafe C (get_class m)); [|done]. simpl.
  intros ->. by rewrite andb_false_r.
Qed.

(** X20. What the pre-filters reject stays rejected. When the pass returns,
    its result is within the candidate set, and it holds no type that a
    field rejects, and no type that the proto of a method rejects unless
    the method is a generated method of a candidate enum. *)
Theorem prefilter_rejections_are_final
    type_class engine_run (C : gset DexType) classes result :
  reject_unsafe_enums type_class engine_run classes C = Some result →
  result ⊆ C ∧
  (∀ f x, f ∈ walk_fields classes → field_rejects C f x → x ∉ result) ∧
  (∀ m x, m ∈ walk_methods classes →
          is_generated_enum_method type_class C ∅ m = false →
          proto_rejects C m x → x ∉ result).
Proof.
  unfold reject_unsafe_enums. intros H.
  destruct (collect_rejections type_class engine_run classes C)
    as [st|] eqn:Hst; [|done].
  simpl in H. injection H as <-. rewrite erase_rejected_eq.
  split; [set_solver|]. unfold collect_rejections in Hst.
  set (st0 := foldl (λ st field, field_prefilter C field st) no_rejections
                    (walk_fields classes)) in *.
  split.
  - intros f x Hf Hx.
    assert (x ∈ rejected_enums st0) as H0.
    { unfold st0.
      apply (foldl_rejected (λ st f, field_prefilter C f st)
               (field_rejects C));
        [intros; apply field_prefilter_rejected|]. right. by exists f. }
    apply (for_each_grows C) in Hst;
      [|apply analyze_method_grows]. destruct Hst as [Hsub _]. set_solver.
  - intros m x Hm Hng Hx.
    destruct (for_each_elem (analyze_method type_class engine_run C)
                (grows_within C) (walk_methods classes) m
                (grows_refl C) (grows_trans C)
                (analyze_method_grows type_class engine_run C) Hm _ _ Hst)
      as (s1 & s2 & Hstep & _ & [Hsub _]).
    assert (x ∈ rejected_enums s2) as H2; [|set_solver].
    unfold analyze_method in Hstep.
    rewrite (not_generated_whatever_is_rejected _ _ _ _ Hng) in Hstep.
    assert (x ∈ rejected_enums (method_prefilter C m s1)) as Hp
      by (apply method_prefilter_rejected; by right).
    destruct (negb _); [by injection Hstep as <-|].
    repeat option_step Hstep.
    apply run_grows in Hstep as [Hsub' _]. set_solver.
Qed.

(** X21. With no candidate the pass has nothing to do: whatever the classes
    and the engine are, it returns the empty set and does not abort. *)
Theorem no_candidates_no_analysis type_class engine_run classes :
  reject_unsafe_enums type_class engine_run classes ∅ = Some ∅.
Proof.
  destruct (collect_rejections_insensitive type_class engine_run ∅ classes)
    as (st & Hst & _).
  - intros m _. split; [done|].
    destruct (need_analyze m ∅ ∅) eqn:E; [|done].
    apply need_analyze_true_iff in E
      as (_ & t & e & _ & _ & He & _). set_solver.
  - unfold reject_unsafe_enums. rewrite Hst. simpl.
    rewrite erase_rejected_eq. f_equal. set_solver.
Qed.

Lemma run_block_grows type_class (C : gset DexType) m eng block st st' :
  run_block type_class m C eng block st = Some st' → grows_within C st st'.
Proof.
  intros H.
  apply (run_grows type_class C m eng {| blocks := [block]; entry_block := 0 |}).
  unfold run. simpl. by rewrite H.
Qed.

Lemma elem_of_IRCode_gather_types code block insn t :
  block ∈ blocks (build_cfg code) →
  insn ∈ block_insns block →
  t ∈ IRInstruction_gather_types insn →
  t ∈ IRCode_gather_types code.
Proof.
  intros Hb Hi Ht. unfold IRCode_gather_types.
  apply list_elem_of_In, in_concat.
  exists (concat (map IRInstruction_gather_types (block_insns block))).
  split.
  - apply in_map_iff. exists block. split; [done|]. by apply list_elem_of_In.
  - apply in_concat. exists (IRInstruction_gather_types insn).
    split; [|by apply list_elem_of_In].
    apply in_map_iff. exists insn. split; [done|]. by apply list_elem_of_In.
Qed.

(** X22. A class literal ends the candidacy of its class. When the pass
    returns, its result does not hold the class type named by a const-class
    that stands in a block with a reachable entry state, in the code of a
    method that is not a generated method of a candidate enum. *)
Theorem const_class_in_reachable_code_rejects
    type_class engine_run (C : gset DexType) classes result
    m code block insn t :
  reject_unsafe_enums type_class engine_run classes C = Some result →
  m ∈ walk_methods classes →
  is_generated_enum_method type_class C ∅ m = false →
  get_code m = Some code →
  block ∈ blocks (build_cfg code) →
  insn ∈ block_insns block →
  opcode insn = OPCODE_CONST_CLASS →
  get_type insn = Some t →
  is_array t = false →
  (∀ env0 eng,
     gen_env m = Some env0 →
     engine_run (build_cfg code) env0 = Some eng →
     env_is_bottom (eng block) = false) →
  t ∉ result.
Proof.
  unfold reject_unsafe_enums.
  intros H Hm Hng Hcode Hblock Hinsn Hop Ht Harr Hreach.
  destruct (collect_rejections type_class engine_run classes C)
    as [st|] eqn:Hst; [|done].
  simpl in H. injection H as <-. rewrite erase_rejected_eq.
  destruct (decide (t ∈ C)) as [Hc|Hc]; [|set_solver].
  assert (t ∈ rejected_enums st) as Hin; [|set_solver].
  unfold collect_rejections in Hst.
  destruct (for_each_elem (analyze_method type_class engine_run C)
              (grows_within C) (walk_methods classes) m
              (grows_refl C) (grows_trans C)
              (analyze_method_grows type_class engine_run C) Hm _ _ Hst)
    as (s1 & s2 & Hstep & _ & [Hsub _]).
  apply Hsub. clear Hsub Hst.
  unfold analyze_method in Hstep.
  rewrite (not_generated_whatever_is_rejected _ _ _ _ Hng) in Hstep.
  destruct (need_analyze m C (rejected_enums (method_prefilter C m s1)))
    eqn:Hna; simpl in Hstep.
  - destruct (gen_env m) as [env0|] eqn:Hgen; [|done]. simpl in Hstep.
    rewrite Hcode in Hstep. simpl in Hstep.
    destruct (engine_run (build_cfg code) env0) as [eng|] eqn:Heng; [|done].
    simpl in Hstep. specialize (Hreach env0 eng eq_refl Heng).
    unfold run in Hstep.
    destruct (for_each_elem (run_block type_class m C eng)
                (grows_within C) (blocks (build_cfg code)) block
                (grows_refl C) (grows_trans C)
                (run_block_grows type_class C m eng) Hblock _ _ Hstep)
      as (sa & sb & Hrb & _ & [Hsub _]).
    apply Hsub. clear Hsub Hstep.
    unfold run_block in Hrb. rewrite Hreach in Hrb.
    match type of Hrb with
    | snd <$> ?o = _ => destruct o as [[e' sb']|] eqn:Hloop; [|done]
    end.
    simpl in Hrb. injection Hrb as ->.
    match type of Hloop with
    | for_each ?f _ _ = _ => set (step := f) in *
    end.
    assert (∀ y s s', step y s = Some s' → grows_within C s.2 s'.2)
      as Hstepg.
    { intros y [e1 x1] [e2 x2] Hy. unfold step in Hy. simpl in *.
      destruct (analyze_instruction y e1); [|done]. simpl in Hy.
      destruct (process_instruction _ _ _ _ _ _) eqn:Hpi; [|done].
      simpl in Hy. injection Hy as _ <-.
      by eapply process_instruction_grows. }
    destruct (for_each_elem step
                (λ a b : EnumTypeEnvironment * RejectState,
                   grows_within C a.2 b.2)
                (block_insns block) insn
                (λ a, grows_refl C a.2)
                (λ a b c, grows_trans C a.2 b.2 c.2)
                Hstepg Hinsn _ _ Hloop)
      as ([ea sx] & [eb sy] & Hone & _ & [Hsub _]).
    unfold step in Hone.
    simpl in *. apply Hsub.
    destruct (analyze_instruction insn ea) as [e1|]; [|done].
    simpl in Hone. unfold process_instruction in Hone.
    rewrite Hop, Ht in Hone. simpl in Hone. injection Hone as _ <-.
    rewrite reject_rejected, decide_True by done. set_solver.
  - injection Hstep as <-.
    destruct (decide (t ∈ rejected_enums (method_prefilter C m s1)))
      as [?|Hnot]; [done|].
    assert (need_analyze m C (rejected_enums (method_prefilter C m s1))
            = true) as Hyes; [|congruence].
    apply need_analyze_true_iff. split; [by eexists|].
    exists t, t. split; [|split; [|done]].
    + apply elem_of_app. right. unfold DexMethod_gather_types.
      rewrite Hcode. apply elem_of_app. right.
      apply (elem_of_IRCode_gather_types code block insn);
        [done|done|].
      unfold IRInstruction_gather_types. rewrite Ht.
      apply elem_of_app. left. by apply list_elem_of_singleton.
    + unfold element_type. by rewrite Harr.
Qed.

(** ** The order of the classes *)

Section Oblivious.

Variable C : gset DexType.

Lemma adds_id : adds (λ st, st).
Proof. exists ∅. intros st. set_solver. Qed.

Lemma adds_compose f g : adds f → adds g → adds (λ st, g (f st)).
Proof.
  intros [D1 H1] [D2 H2]. exists (D1 ∪ D2). intros st.
  rewrite H2, H1. set_solver.
Qed.

Lemma adds_reject t reason : adds (reject C t reason).
Proof.
  exists (if decide (t ∈ C) then {[ t ]} else ∅). intros st.
  rewrite reject_rejected. case_decide; set_solver.
Qed.

Lemma adds_reject_each ts reason : adds (reject_each C ts reason).
Proof. eexists. intros st. apply reject_each_rejected. Qed.

Lemma adds_reject_set X reason : adds (reject_set C X reason).
Proof. eexists. intros st. apply reject_set_rejected. Qed.

Lemma adds_reject_types V reason : adds (reject_types C V reason).
Proof. eexists. intros st. apply reject_types_rejected. Qed.

Lemma adds_reject_if_inconsistent V R reason :
  adds (reject_if_inconsistent C V R reason).
Proof.
  destruct (decide (R ∈ C)) as [HR|HR].
  - destruct (decide (filter (is_other R) (EnumTypes_elements V) = []))
      as [E|E].
    + exists ∅. intros st.
      rewrite reject_if_inconsistent_eq, decide_True by done. simpl.
      rewrite decide_True by done. rewrite E. simpl. set_solver.
    + exists (list_to_set (filter (is_other R) (EnumTypes_elements V)) ∩ C
              ∪ {[ R ]}).
      intros st.
      rewrite reject_if_inconsistent_eq, decide_True by done. simpl.
      rewrite decide_False by done.
      rewrite reject_rejected, decide_True by done.
      rewrite reject_each_rejected. set_solver.
  - eexists. intros st.
    rewrite reject_if_inconsistent_eq, decide_False by done.
    apply reject_each_rejected.
Qed.

Lemma adds_foldl {A} (f : RejectState → A → RejectState) l :
  (∀ a, adds (λ st, f st a)) → adds (λ st, foldl f st l).
Proof.
  intros Hf. induction l as [|a l IH]; simpl; [apply adds_id|].
  apply (adds_compose (λ st, f st a) (λ st, foldl f st l)); auto.
Qed.

Lemma oblivious_None : oblivious (λ _, None).
Proof. by left. Qed.

Lemma oblivious_Some f : adds f → oblivious (λ st, Some (f st)).
Proof. intros Hf. right. by exists f. Qed.

Lemma oblivious_id : oblivious (λ st, Some st).
Proof. apply (oblivious_Some (λ st, st)), adds_id. Qed.

Lemma oblivious_ext F G : (∀ st, F st = G st) → oblivious F → oblivious G.
Proof.
  intros E [Hn|(f & Hf & Hs)].
  - left. intros st. by rewrite <- E.
  - right. exists f. split; [done|]. intros st. by rewrite <- E.
Qed.

Lemma oblivious_after f G : adds f → oblivious G → oblivious (λ st, G (f st)).
Proof.
  intros Hf [Hn|(g & Hg & Hs)].
  - left. intros st. apply Hn.
  - right. exists (λ st, g (f st)). split; [by apply adds_compose|].
    intros st. apply Hs.
Qed.

Lemma oblivious_bind F G :
  oblivious F → oblivious G → oblivious (λ st, F st ≫= G).
Proof.
  intros [Hn|(f & Hf & Hs)] HG.
  - left. intros st. by rewrite Hn.
  - apply (oblivious_ext (λ st, G (f st))).
    + intros st. by rewrite Hs.
    + by apply oblivious_after.
Qed.

Lemma for_each_oblivious {A} (F : A → RejectState → option RejectState) l :
  (∀ a, oblivious (F a)) → oblivious (for_each F l).
Proof.
  intros HF. induction l as [|a l IH].
  - apply (oblivious_ext (λ st, Some st)); [done|apply oblivious_id].
  - apply (oblivious_ext (λ st, F a st ≫= for_each F l)); [done|].
    by apply oblivious_bind.
Qed.

Lemma process_general_invocation_oblivious insn env :
  oblivious (process_general_invocation C insn env).
Proof.
  unfold process_general_invocation.
  destruct (get_method insn) as [method|]; simpl; [|apply oblivious_None].
  destruct (negb _); [apply oblivious_None|].
  set (first := λ st,
         if negb (bool_decide (opcode insn = OPCODE_INVOKE_STATIC)) &&
            count_unsafe C (spec_cls (m_spec method))
         then reject C (spec_cls (m_spec method))
                     UNSAFE_INVOCATION_ON_CANDIDATE_ENUM st
         else st).
  assert (adds first) as Hfirst.
  { unfold first. destruct (_ && _); [apply adds_reject|apply adds_id]. }
  destruct (length (srcs insn)
            =? length (get_args (spec_proto (m_spec method))) + 1).
  - destruct (src insn 0) as [r|]; simpl; [|apply oblivious_None].
    apply oblivious_Some.
    apply (adds_compose
             (λ st, reject_if_inconsistent C (env_get env r)
                      (spec_cls (m_spec method)) CAST_THIS_POINTER (first st))
             (λ st, foldl _ st _)).
    + apply (adds_compose first
               (reject_if_inconsistent C (env_get env r)
                  (spec_cls (m_spec method)) CAST_THIS_POINTER));
        [done|apply adds_reject_if_inconsistent].
    + apply adds_foldl. intros a. apply adds_reject_if_inconsistent.
  - simpl. apply oblivious_Some.
    apply (adds_compose first (λ st, foldl _ st _)); [done|].
    apply adds_foldl. intros a. apply adds_reject_if_inconsistent.
Qed.

Variable type_class : DexType → option DexClass.
Variable m_method : DexMethod.

Lemma process_direct_invocation_oblivious insn env :
  oblivious (process_direct_invocation C insn env).
Proof.
  unfold process_direct_invocation.
  destruct (negb _); [apply oblivious_None|].
  destruct (get_method insn) as [method|]; simpl; [|apply oblivious_None].
  destruct (count_unsafe _ _); [apply oblivious_None|].
  apply process_general_invocation_oblivious.
Qed.

Lemma process_static_invocation_oblivious insn env :
  oblivious (process_static_invocation type_class C insn env).
Proof.
  unfold process_static_invocation.
  destruct (negb _); [apply oblivious_None|].
  destruct (get_method insn) as [method|]; simpl; [|apply oblivious_None].
  destruct (_ && _); [apply oblivious_id|].
  apply process_general_invocation_oblivious.
Qed.

Lemma process_virtual_invocation_oblivious insn env :
  oblivious (process_virtual_invocation C insn env).
Proof.
  unfold process_virtual_invocation.
  destruct (negb _); [apply oblivious_None|].
  destruct (get_method insn) as [method|]; simpl; [|apply oblivious_None].
  destruct (_ || _).
  - destruct (src insn 0) as [r0|]; simpl; [|apply oblivious_None].
    destruct (_ || _).
    + destruct (src insn 1) as [r1|]; simpl; [|apply oblivious_None].
      destruct (multiple_types _ _); [|apply oblivious_id].
      apply oblivious_Some.
      apply (adds_compose (reject_set C _ CAST_THIS_POINTER)
                          (reject_set C _ CAST_PARAMETER));
        apply adds_reject_set.
    + destruct (_ || _).
      * destruct (1 <? _); [|apply oblivious_id].
        apply oblivious_Some, adds_reject_set.
      * apply process_general_invocation_oblivious.
  - destruct (bool_decide _).
    + destruct (src insn 1) as [r1|]; simpl; [|apply oblivious_None].
      destruct (1 <? _); [|apply oblivious_id].
      apply oblivious_Some, adds_reject_set.
    + apply process_general_invocation_oblivious.
Qed.

Lemma process_return_object_oblivious insn env :
  oblivious (process_return_object m_method C insn env).
Proof.
  unfold process_return_object.
  destruct (src insn 0) as [r|]; simpl; [|apply oblivious_None].
  destruct (negb _); [apply oblivious_None|].
  apply oblivious_Some, adds_reject_if_inconsistent.
Qed.

Lemma process_isput_object_oblivious insn env :
  oblivious (process_isput_object C insn env).
Proof.
  unfold process_isput_object.
  destruct (src insn 0) as [r|]; simpl; [|apply oblivious_None].
  destruct (get_field insn) as [field|]; simpl; [|apply oblivious_None].
  apply oblivious_Some, adds_reject_if_inconsistent.
Qed.

Lemma process_aput_object_oblivious insn env :
  oblivious (process_aput_object C insn env).
Proof.
  unfold process_aput_object.
  destruct (src insn 1) as [r1|]; simpl; [|apply oblivious_None].
  destruct (src insn 0) as [r0|]; simpl; [|apply oblivious_None].
  destruct (1 <? _).
  - apply oblivious_Some.
    apply (adds_compose (reject_types C _ CAST_APUT_OBJECT)
                        (reject_set C _ CAST_APUT_OBJECT));
      [apply adds_reject_types|apply adds_reject_set].
  - destruct (_ =? 1); [|apply oblivious_id].
    destruct (head _) as [acceptable_type|]; simpl; [|apply oblivious_None].
    apply oblivious_Some, adds_reject_if_inconsistent.
Qed.

Lemma process_instruction_oblivious insn env :
  oblivious (process_instruction type_class m_method C insn env).
Proof.
  unfold process_instruction.
  destruct (opcode insn);
    first [ apply oblivious_id
          | apply process_general_invocation_oblivious
          | apply process_direct_invocation_oblivious
          | apply process_static_invocation_oblivious
          | apply process_virtual_invocation_oblivious
          | apply process_return_object_oblivious
          | apply process_aput_object_oblivious
          | apply process_isput_object_oblivious
          | idtac ].
  - destruct (get_type insn) as [type|]; simpl; [|apply oblivious_None].
    apply oblivious_Some, adds_reject.
  - destruct (src insn 0) as [r|]; simpl; [|apply oblivious_None].
    destruct (get_type insn) as [type|]; simpl; [|apply oblivious_None].
    apply oblivious_Some, adds_reject_if_inconsistent.
  - destruct (get_field insn) as [field|]; simpl; [|apply oblivious_None].
    destruct (count_unsafe _ _); [apply oblivious_None|apply oblivious_id].
  - destruct (get_field insn) as [field|]; simpl; [|apply oblivious_None].
    destruct (count_unsafe _ _); [apply oblivious_None|].
    apply process_isput_object_oblivious.
Qed.

Lemma run_block_oblivious get_entry_state_at block :
  oblivious (run_block type_class m_method C get_entry_state_at block).
Proof.
  unfold run_block.
  destruct (env_is_bottom _); [apply oblivious_id|].
  generalize (get_entry_state_at block) as env.
  induction (block_insns block) as [|insn insns IH]; intros env.
  - apply oblivious_id.
  - simpl.
    destruct (analyze_instruction insn env) as [env1|]; simpl;
      [|apply oblivious_None].
    destruct (process_instruction_oblivious insn env1)
      as [Hn|(f & Hf & Hs)].
    + left. intros st. by rewrite Hn.
    + eapply oblivious_ext; [|exact (oblivious_after f _ Hf (IH env1))].
      intros st. simpl. by rewrite Hs.
Qed.

Lemma run_oblivious get_entry_state_at cfg :
  oblivious (run type_class m_method C get_entry_state_at cfg).
Proof.
  unfold run. apply for_each_oblivious. intros block.
  apply run_block_oblivious.
Qed.

End Oblivious.

Lemma elem_of_named_types m x :
  x ∈ named_types m
  ↔ ∃ t, t ∈ DexProto_gather_types (get_proto m) ++ DexMethod_gather_types m ∧
         element_type t = Some x.
Proof. unfold named_types. by rewrite elem_of_list_to_set, list_elem_of_omap. Qed.

Lemma need_analyze_less_rejected m (C R R' : gset DexType) :
  R ⊆ R' → need_analyze m C R' = true → need_analyze m C R = true.
Proof.
  rewrite !need_analyze_true_iff.
  intros Hsub (Hc & t & e & Ht & He & HeC & HeR).
  split; [done|]. exists t, e. repeat split; try done. set_solver.
Qed.

Lemma need_analyze_false_named m (C R : gset DexType) :
  need_analyze m C R = false → is_Some (get_code m) →
  named_types m ∩ C ⊆ R.
Proof.
  intros Hn Hc x [Hx HxC]%elem_of_intersection.
  destruct (decide (x ∈ R)) as [|HxR]; [done|]. exfalso.
  apply elem_of_named_types in Hx as (t & Ht & He).
  assert (need_analyze m C R = true) as Ha
    by (apply need_analyze_true_iff; split; [done|]; by exists t, x).
  congruence.
Qed.

Lemma is_generated_enum_method_rejected type_class (C R : gset DexType) m :
  is_generated_enum_method type_class C R m
  = is_generated_enum_method type_class C ∅ m && negb (count R (get_class m)).
Proof.
  unfold is_generated_enum_method, count.
  rewrite (bool_decide_eq_false_2 (get_class m ∈ (∅ : gset DexType)))
    by set_solver.
  destruct (count_unsafe C (get_class m)),
    (bool_decide (get_class m ∈ R)); simpl;
    by rewrite ?andb_false_r, ?andb_true_r.
Qed.

Lemma method_prefilter_adds (C : gset DexType) m st :
  rejected_enums (method_prefilter C m st)
  = rejected_enums st ∪ proto_rejections C m.
Proof.
  apply leibniz_equiv. intros x. unfold proto_rejections.
  rewrite elem_of_union, !method_prefilter_rejected.
  unfold no_rejections. simpl. set_solver.
Qed.

Lemma elem_of_field_rejections (C : gset DexType) classes x :
  x ∈ field_rejections C classes
  ↔ ∃ f, f ∈ walk_fields classes ∧ field_rejects C f x.
Proof.
  unfold field_rejections.
  rewrite (foldl_rejected (λ st f, field_prefilter C f st) (field_rejects C))
    by (intros; apply field_prefilter_rejected).
  unfold no_rejections. simpl. set_solver.
Qed.

Lemma elem_of_walk_methods_perm (classes classes' : list DexClass) m :
  classes ≡ₚ classes' → m ∈ walk_methods classes ↔ m ∈ walk_methods classes'.
Proof.
  intros Hp. unfold walk_methods. rewrite !elem_of_flat_map.
  by setoid_rewrite Hp.
Qed.

Lemma field_rejections_perm (C : gset DexType) (classes classes' : list DexClass) :
  classes ≡ₚ classes' → field_rejections C classes = field_rejections C classes'.
Proof.
  intros Hp. apply leibniz_equiv. intros x.
  rewrite !elem_of_field_rejections. unfold walk_fields.
  setoid_rewrite elem_of_flat_map. by setoid_rewrite Hp.
Qed.

Section OrderOfTheClasses.

Variable type_class : DexType → option DexClass.
Variable engine_run :
  ControlFlowGraph → EnumTypeEnvironment →
  option (Block → EnumTypeEnvironment).
Variable C : gset DexType.

Lemma analyze_method_detect m st :
  analyze_method type_class engine_run C m st
  = if is_generated_enum_method type_class C (rejected_enums st) m
    then Some st
    else if need_analyze m C (rejected_enums (method_prefilter C m st))
         then detect type_class engine_run C m (method_prefilter C m st)
         else Some (method_prefilter C m st).
Proof.
  unfold analyze_method, detect.
  destruct (is_generated_enum_method _ _ _ _); [done|].
  by destruct (need_analyze _ _ _).
Qed.

Lemma detect_oblivious m : oblivious (detect type_class engine_run C m).
Proof.
  unfold detect.
  destruct (gen_env m) as [env|]; simpl; [|apply oblivious_None].
  destruct (get_code m) as [code|]; simpl; [|apply oblivious_None].
  destruct (engine_run _ _) as [engine|]; simpl; [|apply oblivious_None].
  apply run_oblivious.
Qed.

(** the detector aborts in every state or in none, and inserts the same
    types in every state *)
Lemma detect_adds m st st' :
  detect type_class engine_run C m st = Some st' →
  ∃ D, ∀ s, ∃ s', detect type_class engine_run C m s = Some s' ∧
                  rejected_enums s' = rejected_enums s ∪ D.
Proof.
  intros H. destruct (detect_oblivious m) as [Hn|(f & [D HD] & Hf)].
  - rewrite Hn in H. done.
  - exists D. intros s. exists (f s). by split.
Qed.

Lemma alone_state_not_generated m :
  is_generated_enum_method type_class C
    (rejected_enums (alone_state type_class C m)) m = false.
Proof.
  rewrite is_generated_enum_method_rejected. unfold alone_state.
  destruct (is_generated_enum_method type_class C ∅ m); [|done].
  simpl. unfold count. rewrite bool_decide_eq_true_2 by set_solver. done.
Qed.

Lemma alone_state_below m (R : gset DexType) :
  is_generated_enum_method type_class C R m = false →
  rejected_enums (alone_state type_class C m) ⊆ R.
Proof.
  rewrite is_generated_enum_method_rejected. unfold alone_state.
  destruct (is_generated_enum_method type_class C ∅ m); simpl;
    [|set_solver].
  rewrite negb_false_iff. unfold count. rewrite bool_decide_eq_true.
  set_solver.
Qed.

Lemma alone_eq m :
  alone type_class engine_run C m
  = let s := method_prefilter C m (alone_state type_class C m) in
    if need_analyze m C (rejected_enums s)
    then detect type_class engine_run C m s else Some s.
Proof.
  unfold alone. by rewrite analyze_method_detect, alone_state_not_generated.
Qed.

Lemma proto_rejections_alone m :
  proto_rejections C m ⊆ rejections_alone type_class engine_run C m.
Proof.
  unfold rejections_alone. rewrite alone_eq. simpl.
  pose proof (method_prefilter_adds C m (alone_state type_class C m)) as Hp.
  destruct (need_analyze _ _ _).
  - destruct (detect _ _ _ _ _) as [s'|] eqn:E; [|done].
    apply detect_adds in E as Hadds. destruct Hadds as [D HD].
    destruct (HD (method_prefilter C m (alone_state type_class C m)))
      as (s2 & E2 & H2).
    rewrite E in E2. injection E2 as <-. rewrite H2, Hp. set_solver.
  - rewrite Hp. set_solver.
Qed.

(** a step that is not the skip of a generated method *)
Lemma analyze_method_processed m st st' :
  is_generated_enum_method type_class C (rejected_enums st) m = false →
  analyze_method type_class engine_run C m st = Some st' →
  ∃ D,
    rejected_enums st' = rejected_enums st ∪ proto_rejections C m ∪ D ∧
    (D = ∅ ∧
     need_analyze m C (rejected_enums st ∪ proto_rejections C m) = false
     ∨ rejections_alone type_class engine_run C m
       = rejected_enums (alone_state type_class C m)
         ∪ proto_rejections C m ∪ D).
Proof.
  intros Hg H. rewrite analyze_method_detect, Hg in H.
  rewrite method_prefilter_adds in H.
  destruct (need_analyze _ _ _) eqn:N.
  - apply detect_adds in H as Hadds. destruct Hadds as [D HD].
    exists D. split.
    + destruct (HD (method_prefilter C m st)) as (s2 & E2 & H2).
      rewrite H in E2. injection E2 as <-.
      by rewrite H2, method_prefilter_adds.
    + right. unfold rejections_alone. rewrite alone_eq. simpl.
      rewrite method_prefilter_adds.
      assert (rejected_enums (alone_state type_class C m)
              ∪ proto_rejections C m
              ⊆ rejected_enums st ∪ proto_rejections C m) as Hsub
        by (pose proof (alone_state_below m _ Hg); set_solver).
      rewrite (need_analyze_less_rejected m C _ _ Hsub N).
      destruct (HD (method_prefilter C m (alone_state type_class C m)))
        as (s2 & E2 & H2).
      rewrite E2. by rewrite H2, method_prefilter_adds.
  - injection H as <-. exists ∅. rewrite method_prefilter_adds.
    split; [set_solver|]. left. done.
Qed.

Lemma rejections_alone_candidates m :
  is_generated_enum_method type_class C ∅ m = false →
  rejections_alone type_class engine_run C m ⊆ C.
Proof.
  intros G. unfold rejections_alone, alone, alone_state. rewrite G.
  destruct (analyze_method _ _ _ _ _) as [st|] eqn:E.
  - apply analyze_method_grows in E as [_ Hsub].
    unfold no_rejections in Hsub. simpl in Hsub. set_solver.
  - unfold proto_rejections.
    destruct (method_prefilter_grows C m no_rejections) as [_ Hsub].
    unfold no_rejections in Hsub. simpl in Hsub. set_solver.
Qed.

(** Each method adds its rejections to the rejected set, whatever has been
    rejected before. *)
Lemma analyze_method_rejections m st st' :
  rejects_only_named type_class engine_run C m →
  analyze_method type_class engine_run C m st = Some st' →
  rejected_enums st'
  = rejected_enums st ∪ method_rejections type_class engine_run C m.
Proof.
  unfold rejects_only_named, method_rejections. intros Hnamed H.
  pose proof (proto_rejections_alone m) as HP.
  destruct (is_generated_enum_method type_class C (rejected_enums st) m)
    eqn:Hg.
  { rewrite analyze_method_detect, Hg in H. injection H as <-.
    rewrite is_generated_enum_method_rejected in Hg.
    apply andb_prop in Hg as [-> _]. set_solver. }
  pose proof (alone_state_below m _ Hg) as Hbelow.
  destruct (analyze_method_processed m st st' Hg H) as (D & -> & HD).
  destruct (is_generated_enum_method type_class C ∅ m) eqn:G.
  - unfold alone_state in Hbelow. rewrite G in Hbelow. simpl in Hbelow.
    destruct HD as [[-> _]|HD]; [set_solver|].
    rewrite HD in Hnamed. set_solver.
  - destruct HD as [[-> N]|HD].
    + pose proof (rejections_alone_candidates m G) as HC.
      destruct (get_code m) as [code|] eqn:Hcode.
      * pose proof (need_analyze_false_named m C _ N) as Hsub.
        rewrite Hcode in Hsub. specialize (Hsub (mk_is_Some _ _ eq_refl)).
        set_solver.
      * assert (rejections_alone type_class engine_run C m
                = proto_rejections C m) as ->; [|set_solver].
        unfold rejections_alone. rewrite alone_eq. simpl.
        rewrite (need_analyze_no_code m _ _ Hcode).
        rewrite method_prefilter_adds. unfold alone_state. rewrite G.
        unfold no_rejections. simpl. set_solver.
    + rewrite HD. unfold alone_state. rewrite G.
      unfold no_rejections. simpl. set_solver.
Qed.

(** A method whose analysis returns when it is taken alone returns in every
    state. *)
Lemma analyze_method_returns m st :
  is_Some (alone type_class engine_run C m) →
  is_Some (analyze_method type_class engine_run C m st).
Proof.
  rewrite alone_eq, analyze_method_detect. simpl. intros Halone.
  destruct (is_generated_enum_method _ _ (rejected_enums st) _) eqn:Hg;
    [done|].
  destruct (need_analyze m C (rejected_enums (method_prefilter C m st)))
    eqn:N; [|done].
  assert (rejected_enums
            (method_prefilter C m (alone_state type_class C m))
          ⊆ rejected_enums (method_prefilter C m st)) as Hsub.
  { rewrite !method_prefilter_adds.
    pose proof (alone_state_below m _ Hg). set_solver. }
  rewrite (need_analyze_less_rejected m C _ _ Hsub N) in Halone.
  destruct Halone as [s Hs].
  apply detect_adds in Hs as [D HD].
  destruct (HD (method_prefilter C m st)) as (s2 & E2 & _).
  by rewrite E2.
Qed.

Lemma walk_methods_rejections ms st st' :
  (∀ m, m ∈ ms → rejects_only_named type_class engine_run C m) →
  for_each (analyze_method type_class engine_run C) ms st = Some st' →
  rejected_enums st'
  = rejected_enums st ∪ ⋃ (method_rejections type_class engine_run C <$> ms).
Proof.
  revert st. induction ms as [|m ms IH]; intros st Hall H; simpl in H.
  - injection H as <-. simpl. set_solver.
  - destruct (analyze_method _ _ _ m st) as [s1|] eqn:E; [|done].
    simpl in H. apply IH in H; [|intros m' Hm'; apply Hall; by right].
    apply analyze_method_rejections in E; [|apply Hall; left].
    rewrite H, E, fmap_cons, union_list_cons. set_solver.
Qed.

Lemma walk_methods_returns ms st :
  (∀ m, m ∈ ms → is_Some (alone type_class engine_run C m)) →
  is_Some (for_each (analyze_method type_class engine_run C) ms st).
Proof.
  revert st. induction ms as [|m ms IH]; intros st Hall; simpl; [done|].
  destruct (analyze_method_returns m st) as [s1 ->]; [apply Hall; left|].
  simpl. apply IH. intros m' Hm'. apply Hall. by right.
Qed.

Lemma collect_rejections_named classes st :
  (∀ m, m ∈ walk_methods classes →
        rejects_only_named type_class engine_run C m) →
  collect_rejections type_class engine_run classes C = Some st →
  rejected_enums st
  = field_rejections C classes
    ∪ ⋃ (method_rejections type_class engine_run C <$> walk_methods classes).
Proof. intros Hall H. by apply walk_methods_rejections in H. Qed.

Lemma method_rejections_perm (classes classes' : list DexClass) :
  classes ≡ₚ classes' →
  ⋃ (method_rejections type_class engine_run C <$> walk_methods classes)
  = ⋃ (method_rejections type_class engine_run C <$> walk_methods classes').
Proof.
  intros Hp. apply leibniz_equiv. intros x.
  rewrite !elem_of_union_list. setoid_rewrite list_elem_of_fmap.
  split; intros (X & (m & -> & Hm) & Hx); exists (method_rejections type_class engine_run C m);
    (split; [|done]); exists m; (split; [done|]);
    by apply (elem_of_walk_methods_perm _ _ m Hp).
Qed.

End OrderOfTheClasses.

(** C3. Order independence holds when each method rejects, taken on its own,
    only types that it names in its proto or its body, the types that
    [need_analyze] looks for, and each generated method ([<clinit>],
    [<init>], [values()], [valueOf(String)]) of a candidate enum rejects,
    once its enum is rejected, only that enum. Then the rejected set is the
    union of what the fields reject and of what each method rejects on its
    own, a generated method of a candidate enum adding nothing; two runs of
    the pass on permutations of the classes that both return give the same
    candidate set; and both return when the analysis of each method returns
    when the method is taken on its own. *)
Theorem reject_unsafe_enums_order_independent_when_rejections_are_named
    type_class engine_run C (classes classes' : list DexClass) :
  classes ≡ₚ classes' →
  (∀ m, m ∈ walk_methods classes →
        rejects_only_named type_class engine_run C m) →
  (∀ result result',
     reject_unsafe_enums type_class engine_run classes C = Some result →
     reject_unsafe_enums type_class engine_run classes' C = Some result' →
     result = result') ∧
  (∀ result,
     reject_unsafe_enums type_class engine_run classes C = Some result →
     result
     = C ∖ (field_rejections C classes
            ∪ ⋃ (method_rejections type_class engine_run C
                   <$> walk_methods classes))) ∧
  ((∀ m, m ∈ walk_methods classes →
         is_Some (alone type_class engine_run C m)) →
   ∃ result,
     reject_unsafe_enums type_class engine_run classes C = Some result ∧
     reject_unsafe_enums type_class engine_run classes' C = Some result).
Proof.
  intros Hp Hall.
  assert (∀ m, m ∈ walk_methods classes' →
               rejects_only_named type_class engine_run C m) as Hall'
    by (intros m Hm; by apply Hall, (elem_of_walk_methods_perm _ _ m Hp)).
  assert (∀ cs result,
    (∀ m, m ∈ walk_methods cs →
          rejects_only_named type_class engine_run C m) →
    reject_unsafe_enums type_class engine_run cs C = Some result →
    result
    = C ∖ (field_rejections C cs
           ∪ ⋃ (method_rejections type_class engine_run C
                  <$> walk_methods cs))) as Hchar.
  { intros cs result Hcs H. unfold reject_unsafe_enums in H.
    destruct (collect_rejections _ _ cs C) as [st|] eqn:E; [|done].
    simpl in H. injection H as <-. rewrite erase_rejected_eq.
    by rewrite (collect_rejections_named _ _ _ _ _ Hcs E). }
  assert (∀ result result',
    reject_unsafe_enums type_class engine_run classes C = Some result →
    reject_unsafe_enums type_class engine_run classes' C = Some result' →
    result = result') as Heq.
  { intros result result' H H'.
    rewrite (Hchar _ _ Hall H), (Hchar _ _ Hall' H').
    by rewrite (field_rejections_perm C _ _ Hp),
      (method_rejections_perm type_class engine_run C _ _ Hp). }
  split; [exact Heq|]. split; [intros result; by apply Hchar|].
  intros Hret.
  assert (∀ cs,
    (∀ m, m ∈ walk_methods cs → is_Some (alone type_class engine_run C m)) →
    is_Some (reject_unsafe_enums type_class engine_run cs C)) as Htotal.
  { intros cs Hcs. unfold reject_unsafe_enums, collect_rejections.
    destruct (walk_methods_returns type_class engine_run C (walk_methods cs)
                (foldl (λ st field, field_prefilter C field st) no_rejections
                       (walk_fields cs)) Hcs) as [st ->].
    done. }
  destruct (Htotal classes Hret) as [result H].
  destruct (Htotal classes') as [result' H'].
  { intros m Hm. by apply Hret, (elem_of_walk_methods_perm _ _ m Hp). }
  exists result. split; [done|]. by rewrite H', (Heq _ _ H H').
Qed.

(** ** The log *)

Lemma reject_sound (C : gset DexType) t reason st :
  trace_sound C st → trace_sound C (reject C t reason st).
Proof.
  intros H t' r'. rewrite reject_trace_eq, reject_rejected.
  case_decide.
  - rewrite elem_of_app, list_elem_of_singleton. intros [Hin|[= -> ->]].
    + destruct (H _ _ Hin). set_solver.
    + set_solver.
  - rewrite app_nil_r. apply H.
Qed.

Lemma rejected_insert_sound (C : gset DexType) t st :
  trace_sound C st → trace_sound C (rejected_insert t st).
Proof.
  intros H t' r' Hin. destruct (H _ _ Hin). simpl. set_solver.
Qed.

Lemma foldl_sound {A} (C : gset DexType)
    (f : RejectState → A → RejectState) l :
  (∀ x st, trace_sound C st → trace_sound C (f st x)) →
  ∀ st, trace_sound C st → trace_sound C (foldl f st l).
Proof.
  intros Hf. induction l as [|x l IH]; intros st H; [done|].
  simpl. apply IH. by apply Hf.
Qed.

Lemma reject_each_sound (C : gset DexType) ts reason st :
  trace_sound C st → trace_sound C (reject_each C ts reason st).
Proof. apply foldl_sound. intros. by apply reject_sound. Qed.

Lemma reject_if_inconsistent_sound (C : gset DexType) V R reason st :
  trace_sound C st → trace_sound C (reject_if_inconsistent C V R reason st).
Proof.
  intros H. rewrite reject_if_inconsistent_eq. cbv zeta.
  destruct (decide (R ∈ C)); [|by apply reject_each_sound].
  destruct (decide (_ = [])); [by apply reject_each_sound|].
  by apply reject_sound, reject_each_sound.
Qed.

Create HintDb sound discriminated.

#[local] Hint Resolve reject_sound reject_each_sound
  reject_if_inconsistent_sound : sound.

Lemma process_general_invocation_sound (C : gset DexType) insn env st st' :
  process_general_invocation C insn env st = Some st' →
  trace_sound C st → trace_sound C st'.
Proof.
  unfold process_general_invocation. intros H Hs.
  destruct (get_method insn) as [method|]; [|done]. simpl in H.
  match type of H with
  | context [if ?b then reject _ ?t ?r st else st] =>
      assert (trace_sound C (if b then reject C t r st else st)) as H0
        by (destruct b; auto with sound);
      generalize dependent (if b then reject C t r st else st)
  end.
  intros st0 H H0.
  destruct (negb _); [done|].
  match type of H with
  | (?m ≫= _) = _ => destruct m as [st1|] eqn:E1; [|done]
  end.
  simpl in H. injection H as <-.
  assert (trace_sound C st1) as H1.
  { destruct (_ =? _) in E1.
    - destruct (src insn 0); [|done]. simpl in E1. injection E1 as <-.
      auto with sound.
    - by injection E1 as <-. }
  apply foldl_sound; [|done]. intros [r t] s ?. auto with sound.
Qed.

Lemma process_instruction_sound
    type_class (C : gset DexType) m_method insn env st st' :
  process_instruction type_class m_method C insn env st = Some st' →
  trace_sound C st → trace_sound C st'.
Proof.
  unfold process_instruction. intros H Hs.
  destruct (opcode insn);
    try (by injection H as <-);
    try (by eapply process_general_invocation_sound);
    unfold process_direct_invocation, process_static_invocation,
      process_virtual_invocation, process_aput_object,
      process_return_object, process_isput_object,
      reject_set, reject_types in H;
    repeat option_step H;
    eauto using process_general_invocation_sound with sound.
Qed.

Lemma for_each_preserves {A S} (f : A → S → option S) (P : S → Prop) l :
  (∀ x s s', f x s = Some s' → P s → P s') →
  ∀ s s', for_each f l s = Some s' → P s → P s'.
Proof.
  intros Hf. induction l as [|x l IH]; intros s s' H Hs; simpl in H.
  - by injection H as <-.
  - destruct (f x s) as [s1|] eqn:E; [|done]. simpl in H.
    eapply IH; [exact H|]. by eapply Hf.
Qed.

Lemma run_sound type_class (C : gset DexType) m eng cfg st st' :
  run type_class m C eng cfg st = Some st' →
  trace_sound C st → trace_sound C st'.
Proof.
  unfold run. apply for_each_preserves. clear st st'.
  intros block st st'. unfold run_block.
  destruct (env_is_bottom _); [by intros [= <-]|].
  match goal with
  | |- snd <$> ?o = _ → _ => destruct o as [[e' sb]|] eqn:Hloop; [|done]
  end.
  simpl. intros [= <-] Hs.
  apply (for_each_preserves _
           (λ a : EnumTypeEnvironment * RejectState, trace_sound C a.2)
           _) in Hloop; [done| |done].
  intros insn [e1 x1] [e2 x2] Hy Hx. simpl in *.
  destruct (analyze_instruction insn e1); [|done]. simpl in Hy.
  destruct (process_instruction _ _ _ _ _ _) eqn:Hpi; [|done].
  simpl in Hy. injection Hy as _ <-.
  by eapply process_instruction_sound.
Qed.

Lemma prefilters_sound (C : gset DexType) :
  (∀ f st, trace_sound C st → trace_sound C (field_prefilter C f st)) ∧
  (∀ m st, trace_sound C st → trace_sound C (method_prefilter C m st)).
Proof.
  split.
  - intros f st H. unfold field_prefilter.
    repeat case_match; auto using rejected_insert_sound.
  - intros m st H. unfold method_prefilter. apply foldl_sound; [|done].
    intros t s Hs. repeat case_match; auto using rejected_insert_sound.
Qed.

(** X23. The log agrees with the rejected set: when the walks are done,
    every type logged as rejected, for whatever reason, is in the rejected
    set and is a candidate, so that it is not in the result of the pass. *)
Theorem logged_rejections_are_rejected
    type_class engine_run (C : gset DexType) classes st :
  collect_rejections type_class engine_run classes C = Some st →
  ∀ t reason,
    (t, reason) ∈ reject_trace st →
    t ∈ rejected_enums st ∧ t ∈ C ∧
    ∀ result,
      reject_unsafe_enums type_class engine_run classes C = Some result →
      t ∉ result.
Proof.
  intros Hst. 
  assert (trace_sound C st) as Hsound.
  { unfold collect_rejections in Hst.
    eapply (for_each_preserves _ (trace_sound C)); [|exact Hst|].
    - intros m s s' H Hs. unfold analyze_method in H.
      pose proof (proj2 (prefilters_sound C) m s Hs) as Hp.
      repeat option_step H; try done. by eapply run_sound.
    - apply foldl_sound; [intros; by apply (proj1 (prefilters_sound C))|].
      intros t r Hin. by apply elem_of_nil in Hin. }
  intros t reason Hin. destruct (Hsound t reason Hin) as [Hr Hc].
  split; [done|]. split; [done|].
  intros result Hres. unfold reject_unsafe_enums in Hres.
  rewrite Hst in Hres. simpl in Hres. injection Hres as <-.
  rewrite erase_rejected_eq. set_solver.
Qed.

(** * The theorems on the sample programs *)

Import Samples.

Lemma elem_of_candidates_E : "LE;" ∈ candidates.
Proof. apply (bool_decide_unpack _). vm_compute. exact I. Defined.

(** [v0.equals(v1)] with an [E] in [v0] and an [F] in [v1] *)
Lemma equals_compareTo_on_E_and_F :
  let this_types := discard_primitives (env_get env_EF 0%N) in
  let that_types := discard_primitives (env_get env_EF 1%N) in
  ∃ st',
    process_instruction type_class A_m candidates invoke_equals env_EF
      no_rejections = Some st' ∧
    (types_disagree this_types that_types →
       rejected_enums st'
       = rejected_enums no_rejections ∪ (this_types ∩ candidates) ∪
         (that_types ∩ candidates) ∧
       ∃ new,
         reject_trace st' = reject_trace no_rejections ++ new ∧
         ∀ x r, (x, r) ∈ new
                ↔ (r = CAST_THIS_POINTER ∧ x ∈ this_types ∩ candidates) ∨
                  (r = CAST_PARAMETER ∧ x ∈ that_types ∩ candidates)) ∧
    (¬ types_disagree this_types that_types → st' = no_rejections).
Proof.
  destruct (equals_compareTo_rejects_iff_types_disagree type_class A_m
              candidates invoke_equals
              (method_ref "LE;" "equals" ["Ljava/lang/Object;"] "Z" false)
              0%N 1%N env_EF no_rejections) as (_ & _ & H).
  - reflexivity.
  - reflexivity.
  - right. exact elem_of_candidates_E.
  - left. vm_compute. reflexivity.
  - reflexivity.
  - reflexivity.
  - exact H.
Defined.

(** [const-class LE;] in an environment without bindings *)
Lemma const_class_on_E :
  ∃ env',
    analyze_instruction const_class_E (EnvValue ∅) = Some env' ∧
    env_get env' RESULT_REGISTER = EnumTypes_of get_class_type ∧
    process_instruction type_class A_m candidates const_class_E env'
      no_rejections
    = Some {| rejected_enums := {[ "LE;" ]} ∪ ∅;
              reject_trace := [("LE;", USED_AS_CLASS_OBJECT)] |}.
Proof.
  destruct (const_class_binds_Class_and_rejects_operand type_class A_m
              candidates const_class_E "LE;" (EnvValue ∅) no_rejections)
    as (env' & Ha & Hr & _ & _ & Hp).
  - reflexivity.
  - reflexivity.
  - reflexivity.
  - reflexivity.
  - exists env'. split; [exact Ha|]. split; [exact Hr|].
    rewrite Hp. rewrite decide_True by exact elem_of_candidates_E.
    reflexivity.
Defined.

(** [aput-object] of an [E] into an array that is an [E[]] or an [F[]] *)
Lemma aput_object_into_E_or_F_array :
  ∃ st',
    process_instruction type_class A_m candidates aput_object_v0_v2 env_EF
      no_rejections = Some st' ∧
    (1 < size (acceptable_elem_types (env_get env_EF 2%N)) →
     rejected_enums st'
     = rejected_enums no_rejections ∪
       (list_to_set (EnumTypes_elements (env_get env_EF 0%N)) ∩ candidates) ∪
       (acceptable_elem_types (env_get env_EF 2%N) ∩ candidates)).
Proof.
  destruct (aput_object_rejections type_class A_m candidates
              aput_object_v0_v2 0%N 2%N env_EF no_rejections)
    as (_ & st' & Hp & Hmany & _).
  - reflexivity.
  - reflexivity.
  - reflexivity.
  - exists st'. split; [exact Hp|]. intros H. exact (proj1 (Hmany H)).
Defined.

(** [iput-object] of an [E] into the field [A.o] of type [Object] *)
Lemma iput_object_into_Object_field :
  process_instruction type_class A_m candidates iput_object_A_o env_EF
    no_rejections
  = (if decide (field_class A_o ∈ candidates) then None
     else r ← src iput_object_A_o 0;
          Some (reject_if_inconsistent candidates (env_get env_EF r)
                  (field_type A_o) CAST_ISPUT_OBJECT no_rejections)).
Proof.
  apply (iput_object_asserts_then_checks type_class A_m candidates
           iput_object_A_o A_o env_EF no_rejections).
  - reflexivity.
  - reflexivity.
Defined.

(** the pass on [A] and [E], in this order *)
Lemma rejections_on_A_then_E :
  collect_rejections type_class engine [class_A; class_E] candidates
  = Some {| rejected_enums := {[ "LE;"; "LF;" ]}; reject_trace := [] |} ∧
  {[ "LE;"; "LF;" ]} ⊆ candidates ∧
  reject_unsafe_enums type_class engine [class_A; class_E] candidates
  = Some (candidates ∖ {[ "LE;"; "LF;" ]}).
Proof.
  assert (collect_rejections type_class engine [class_A; class_E] candidates
          = Some {| rejected_enums := {[ "LE;"; "LF;" ]};
                    reject_trace := [] |}) as H
    by (vm_compute; reflexivity).
  split; [exact H|].
  destruct (rejections_are_candidates_and_pruned_once type_class engine
              candidates [class_A; class_E] _ H) as (H1 & _ & _ & H2).
  split; [exact H1|exact H2].
Defined.

(** the kept method [A.m], which has no code *)
Lemma A_m_is_only_prefiltered :
  get_code A_m = None ∧
  analyze_method type_class engine candidates A_m no_rejections
  = Some (if is_generated_enum_method type_class candidates
               (rejected_enums no_rejections) A_m
          then no_rejections
          else method_prefilter candidates A_m no_rejections).
Proof.
  split; [reflexivity|].
  apply (method_without_code_is_only_prefiltered type_class engine candidates
           A_m no_rejections).
  reflexivity.
Defined.

(** [A.isE] without its load-param: one argument, no load-param *)
Lemma broken_isE_aborts_the_pass :
  gen_env A_isE_broken = None ∧
  reject_unsafe_enums type_class engine [class_A_broken] candidates = None.
Proof.
  destruct (gen_env_asserts_load_param_count type_class engine candidates
              A_isE_broken
              {| get_param_instructions := [];
                 build_cfg := build_cfg A_isE_code |} eq_refl)
    as [Hgen Hpass].
  assert (length ([] : list IRInstruction)
          ≠ length (get_args (get_proto A_isE_broken)) +
            (if is_static (m_ref A_isE_broken) then 0 else 1)) as Hne
    by (vm_compute; lia).
  split.
  - apply Hgen. exact Hne.
  - apply (Hpass Hne [class_A_broken] [] [] no_rejections).
    + reflexivity.
    + reflexivity.
    + vm_compute. reflexivity.
    + vm_compute. reflexivity.
Defined.

(** A class literal of [E], a type test against [E] and the constructor of
    [E], in both orders: with the class literal first, [E] is rejected at
    once, the type test is not analysed and the constructor is; with the
    enum first, the constructor is passed over and the other two methods
    are analysed. *)
Lemma literal_test_and_constructor_in_both_orders :
  ∃ result,
    reject_unsafe_enums type_class engine [class_A_lit; class_H; class_E']
                        candidates = Some result ∧
    reject_unsafe_enums type_class engine [class_E'; class_H; class_A_lit]
                        candidates = Some result ∧
    result = {[ "LF;" ]}.
Proof.
  destruct (reject_unsafe_enums_order_independent_when_rejections_are_named
              type_class engine candidates
              [class_A_lit; class_H; class_E']
              [class_E'; class_H; class_A_lit])
    as (_ & Hresult & Hreturn).
  - apply (Permutation_rev [class_A_lit; class_H; class_E']).
  - intros m Hm. change (m ∈ [A_lit; H_isE; E_init']) in Hm.
    apply elem_of_cons in Hm as [->|Hm];
      [|apply elem_of_cons in Hm as [->|Hm];
        [|apply list_elem_of_singleton in Hm as ->]];
      apply (bool_decide_unpack _); vm_compute; exact I.
  - destruct Hreturn as (result & H & H').
    + intros m Hm. change (m ∈ [A_lit; H_isE; E_init']) in Hm.
      apply elem_of_cons in Hm as [->|Hm];
        [|apply elem_of_cons in Hm as [->|Hm];
          [|apply list_elem_of_singleton in Hm as ->]];
        apply (bool_decide_unpack _); vm_compute; exact I.
    + exists result. split; [exact H|]. split; [exact H'|].
      rewrite (Hresult result H). vm_compute. reflexivity.
Defined.

(** C3, as the claim has it, fails: with the kept method [A.m(E)] and the kept
    constructor [E(String, int, F)] of the enum [E], the class [A] first lets
    [E] be rejected before its constructor is met; the constructor is then no
    longer skipped and its proto rejects [F]. With [E] first the constructor
    is skipped and [F] stays a candidate. *)
Lemma reject_unsafe_enums_depends_on_class_order :
  [class_A; class_E] ≡ₚ [class_E; class_A] ∧
  reject_unsafe_enums type_class engine [class_A; class_E] candidates
  = Some ∅ ∧
  reject_unsafe_enums type_class engine [class_E; class_A] candidates
  = Some {[ "LF;" ]} ∧
  ¬ (∀ classes classes' : list DexClass,
       classes ≡ₚ classes' →
       reject_unsafe_enums type_class engine classes candidates
       = reject_unsafe_enums type_class engine classes' candidates).
Proof.
  split; [apply perm_swap|].
  split; [vm_compute; reflexivity|].
  split; [vm_compute; reflexivity|].
  intros H.
  specialize (H [class_A; class_E] [class_E; class_A] (perm_swap _ _ _)).
  vm_compute in H. discriminate H.
Qed.

(** The short-circuit makes the order matter as well: [F.foo] names the
    candidate [E] and upcasts [this]; it is analysed, and rejects [F], only
    as long as [E] has not been rejected. *)
Lemma need_analyze_depends_on_class_order :
  reject_unsafe_enums type_class engine [class_A; class_F] candidates
  = Some {[ "LF;" ]} ∧
  reject_unsafe_enums type_class engine [class_F; class_A] candidates
  = Some ∅.
Proof. split; vm_compute; reflexivity. Qed.

(** The two programs above are outside the order-independent ones: the kept
    constructor rejects [F], which is not its enum, and [F.foo] rejects [F],
    which it does not name. *)
Lemma order_dependent_methods_reject_other_types :
  ¬ rejects_only_named type_class engine candidates E_init ∧
  ¬ rejects_only_named type_class engine candidates F_foo.
Proof. split; apply (bool_decide_unpack _); vm_compute; exact I. Qed.

(** C4, as the claim has it, fails: the kept method [A.isE] names the
    candidate [E] in an instruction and not in its proto; its pre-filter does
    not reject [E], and neither does the pass. *)
Lemma method_prefilter_ignores_instruction_types :
  "LE;" ∈ DexMethod_gather_types A_isE ∧
  can_rename (m_rstate A_isE) = false ∧
  ("LE;" ∉ rejected_enums
             (method_prefilter candidates A_isE no_rejections)) ∧
  reject_unsafe_enums type_class engine [class_A'] candidates
  = Some candidates ∧
  ¬ (∀ (C : gset DexType) m st t x,
       t ∈ DexMethod_gather_types m →
       element_type t = Some x →
       x ∈ C → x ∉ rejected_enums st →
       can_rename (m_rstate m) = false →
       x ∈ rejected_enums (method_prefilter C m st)).
Proof.
  assert ("LE;" ∈ DexMethod_gather_types A_isE) as Hin
    by (apply (bool_decide_unpack _); vm_compute; exact I).
  assert ("LE;" ∉ rejected_enums
                    (method_prefilter candidates A_isE no_rejections)) as Hout
    by (apply (bool_decide_unpack _); vm_compute; exact I).
  split; [exact Hin|]. split; [reflexivity|]. split; [exact Hout|].
  split; [vm_compute; reflexivity|].
  intros H. apply Hout.
  apply (H candidates A_isE no_rejections "LE;" "LE;").
  - exact Hin.
  - reflexivity.
  - exact elem_of_candidates_E.
  - apply (bool_decide_unpack _). vm_compute. exact I.
  - reflexivity.
Qed.

(** ** More theorems on the sample programs *)

(** two calls that raise flags, in both orders *)
Lemma keep_name_and_by_string_in_both_orders :
  calls renameable [SetKeepName; RefByString]
  = calls renameable [RefByString; SetKeepName].
Proof.
  apply (raising_calls_in_any_order renameable [SetKeepName; RefByString]
           [RefByString; SetKeepName]).
  - apply perm_swap.
  - repeat constructor.
Defined.

(** [set_root] between [set_allowobfuscation] and [set_allowshrinking] *)
Lemma root_between_two_modifiers :
  allowobfuscation
    (calls renameable [SetAllowobfuscation; SetRoot; SetAllowshrinking])
  = false ∧
  allowshrinking
    (calls renameable [SetAllowobfuscation; SetRoot; SetAllowshrinking])
  = false.
Proof.
  destruct (unset_has_priority renameable [SetAllowobfuscation]
              [SetAllowshrinking] SetRoot) as [H1 H2].
  - right. right. reflexivity.
  - split; [apply H1; discriminate|apply H2].
    + discriminate.
    + repeat constructor. discriminate.
Defined.

(** [return-object v0] in a method that returns [void], with an [E] in
    [v0] *)
Lemma return_object_of_an_E :
  (process_instruction type_class A_m candidates return_object_v0 env_EF
     no_rejections = None
   ↔ env_get env_EF 0%N = Bottom) ∧
  ∀ st',
    process_instruction type_class A_m candidates return_object_v0 env_EF
      no_rejections = Some st' →
    ∀ x, x ∈ rejected_enums st'
         ↔ x ∈ rejected_enums no_rejections ∨
           inconsistent_insertion candidates (env_get env_EF 0%N)
             (get_rtype (get_proto A_m)) x.
Proof.
  apply (return_object_checks_the_return_type type_class A_m candidates
           return_object_v0 0%N env_EF no_rejections).
  - reflexivity.
  - reflexivity.
Defined.

(** [check-cast v0, Object] with an [E] in [v0] *)
Lemma check_cast_of_an_E_to_Object :
  ∃ st',
    process_instruction type_class A_m candidates check_cast_Object env_EF
      no_rejections = Some st' ∧
    ∀ x, x ∈ rejected_enums st'
         ↔ x ∈ rejected_enums no_rejections ∨
           inconsistent_insertion candidates (env_get env_EF 0%N)
             "Ljava/lang/Object;" x.
Proof.
  apply (check_cast_and_sput_object_check_one_type type_class A_m candidates
           check_cast_Object 0%N "Ljava/lang/Object;" env_EF no_rejections).
  - left. split; reflexivity.
  - reflexivity.
Defined.

(** [I.f(F)] called on an [E] with an [F] *)
Lemma invoke_interface_on_E_and_F :
  is_Some (process_instruction type_class A_m candidates invoke_interface_f
             env_EF no_rejections).
Proof.
  destruct (invocation_aborts_iff type_class A_m candidates
              invoke_interface_f I_f env_EF no_rejections) as [Hnone _].
  - left. reflexivity.
  - reflexivity.
  - destruct (process_instruction type_class A_m candidates
                invoke_interface_f env_EF no_rejections) as [st'|] eqn:E.
    + exists st'. reflexivity.
    + exfalso. destruct (proj1 Hnone eq_refl) as [[H _]|[_ H]].
      * discriminate H.
      * apply H. reflexivity.
Defined.

Lemma general_invocation_of_I_f :
  ∃ st',
    process_general_invocation candidates invoke_interface_f env_EF
      no_rejections = Some st' ∧
    "LE;" ∈ rejected_enums st'.
Proof.
  assert (∃ st', process_general_invocation candidates invoke_interface_f
                   env_EF no_rejections = Some st') as [st' H]
    by (eexists; vm_compute; reflexivity).
  exists st'. split; [exact H|].
  apply (general_invocation_rejections candidates invoke_interface_f I_f
           env_EF no_rejections st' eq_refl H).
  right. right. left. split; [reflexivity|]. exists 0%N.
  split; [reflexivity|]. split; [exact elem_of_candidates_E|].
  rewrite decide_False.
  - apply (bool_decide_unpack _). vm_compute. exact I.
  - intros Hin. apply (bool_decide_pack _) in Hin. vm_compute in Hin.
    exact Hin.
Defined.

(** [v0.name()] with an [E] in [v0] *)
Lemma name_of_an_E :
  process_instruction type_class A_m candidates invoke_name env_EF
    no_rejections
  = Some (if decide (1 < size (discard_primitives (env_get env_EF 0%N)))
          then reject_set candidates
                 (discard_primitives (env_get env_EF 0%N))
                 MULTI_ENUM_TYPES no_rejections
          else no_rejections).
Proof.
  destruct (safe_virtual_calls_reject_only_mixed_registers type_class A_m
              candidates invoke_name E_name 0%N env_EF no_rejections)
    as (_ & H & _).
  - reflexivity.
  - reflexivity.
  - left. split; [right; exact elem_of_candidates_E|].
    split; [|reflexivity]. right. left. vm_compute. reflexivity.
  - exact H.
Defined.

(** [E.values()] *)
Lemma values_of_E_is_passed_over :
  process_instruction type_class A_m candidates invoke_values env_EF
    no_rejections = Some no_rejections.
Proof.
  apply (values_and_valueOf_are_passed_over type_class A_m candidates
           invoke_values E_values env_EF no_rejections).
  - reflexivity.
  - reflexivity.
  - exact elem_of_candidates_E.
  - left. vm_compute. reflexivity.
Defined.

(** the transfer of [const-class LE;] *)
Lemma const_class_writes_RESULT_only :
  env_is_bottom
    (env_set RESULT_REGISTER (EnumTypes_of get_class_type) env_EF)
  = env_is_bottom env_EF ∧
  ∀ r, r ≠ RESULT_REGISTER → r ≠ next_register RESULT_REGISTER →
       env_get (env_set RESULT_REGISTER (EnumTypes_of get_class_type) env_EF) r
       = env_get env_EF r.
Proof.
  destruct (analyze_instruction_frame const_class_E env_EF
              (env_set RESULT_REGISTER (EnumTypes_of get_class_type) env_EF)
              eq_refl) as (Hframe & Hbottom & _).
  split; [exact Hbottom|exact Hframe].
Defined.

(** [move-object v5, v0] *)
Lemma move_object_of_an_E :
  ∃ env',
    analyze_instruction move_object_v5_v0 env_EF = Some env' ∧
    env_get env' 5%N = env_get env_EF 0%N ∧
    env_get env' 5%N = env_get env' 0%N.
Proof.
  apply (move_object_copies move_object_v5_v0 0%N env_EF).
  - reflexivity.
  - reflexivity.
  - vm_compute. lia.
  - reflexivity.
  - reflexivity.
Defined.

(** [check-cast v0, Object] and its [move-result-pseudo-object v6] *)
Lemma check_cast_then_move_result_pseudo :
  ∃ env1 env2,
    analyze_instruction check_cast_Object env_EF = Some env1 ∧
    env_get env1 RESULT_REGISTER = EnumTypes_of "Ljava/lang/Object;" ∧
    analyze_instruction move_result_pseudo_object_v6 env1 = Some env2 ∧
    env_get env2 6%N = EnumTypes_of "Ljava/lang/Object;".
Proof.
  apply (result_reaches_the_move_result check_cast_Object
           move_result_pseudo_object_v6 "Ljava/lang/Object;" env_EF).
  - right. repeat split; reflexivity.
  - right. reflexivity.
  - reflexivity.
  - vm_compute. lia.
  - reflexivity.
Defined.

(** [aget-object v2, v3] on an array that is an [E[]] or an [F[]] *)
Lemma aget_object_of_E_or_F_array :
  ∃ env',
    analyze_instruction aget_object_v2 env_EF = Some env' ∧
    env_get env' RESULT_REGISTER
    = Value (acceptable_elem_types (env_get env_EF 2%N)).
Proof.
  destruct (aget_object_reads_the_acceptable_types aget_object_v2 2%N env_EF)
    as (env' & H1 & H2 & _).
  - reflexivity.
  - reflexivity.
  - reflexivity.
  - reflexivity.
  - exists env'. split; [exact H1|exact H2].
Defined.

(** the initial environment of [A.isE(Object)] *)
Lemma gen_env_of_A_isE :
  ∃ env,
    gen_env A_isE = Some env ∧
    env_is_bottom env = false ∧
    ∀ r, r ∉ (dest <$> get_param_instructions A_isE_code) →
         env_get env r = Bottom.
Proof.
  assert (∃ env, gen_env A_isE = Some env) as [env H]
    by (eexists; vm_compute; reflexivity).
  exists env. split; [exact H|].
  destruct (gen_env_binds_the_parameters A_isE A_isE_code env eq_refl H)
    as (_ & Hb & _ & Hother).
  - vm_compute. repeat constructor. intros Hin. inversion Hin.
  - split; [exact Hb|exact Hother].
Defined.

(** the pass on [A] and [E] *)
Lemma A_then_E_stays_within_the_candidates :
  reject_unsafe_enums type_class engine [class_A; class_E] candidates
  = Some ∅ ∧
  ∅ ⊆ candidates.
Proof.
  assert (reject_unsafe_enums type_class engine [class_A; class_E] candidates
          = Some ∅) as H by (vm_compute; reflexivity).
  split; [exact H|].
  apply (prefilter_rejections_are_final type_class engine candidates
           [class_A; class_E] ∅ H).
Defined.

(** the pass on a class with the method [A.lit], which holds [E.class] *)
Lemma class_literal_rejects_E :
  ∃ result,
    reject_unsafe_enums type_class engine [class_A_lit] candidates
    = Some result ∧
    "LE;" ∉ result.
Proof.
  assert (∃ result,
            reject_unsafe_enums type_class engine [class_A_lit] candidates
            = Some result) as [result H]
    by (eexists; vm_compute; reflexivity).
  exists result. split; [exact H|].
  apply (const_class_in_reachable_code_rejects type_class engine candidates
           [class_A_lit] result A_lit A_lit_code A_lit_block const_class_E
           "LE;" H).
  - simpl. left.
  - vm_compute. reflexivity.
  - reflexivity.
  - simpl. left.
  - simpl. left.
  - reflexivity.
  - reflexivity.
  - reflexivity.
  - intros env0 eng Hg He. vm_compute in Hg. injection Hg as <-.
    vm_compute in He. injection He as <-. vm_compute. reflexivity.
Defined.

Lemma class_literal_is_logged :
  ∃ st,
    collect_rejections type_class engine [class_A_lit] candidates = Some st ∧
    "LE;" ∈ rejected_enums st ∧ "LE;" ∈ candidates.
Proof.
  assert (collect_rejections type_class engine [class_A_lit] candidates
          = Some {| rejected_enums := {[ "LE;" ]};
                    reject_trace := [("LE;", USED_AS_CLASS_OBJECT)] |}) as H
    by (vm_compute; reflexivity).
  eexists. split; [exact H|].
  destruct (logged_rejections_are_rejected type_class engine candidates
              [class_A_lit] _ H "LE;" USED_AS_CLASS_OBJECT)
    as (H1 & H2 & _).
  - simpl. left.
  - split; [exact H1|exact H2].
Defined.
